(** * my-react-query (v2): QueryCache, Query, QueryClient and QueryObserver

    A shallow embedding of the v2 engine of the repository:

    - [src/v2/QueryCache.ts]   the cache entry (class [QueryCache]) and the
      registry (class [QueryClient]);
    - [src/v2/Query.ts]        the per-name table of cache entries;
    - [QueryObserver.ts]       the observer bound to one cache entry.

    TypeScript generics are erased at run time, so data, errors and variables
    are JavaScript values ([value]); [undefined] is [None].  Objects live in
    heaps indexed by references, because cache entries are shared between the
    table of their query, the observers bound to them, the timers and the
    pending fetches.  Promises, timers and the clock are part of the [World];
    what the environment does (a caller calls a method, the fetcher's promise
    settles, a timer fires, time passes) is an [Event].

    The functions that callers give to the engine may throw: a fetcher, a
    transform ([props.select]), a listener of an observer.  A method that
    throws ends with [Abrupt]; the stores call their listeners in a loop
    that catches nothing, and [fetch], which is [async], turns what is thrown
    in its body into the rejection of the promise it returns. *)

From stdpp Require Import gmap strings list fin_maps.
From Stdlib Require Import ZArith Lia.

Local Open Scope Z_scope.

(** ** JavaScript values *)

(** Who made an [Error] object: the environment ([Given r]: the object of
    reference [r]), or the call of [fetch] that returned the promise [p]
    ([Made p]: see [undefinedDataError]). *)
Inductive Origin :=
| Given (ref : positive)
| Made (p : positive).

#[global] Instance Origin_eq_dec : EqDecision Origin.
Proof. solve_decision. Defined.

(** A value other than [undefined].  A number is an integer or [NaN].
    [VObj r] is a reference to an object (array, record, function ...), and
    [VError o m] is an [Error] object with the message [m]: two objects are
    the same value when they are the same object. *)
Inductive value :=
| VNull
| VBool (b : bool)
| VNum (n : Z)
| VNaN
| VStr (s : string)
| VObj (ref : positive)
| VError (origin : Origin) (message : string).

#[global] Instance value_eq_dec : EqDecision value.
Proof. solve_decision. Defined.

(** [a === b], where [a] and [b] may be [undefined]: the same value, but
    [NaN] is [===] to nothing, itself included. *)
Definition strict_equal (a b : option value) : bool :=
  match a with
  | Some VNaN => false
  | _ => bool_decide (a = b)
  end.

(** What a call of a transform ([props.select]) does: it returns a value,
    which may be [undefined], or it throws [e]. *)
Inductive Transformed :=
| Returns (v : option value)
| Throws (e : option value).

(** How a call of a method ends: it returns, or it throws [e]. *)
Inductive Completion :=
| Normal
| Abrupt (e : option value).

(** A number used as a duration: an integer count of milliseconds or
    [Infinity]. *)
Inductive jsnum :=
| Num (n : Z)
| Infinity.

#[global] Instance jsnum_eq_dec : EqDecision jsnum.
Proof. solve_decision. Defined.

(** [a < b] for a finite [a]. *)
Definition lt_num (a : Z) (b : jsnum) : bool :=
  match b with
  | Num n => bool_decide (a < n)
  | Infinity => true
  end.

(** Truthiness of a number: [0] is falsy. *)
Definition truthy (a : jsnum) : bool :=
  match a with
  | Num n => bool_decide (n ≠ 0)
  | Infinity => true
  end.

(** [a + b] for a finite [a]. *)
Definition add_num (a : Z) (b : jsnum) : jsnum :=
  match b with
  | Num n => Num (a + n)
  | Infinity => Infinity
  end.

(** References to objects, promise ids and timer ids. *)
Abbreviation id := positive (only parsing).

(** ** QueryCache.ts: the state of a cache entry *)

Inductive QueryStatus :=
| StPending
| StLoading
| StError
| StSuccess.

#[global] Instance QueryStatus_eq_dec : EqDecision QueryStatus.
Proof. solve_decision. Defined.

Record QueryCacheState := mkQueryCacheState {
  data : option value;
  error : option value;
  dataUpdatedAt : Z;
  errorUpdatedAt : Z;
  updatedAt : Z;
  status : QueryStatus;
  variables : value;
}.

(** The initial state of the store, after the constructor has merged
    [{ variables: props.variables }] into it. *)
Definition initialState (vars : value) : QueryCacheState :=
  {| data := None; error := None;
     dataUpdatedAt := 0; errorUpdatedAt := 0; updatedAt := 0;
     status := StPending; variables := vars |}.

(** The partial states that the three mutators merge into the store
    ([store.setState(partial)] is [Object.assign({}, state, partial)]).
    [date_now] is the reading of [Date.now()]; the two readings within one
    mutator are taken to be the same. *)

(** [startFetching]: [{ status: 'loading' }]. *)
Definition startFetching_merge (s : QueryCacheState) : QueryCacheState :=
  {| data := data s; error := error s;
     dataUpdatedAt := dataUpdatedAt s; errorUpdatedAt := errorUpdatedAt s;
     updatedAt := updatedAt s;
     status := StLoading; variables := variables s |}.

(** [setData(data)]; [data : TData] is never [undefined]. *)
Definition setData_merge (date_now : Z) (d : value) (s : QueryCacheState)
  : QueryCacheState :=
  {| data := Some d; error := None;
     dataUpdatedAt := date_now; errorUpdatedAt := 0;
     updatedAt := date_now;
     status := StSuccess; variables := variables s |}.

(** [setError(error)]; [error : any] may be [undefined]. *)
Definition setError_merge (date_now : Z) (e : option value) (s : QueryCacheState)
  : QueryCacheState :=
  {| data := data s; error := e;
     dataUpdatedAt := dataUpdatedAt s; errorUpdatedAt := date_now;
     updatedAt := date_now;
     status := StError; variables := variables s |}.

(** [isFresh(cacheTime)]: [Date.now() - this.state.updatedAt < cacheTime]. *)
Definition isFresh_state (date_now : Z) (s : QueryCacheState) (cacheTime : jsnum)
  : bool :=
  lt_num (date_now - updatedAt s) cacheTime.

(** ** zustand/vanilla: a store is a state and its listeners, in the order
    they subscribed *)

(** The listeners of the store of a cache entry are those that the engine
    subscribes. *)
Inductive Listener :=
| LWaiter (p : id)      (* the closure of [fetch] that settles promise [p] *)
| LObserver (o : id).   (* the closure of [mount] of observer [o] *)

#[global] Instance Listener_eq_dec : EqDecision Listener.
Proof. solve_decision. Defined.

Record Store := mkStore {
  getState : QueryCacheState;
  listeners : list Listener;
}.

Definition subscribe (l : Listener) (st : Store) : Store :=
  {| getState := getState st; listeners := listeners st ++ [l] |}.

Definition unsubscribe (l : Listener) (st : Store) : Store :=
  {| getState := getState st;
     listeners := filter (λ x, x ≠ l) (listeners st) |}.

(** ** QueryCache.ts: the cache entry object *)

(** A fetcher is a JavaScript function; the model knows it by its
    reference only and learns what it returns from the environment. *)
Abbreviation fetcherRef := positive (only parsing).

Record QueryCache := mkQueryCache {
  variablesHash : string;
  clearTime : jsnum;
  usedCount : Z;
  onClear : id;                   (* [() => query.caches.delete(hash)]: the query *)
  clearTimeoutId : option id;
  fetcher : fetcherRef;
  store : Store;
}.

Definition state (qc : QueryCache) : QueryCacheState := getState (store qc).

Definition with_store (f : Store → Store) (qc : QueryCache) : QueryCache :=
  {| variablesHash := variablesHash qc; clearTime := clearTime qc;
     usedCount := usedCount qc; onClear := onClear qc;
     clearTimeoutId := clearTimeoutId qc; fetcher := fetcher qc;
     store := f (store qc) |}.

(** What a timer does when it fires. *)
Inductive TimerCallback :=
| TOnClear (c : id) (delay : Z)        (* [() => this.onClear()] of entry [c] *)
| TRefetch (c : id) (delay : jsnum).   (* [() => cache.refetch(...)] of entry [c] *)

(** [use()]: the new object, and the timer to clear if one was armed. *)
Definition use_obj (qc : QueryCache) : QueryCache * option id :=
  ({| variablesHash := variablesHash qc; clearTime := clearTime qc;
      usedCount := usedCount qc + 1; onClear := onClear qc;
      clearTimeoutId := None; fetcher := fetcher qc; store := store qc |},
   clearTimeoutId qc).

(** The test of [unuse()], on the count already decremented. *)
Definition unuse_arms (qc : QueryCache) : option Z :=
  match clearTime qc with
  | Num n =>
      if bool_decide (usedCount qc - 1 = 0) && bool_decide (n > 0)
         && bool_decide (clearTimeoutId qc = None)
      then Some n else None
  | Infinity => None
  end.

(** [unuse()] of the entry [self]: the new object, and the timer armed under
    the id [t] that [window.setTimeout] returns, if one is armed. *)
Definition unuse_obj (self t : id) (qc : QueryCache)
  : QueryCache * option TimerCallback :=
  match unuse_arms qc with
  | Some n =>
      ({| variablesHash := variablesHash qc; clearTime := clearTime qc;
          usedCount := usedCount qc - 1; onClear := onClear qc;
          clearTimeoutId := Some t; fetcher := fetcher qc; store := store qc |},
       Some (TOnClear self n))
  | None =>
      ({| variablesHash := variablesHash qc; clearTime := clearTime qc;
          usedCount := usedCount qc - 1; onClear := onClear qc;
          clearTimeoutId := clearTimeoutId qc; fetcher := fetcher qc;
          store := store qc |},
       None)
  end.

(** ** Query.ts and QueryClient *)

Record QueryConstructorProps := mkQueryProps {
  props_name : string;
  props_fetcher : fetcherRef;
  props_clearTime : option jsnum;
}.

Definition DEFAULT_CLEAR_TIME : jsnum := Num 300000.

Record Query := mkQuery {
  name : string;
  qfetcher : fetcherRef;
  qclearTime : jsnum;
  caches : gmap string id;        (* [Map<string, QueryCache>] *)
}.

(** [new Query(props)] *)
Definition Query_new (props : QueryConstructorProps) : Query :=
  {| name := props_name props;
     qfetcher := props_fetcher props;
     qclearTime := default DEFAULT_CLEAR_TIME (props_clearTime props);
     caches := ∅ |}.

Definition with_caches (f : gmap string id → gmap string id) (q : Query) : Query :=
  {| name := name q; qfetcher := qfetcher q; qclearTime := qclearTime q;
     caches := f (caches q) |}.

(** ** QueryObserver.ts: the observer object *)

Record QueryObserverState := mkObserverState {
  o_data : option value;
  o_error : option value;
  originalData : option value;
  isSuccess : bool;
  isError : bool;
  isLoading : bool;
  isSettled : bool;
  isPending : bool;
  isFresh : bool;
  o_updatedAt : Z;
  o_dataUpdatedAt : Z;
  o_errorUpdatedAt : Z;
}.

Definition pendingState : QueryObserverState :=
  {| o_data := None; o_error := None; originalData := None;
     isSuccess := false; isError := false; isLoading := false;
     isSettled := false; isPending := false; isFresh := false;
     o_updatedAt := 0; o_dataUpdatedAt := 0; o_errorUpdatedAt := 0 |}.

Record ObserverProps := mkObserverProps {
  select : value → Transformed;
  refetchInterval : jsnum;
  cacheTime : jsnum;
  refetchOnMount : bool;
}.

Definition defaultProps : ObserverProps :=
  {| select := λ d, Returns (Some d);
     refetchInterval := Num 0;
     cacheTime := Infinity;
     refetchOnMount := true |}.

Record QueryObserverConstructorProps := mkObserverCtorProps {
  ctor_query : id;
  ctor_variables : value;
  ctor_select : option (value → Transformed);
  ctor_refetchInterval : option jsnum;
  ctor_cacheTime : option jsnum;
  ctor_refetchOnMount : option bool;
}.

(** The argument of [setProps]: for each key, [None] when the key is not in
    the object, [Some None] when it is there with value [undefined]. *)
Record PartialProps := mkPartialProps {
  part_select : option (option (value → Transformed));
  part_refetchInterval : option (option jsnum);
  part_cacheTime : option (option jsnum);
}.

(** A listener of the store of an observer, given to [observer.subscribe]:
    a JavaScript function, known by its reference.  Called with the new and
    the previous state of the store, it returns or it throws. *)
Record Subscriber := mkSubscriber {
  sub_ref : positive;
  sub_call : QueryObserverState → QueryObserverState → Completion;
}.

Record QueryObserver := mkQueryObserver {
  query : id;
  cache : id;
  refetchTimeoutId : option id;
  props : ObserverProps;
  ostate : QueryObserverState;    (* the state of the observer's own store *)
  subscribers : list Subscriber;  (* its listeners, in the order they subscribed *)
  selectLog : list value;         (* the arguments [props.select] was called on *)
}.

Definition with_props (f : ObserverProps → ObserverProps) (ob : QueryObserver)
  : QueryObserver :=
  {| query := query ob; cache := cache ob;
     refetchTimeoutId := refetchTimeoutId ob; props := f (props ob);
     ostate := ostate ob; subscribers := subscribers ob;
     selectLog := selectLog ob |}.

Definition with_refetchTimeoutId (t : option id) (ob : QueryObserver)
  : QueryObserver :=
  {| query := query ob; cache := cache ob;
     refetchTimeoutId := t; props := props ob;
     ostate := ostate ob; subscribers := subscribers ob;
     selectLog := selectLog ob |}.

Definition with_subscribers (f : list Subscriber → list Subscriber)
  (ob : QueryObserver) : QueryObserver :=
  {| query := query ob; cache := cache ob;
     refetchTimeoutId := refetchTimeoutId ob; props := props ob;
     ostate := ostate ob; subscribers := f (subscribers ob);
     selectLog := selectLog ob |}.

(** ** The world *)

Inductive Promise :=
| Pending
| Resolved (v : option value)
| Rejected (e : option value).

#[global] Instance Promise_eq_dec : EqDecision Promise.
Proof. solve_decision. Defined.

(** A call of a fetcher: the promise that the calling [fetch] had returned,
    the entry, the fetcher and its argument. *)
Record FetcherCall := mkFetcherCall {
  call_promise : id;
  call_entry : id;
  call_fetcher : fetcherRef;
  call_argument : value;
}.

#[global] Instance FetcherCall_eq_dec : EqDecision FetcherCall.
Proof. solve_decision. Defined.

Record World := mkWorld {
  now : Z;                                 (* [Date.now()] *)
  nextId : id;                             (* the next reference or id handed out *)
  client : gmap string id;                 (* [QueryClient.queries] *)
  queries : gmap id Query;                 (* the Query objects *)
  cacheHeap : gmap id QueryCache;          (* the QueryCache objects *)
  observers : gmap id QueryObserver;       (* the QueryObserver objects *)
  promises : gmap id Promise;              (* the promises [fetch] returned *)
  inflight : gmap id id;                   (* fetcher calls not settled yet:
                                              promise of the caller -> entry *)
  timers : gmap id TimerCallback;          (* timers armed and not fired *)
  throwing : gmap fetcherRef (option value);
                                           (* the fetchers that, called now,
                                              throw instead of returning a
                                              promise, and what they throw *)
  fetcherCalls : list FetcherCall;         (* every call of a fetcher *)
}.

Definition initialWorld : World :=
  {| now := 0; nextId := 1%positive; client := ∅; queries := ∅; cacheHeap := ∅;
     observers := ∅; promises := ∅; inflight := ∅; timers := ∅; throwing := ∅;
     fetcherCalls := [] |}.

Definition with_now (t : Z) (w : World) : World :=
  {| now := t; nextId := nextId w; client := client w; queries := queries w;
     cacheHeap := cacheHeap w; observers := observers w;
     promises := promises w; inflight := inflight w; timers := timers w;
     throwing := throwing w; fetcherCalls := fetcherCalls w |}.

Definition with_client
  (f : gmap string id → gmap string id)
  (w : World) : World :=
  {| now := now w; nextId := nextId w; client := f (client w);
     queries := queries w; cacheHeap := cacheHeap w; observers := observers w;
     promises := promises w; inflight := inflight w; timers := timers w;
     throwing := throwing w; fetcherCalls := fetcherCalls w |}.

Definition with_queries
  (f : gmap id Query → gmap id Query)
  (w : World) : World :=
  {| now := now w; nextId := nextId w; client := client w;
     queries := f (queries w); cacheHeap := cacheHeap w;
     observers := observers w; promises := promises w; inflight := inflight w;
     timers := timers w; throwing := throwing w;
     fetcherCalls := fetcherCalls w |}.

Definition with_cacheHeap
  (f : gmap id QueryCache → gmap id QueryCache)
  (w : World) : World :=
  {| now := now w; nextId := nextId w; client := client w;
     queries := queries w; cacheHeap := f (cacheHeap w);
     observers := observers w; promises := promises w; inflight := inflight w;
     timers := timers w; throwing := throwing w;
     fetcherCalls := fetcherCalls w |}.

Definition with_observers
  (f : gmap id QueryObserver → gmap id QueryObserver)
  (w : World) : World :=
  {| now := now w; nextId := nextId w; client := client w;
     queries := queries w; cacheHeap := cacheHeap w;
     observers := f (observers w); promises := promises w;
     inflight := inflight w; timers := timers w; throwing := throwing w;
     fetcherCalls := fetcherCalls w |}.

Definition with_promises
  (f : gmap id Promise → gmap id Promise)
  (w : World) : World :=
  {| now := now w; nextId := nextId w; client := client w;
     queries := queries w; cacheHeap := cacheHeap w; observers := observers w;
     promises := f (promises w); inflight := inflight w; timers := timers w;
     throwing := throwing w; fetcherCalls := fetcherCalls w |}.

Definition with_inflight (f : gmap id id → gmap id id) (w : World) : World :=
  {| now := now w; nextId := nextId w; client := client w;
     queries := queries w; cacheHeap := cacheHeap w; observers := observers w;
     promises := promises w; inflight := f (inflight w); timers := timers w;
     throwing := throwing w; fetcherCalls := fetcherCalls w |}.

Definition with_timers
  (f : gmap id TimerCallback → gmap id TimerCallback)
  (w : World) : World :=
  {| now := now w; nextId := nextId w; client := client w;
     queries := queries w; cacheHeap := cacheHeap w; observers := observers w;
     promises := promises w; inflight := inflight w; timers := f (timers w);
     throwing := throwing w; fetcherCalls := fetcherCalls w |}.

Definition with_throwing
  (f : gmap fetcherRef (option value) → gmap fetcherRef (option value))
  (w : World) : World :=
  {| now := now w; nextId := nextId w; client := client w;
     queries := queries w; cacheHeap := cacheHeap w; observers := observers w;
     promises := promises w; inflight := inflight w; timers := timers w;
     throwing := f (throwing w); fetcherCalls := fetcherCalls w |}.

Definition with_fetcherCalls
  (f : list FetcherCall → list FetcherCall)
  (w : World) : World :=
  {| now := now w; nextId := nextId w; client := client w;
     queries := queries w; cacheHeap := cacheHeap w; observers := observers w;
     promises := promises w; inflight := inflight w; timers := timers w;
     throwing := throwing w; fetcherCalls := f (fetcherCalls w) |}.

(** A new reference or id: the counter, which moves on. *)
Definition alloc (w : World) : id * World :=
  (nextId w,
   {| now := now w; nextId := Pos.succ (nextId w); client := client w;
      queries := queries w; cacheHeap := cacheHeap w; observers := observers w;
      promises := promises w; inflight := inflight w; timers := timers w;
      throwing := throwing w; fetcherCalls := fetcherCalls w |}).

(** [window.setTimeout(cb, delay)] and [window.clearTimeout(t)]. *)
Definition window_setTimeout (cb : id → TimerCallback) (w : World) : id * World :=
  let '(t, w) := alloc w in
  (t, with_timers (<[t := cb t]>) w).

Definition window_clearTimeout (t : id) (w : World) : World :=
  with_timers (delete t) w.

(** Settling a promise: the first [resolve] or [reject] wins. *)
Definition settle (p : id) (outcome : Promise) (w : World) : World :=
  match promises w !! p with
  | Some Pending => with_promises (<[p := outcome]>) w
  | _ => w
  end.

(** ** The methods, on the world *)

(** [new Error('data in fetcher should not be undefined. Use null instead')]
    in the call of [fetch] that returned the promise [p]. *)
Definition undefinedDataError (p : id) : value :=
  VError (Made p) "data in fetcher should not be undefined. Use null instead".

(** What the promise returned by the fetcher settles to. *)
Inductive FetcherResult :=
| FResolved (d : option value)     (* [FResolved None]: resolved with [undefined] *)
| FRejected (e : option value).

(** [subscribe] and the function it returns, on the store of entry [c]. *)
Definition store_subscribe (c : id) (l : Listener) (w : World) : World :=
  with_cacheHeap (alter (with_store (subscribe l)) c) w.

Definition store_unsubscribe (c : id) (l : Listener) (w : World) : World :=
  with_cacheHeap (alter (with_store (unsubscribe l)) c) w.

(** [QueryCache.isFresh] of entry [c]. *)
Definition QueryCache_isFresh (c : id) (ct : jsnum) (w : World) : bool :=
  match cacheHeap w !! c with
  | Some qc => isFresh_state (now w) (state qc) ct
  | None => false
  end.

(** The observer with one more call of [props.select] in its log. *)
Definition with_selectLog (called : list value) (ob : QueryObserver)
  : QueryObserver :=
  {| query := query ob; cache := cache ob;
     refetchTimeoutId := refetchTimeoutId ob; props := props ob;
     ostate := ostate ob; subscribers := subscribers ob;
     selectLog := selectLog ob ++ called |}.

(** [listeners.forEach((listener) => listener(state, previousState))] on the
    store of an observer: a listener that throws ends the loop. *)
Fixpoint publish (st prev : QueryObserverState) (ls : list Subscriber)
  : Completion :=
  match ls with
  | [] => Normal
  | l :: ls =>
      match sub_call l st prev with
      | Normal => publish st prev ls
      | Abrupt e => Abrupt e
      end
  end.

(** [QueryObserver.updateState(state, prevState?)].  The pair computed first
    is what becomes of [transformedData] and the arguments [props.select] is
    called on.  When [props.select] throws, the method ends there: the store
    of the observer is not touched.  Otherwise [this.store.setState] replaces
    the state of the store, then calls its listeners. *)
Definition QueryObserver_updateState (o : id) (st : QueryCacheState)
  (prevState : option QueryCacheState) (w : World) : World * Completion :=
  match observers w !! o with
  | None => (w, Normal)
  | Some ob =>
      let '(transformed, called) :=
        match prevState with
        | Some ps =>
            if strict_equal (data st) (data ps)
            then (Returns (o_data (ostate ob)), [])
            else match data st with
                 | None => (Returns None, [])
                 | Some d => (select (props ob) d, [d])
                 end
        | None => (Returns None, [])
        end in
      match transformed with
      | Throws e =>
          (with_observers (<[o := with_selectLog called ob]>) w, Abrupt e)
      | Returns transformedData =>
          let success := bool_decide (transformedData ≠ None) in
          let failed := bool_decide (error st ≠ None) in
          let published :=
            {| o_data := transformedData;
               o_error := error st;
               originalData := data st;
               isSuccess := success;
               isError := failed;
               isLoading := bool_decide (status st = StLoading);
               isSettled := success || failed;
               isPending := bool_decide (status st = StPending);
               isFresh := QueryCache_isFresh (cache ob) (cacheTime (props ob)) w;
               o_updatedAt := updatedAt st;
               o_dataUpdatedAt := dataUpdatedAt st;
               o_errorUpdatedAt := errorUpdatedAt st |} in
          (with_observers
             (<[o := {| query := query ob; cache := cache ob;
                        refetchTimeoutId := refetchTimeoutId ob;
                        props := props ob;
                        ostate := published;
                        subscribers := subscribers ob;
                        selectLog := selectLog ob ++ called |}]>) w,
           publish published (ostate ob) (subscribers ob))
      end
  end.

(** One listener of the store of a cache entry is called with the new and
    the previous state. *)
Definition notify (st prev : QueryCacheState) (w : World) (l : Listener)
  : World * Completion :=
  match l with
  | LWaiter p =>
      match status st with
      | StSuccess => (settle p (Resolved (data st)) w, Normal)
      | StError => (settle p (Rejected (error st)) w, Normal)
      | _ => (w, Normal)
      end
  | LObserver o => QueryObserver_updateState o st (Some prev) w
  end.

(** [listeners.forEach((listener) => listener(state, previousState))]: the
    listeners are called in order, and a listener that throws ends the loop:
    the listeners after it are not called. *)
Fixpoint forEach (st prev : QueryCacheState) (ls : list Listener) (w : World)
  : World * Completion :=
  match ls with
  | [] => (w, Normal)
  | l :: ls =>
      match notify st prev w l with
      | (w, Normal) => forEach st prev ls w
      | (w, Abrupt e) => (w, Abrupt e)
      end
  end.

(** [store.setState(partial)] on the store of entry [c]: the state is replaced,
    then the listeners are called. *)
Definition store_setState (c : id) (merge : QueryCacheState → QueryCacheState)
  (w : World) : World * Completion :=
  match cacheHeap w !! c with
  | None => (w, Normal)
  | Some qc =>
      let prev := state qc in
      let st := merge prev in
      forEach st prev (listeners (store qc))
        (with_cacheHeap (<[c := with_store (λ s, mkStore st (listeners s)) qc]>) w)
  end.

Definition QueryCache_startFetching (c : id) (w : World) : World * Completion :=
  store_setState c startFetching_merge w.

Definition QueryCache_setData (c : id) (d : value) (w : World)
  : World * Completion :=
  store_setState c (setData_merge (now w) d) w.

Definition QueryCache_setError (c : id) (e : option value) (w : World)
  : World * Completion :=
  store_setState c (setError_merge (now w) e) w.

Definition QueryCache_use (c : id) (w : World) : World :=
  match cacheHeap w !! c with
  | None => w
  | Some qc =>
      let w := with_cacheHeap (<[c := (use_obj qc).1]>) w in
      match (use_obj qc).2 with
      | Some t => window_clearTimeout t w
      | None => w
      end
  end.

Definition QueryCache_unuse (c : id) (w : World) : World :=
  match cacheHeap w !! c with
  | None => w
  | Some qc =>
      match unuse_obj c (nextId w) qc with
      | (qc', Some cb) =>
          with_cacheHeap (<[c := qc']>) (window_setTimeout (λ _, cb) w).2
      | (qc', None) => with_cacheHeap (<[c := qc']>) w
      end
  end.

(** [fetch(variables, options)]; [options] is [options?.cacheTime].  The
    result is the promise returned.  [fetch] is an [async] function: what is
    thrown in its body rejects the promise.  In the last branch
    [startFetching] is called, then the fetcher: when it returns a promise,
    that promise is awaited, and the rest of the body runs in
    [fetcher_settled]. *)
Definition QueryCache_fetch (c : id) (vars : value) (options : option jsnum)
  (w : World) : id * World :=
  let '(p, w) := alloc w in
  let w := with_promises (<[p := Pending]>) w in
  match cacheHeap w !! c with
  | None => (p, w)
  | Some qc =>
      if decide (status (state qc) = StLoading) then
        (p, store_subscribe c (LWaiter p) w)
      else
        let ct := default Infinity options in
        if isFresh_state (now w) (state qc) ct
           && bool_decide (status (state qc) = StSuccess)
        then (p, settle p (Resolved (data (state qc))) w)
        else if isFresh_state (now w) (state qc) ct
                && bool_decide (status (state qc) = StError)
        then (p, settle p (Rejected (error (state qc))) w)
        else
          match QueryCache_startFetching c w with
          | (w, Abrupt e) => (p, settle p (Rejected e) w)
          | (w, Normal) =>
              let w :=
                with_fetcherCalls (λ l, l ++ [mkFetcherCall p c (fetcher qc) vars])
                  w in
              match throwing w !! fetcher qc with
              | Some e => (p, settle p (Rejected e) w)
              | None => (p, with_inflight (<[p := c]>) w)
              end
          end
  end.

(** [refetch(variables)] *)
Definition QueryCache_refetch (c : id) (vars : value) (w : World) : id * World :=
  QueryCache_fetch c vars (Some (Num 0)) w.

(** The [.catch] callback of [fetch], for the caller [p]:
    [this.setError(error); throw error]. *)
Definition fetch_catch (c p : id) (e : option value) (w : World) : World :=
  match QueryCache_setError c e w with
  | (w, Normal) => settle p (Rejected e) w
  | (w, Abrupt e') => settle p (Rejected e') w
  end.

(** The promise of the fetcher call made for the caller [p] settles: the
    [.then] callback of [fetch] runs when it is resolved, and the [.catch]
    callback when it is rejected or the [.then] callback has thrown. *)
Definition fetcher_settled (p : id) (r : FetcherResult) (w : World) : World :=
  match inflight w !! p with
  | None => w
  | Some c =>
      let w := with_inflight (delete p) w in
      match r with
      | FResolved (Some d) =>
          match QueryCache_setData c d w with
          | (w, Normal) => settle p (Resolved (Some d)) w
          | (w, Abrupt e) => fetch_catch c p e w
          end
      | FResolved None => fetch_catch c p (Some (undefinedDataError p)) w
      | FRejected e => fetch_catch c p e w
      end
  end.

(** [QueryClient.findQuery] and [QueryClient.createQuery] *)
Definition QueryClient_findQuery (queryName : string) (w : World) : option id :=
  client w !! queryName.

Definition QueryClient_createQuery (props : QueryConstructorProps) (w : World)
  : id * World :=
  let '(q, w) := alloc w in
  let w := with_queries (<[q := Query_new props]>) w in
  (q, with_client (<[props_name props := q]>) w).

(** [QueryObserver.clearRefetchTimeout]; a timer id is never [0], so
    [if (this.refetchTimeoutId)] tests that it is not [null]. *)
Definition QueryObserver_clearRefetchTimeout (o : id) (w : World) : World :=
  match observers w !! o with
  | Some ob =>
      match refetchTimeoutId ob with
      | Some t =>
          with_observers (<[o := with_refetchTimeoutId None ob]>)
            (window_clearTimeout t w)
      | None => w
      end
  | None => w
  end.

Definition QueryObserver_setRefetchTimeout (o : id) (w : World) : World :=
  let w := QueryObserver_clearRefetchTimeout o w in
  match observers w !! o with
  | Some ob =>
      match cacheHeap w !! cache ob with
      | Some qc =>
          if truthy (refetchInterval (props ob))
             && bool_decide (updatedAt (state qc) > 0)
          then
            let delay :=
              add_num (now w - updatedAt (state qc)) (refetchInterval (props ob)) in
            let '(t, w) := window_setTimeout (λ _, TRefetch (cache ob) delay) w in
            with_observers (<[o := with_refetchTimeoutId (Some t) ob]>) w
          else w
      | None => w
      end
  | None => w
  end.

(** The private [refetch] and [fetch] of the observer; the promise is
    dropped ([.catch(noop)]). *)
Definition QueryObserver_refetch (o : id) (w : World) : World :=
  match observers w !! o with
  | Some ob =>
      match cacheHeap w !! cache ob with
      | Some qc => (QueryCache_refetch (cache ob) (variables (state qc)) w).2
      | None => w
      end
  | None => w
  end.

Definition QueryObserver_fetch (o : id) (w : World) : World :=
  match observers w !! o with
  | Some ob =>
      match cacheHeap w !! cache ob with
      | Some qc =>
          (QueryCache_fetch (cache ob) (variables (state qc))
             (Some (cacheTime (props ob))) w).2
      | None => w
      end
  | None => w
  end.

(** [mount]; when [updateState] throws, it ends there, without the
    subscription to the store of the entry. *)
Definition QueryObserver_mount (o : id) (w : World) : World :=
  match observers w !! o with
  | None => w
  | Some ob =>
      let w := if refetchOnMount (props ob)
               then QueryObserver_refetch o w else QueryObserver_fetch o w in
      let w := QueryCache_use (cache ob) w in
      let w := QueryObserver_setRefetchTimeout o w in
      match cacheHeap w !! cache ob with
      | Some qc =>
          match QueryObserver_updateState o (state qc) None w with
          | (w, Normal) => store_subscribe (cache ob) (LObserver o) w
          | (w, Abrupt _) => w
          end
      | None => store_subscribe (cache ob) (LObserver o) w
      end
  end.

(** [observer.subscribe(listener)], which is [store.subscribe] of the store
    of the observer: the listeners are a [Set], to which a function that is
    there already is not added again; and the function it returns, which
    deletes the listener. *)
Definition QueryObserver_subscribe (o : id) (l : Subscriber) (w : World) : World :=
  with_observers
    (alter (with_subscribers
              (λ ls, if bool_decide (sub_ref l ∈ sub_ref <$> ls) then ls
                     else ls ++ [l])) o) w.

Definition QueryObserver_unsubscribe (o : id) (r : positive) (w : World) : World :=
  with_observers
    (alter (with_subscribers (filter (λ l, sub_ref l ≠ r))) o) w.

(** [unmount], which is all [destroy] does. *)
Definition QueryObserver_destroy (o : id) (w : World) : World :=
  match observers w !! o with
  | None => w
  | Some ob =>
      let w := QueryCache_unuse (cache ob) w in
      let w := store_unsubscribe (cache ob) (LObserver o) w in
      QueryObserver_clearRefetchTimeout o w
  end.

Definition QueryObserver_updateCacheTime (o : id) (ct : jsnum) (w : World) : World :=
  match observers w !! o with
  | Some ob =>
      if decide (cacheTime (props ob) ≠ ct) then
        QueryObserver_fetch o
          (with_observers
             (<[o := with_props (λ p, mkObserverProps (select p) (refetchInterval p)
                                        ct (refetchOnMount p)) ob]>) w)
      else w
  | None => w
  end.

Definition QueryObserver_updateRefetchInterval (o : id) (interval : jsnum)
  (w : World) : World :=
  match observers w !! o with
  | Some ob =>
      if decide (refetchInterval (props ob) ≠ interval) then
        QueryObserver_setRefetchTimeout o
          (with_observers
             (<[o := with_props (λ p, mkObserverProps (select p) interval
                                        (cacheTime p) (refetchOnMount p)) ob]>) w)
      else w
  | None => w
  end.

(** [setProps(props)].  For [select] the test [props.select !== this.props.select]
    needs no model: when it fails the assignment would change nothing. *)
Definition QueryObserver_setProps (o : id) (pp : PartialProps) (w : World) : World :=
  let w :=
    match part_cacheTime pp, observers w !! o with
    | Some v, Some ob =>
        if decide (v ≠ Some (cacheTime (props ob)))
        then QueryObserver_updateCacheTime o (default (cacheTime defaultProps) v) w
        else w
    | _, _ => w
    end in
  let w :=
    match part_refetchInterval pp, observers w !! o with
    | Some v, Some ob =>
        if decide (v ≠ Some (refetchInterval (props ob)))
        then QueryObserver_updateRefetchInterval o
               (default (refetchInterval defaultProps) v) w
        else w
    | _, _ => w
    end in
  match part_select pp, observers w !! o with
  | Some v, Some ob =>
      with_observers
        (<[o := with_props (λ p, mkObserverProps (default (select p) v)
                                   (refetchInterval p) (cacheTime p)
                                   (refetchOnMount p)) ob]>) w
  | _, _ => w
  end.

(** A timer fires: it is no longer armed, and its callback runs. *)
Definition timer_fired (t : id) (w : World) : World :=
  match timers w !! t with
  | None => w
  | Some cb =>
      let w := with_timers (delete t) w in
      match cb with
      | TOnClear c _ =>
          match cacheHeap w !! c with
          | Some qc =>
              with_queries
                (alter (with_caches (delete (variablesHash qc))) (onClear qc)) w
          | None => w
          end
      | TRefetch c _ =>
          match cacheHeap w !! c with
          | Some qc => (QueryCache_refetch c (variables (state qc)) w).2
          | None => w
          end
      end
  end.

Section Engine.

(** [stringifyVariables], the key of an entry in the table of its query,
    is any function here. *)
Variable hashVariables : value → string.

(** [Query.findCache], [Query.createCache] and [Query.findOrCreateCache] of
    the query [q]. *)
Definition Query_findCache (q : id) (vars : value) (w : World) : option id :=
  Q ← queries w !! q; caches Q !! hashVariables vars.

Definition Query_createCache (q : id) (vars : value) (w : World) : id * World :=
  let '(c, w) := alloc w in
  match queries w !! q with
  | None => (c, w)
  | Some Q =>
      let qc :=
        {| variablesHash := hashVariables vars;
           clearTime := qclearTime Q;
           usedCount := 0;
           onClear := q;
           clearTimeoutId := None;
           fetcher := qfetcher Q;
           store := mkStore (initialState vars) [] |} in
      let w := with_cacheHeap (<[c := qc]>) w in
      (c, with_queries (alter (with_caches (<[hashVariables vars := c]>)) q) w)
  end.

Definition Query_findOrCreateCache (q : id) (vars : value) (w : World)
  : id * World :=
  match Query_findCache q vars w with
  | Some c => (c, w)
  | None => Query_createCache q vars w
  end.

(** [new QueryObserver(props)]; nothing happens when [props.query] is not a
    Query. *)
Definition QueryObserver_new (cp : QueryObserverConstructorProps) (w : World)
  : id * World :=
  let '(o, w) := alloc w in
  match queries w !! ctor_query cp with
  | None => (o, w)
  | Some _ =>
      let '(c, w) := Query_findOrCreateCache (ctor_query cp) (ctor_variables cp) w in
      let ob :=
        {| query := ctor_query cp;
           cache := c;
           refetchTimeoutId := None;
           props :=
             {| select := default (select defaultProps) (ctor_select cp);
                refetchInterval :=
                  default (refetchInterval defaultProps) (ctor_refetchInterval cp);
                cacheTime := default (cacheTime defaultProps) (ctor_cacheTime cp);
                refetchOnMount :=
                  default (refetchOnMount defaultProps) (ctor_refetchOnMount cp) |};
           ostate := pendingState;
           subscribers := [];
           selectLog := [] |} in
      (o, QueryObserver_mount o (with_observers (<[o := ob]>) w))
  end.

(** ** Events and runs *)

(** What happens to the engine from outside.  Callers may call [fetch],
    [refetch], [use] and [unuse] on any entry, with any variables, look up or
    create the entry of any variables, and subscribe any listener to any
    observer; a pending fetcher call may settle
    with any result; a fetcher may start or stop throwing when it is called;
    the clock may be set to any value; and an armed timer may fire at any
    moment, its delay being recorded only.  The functions that callers give
    ([props.select], the listeners of an observer) return or throw, and do
    nothing else to the engine; [startFetching], [setData], [setError] and
    [createCache] are called by the engine only. *)

Inductive Event :=
| EvClock (t : Z)                                      (* time passes *)
| EvCreateQuery (props : QueryConstructorProps)        (* [client.createQuery] *)
| EvNewObserver (cp : QueryObserverConstructorProps)   (* [new QueryObserver] *)
| EvDestroy (o : id)                                   (* [observer.destroy()] *)
| EvSetProps (o : id) (pp : PartialProps)              (* [observer.setProps] *)
| EvFetch (c : id) (vars : value) (options : option jsnum)  (* [cache.fetch] *)
| EvRefetch (c : id) (vars : value)                    (* [cache.refetch] *)
| EvUse (c : id)                                       (* [cache.use()] *)
| EvUnuse (c : id)                                     (* [cache.unuse()] *)
| EvFetcher (f : fetcherRef) (thrown : option (option value))
      (* from now on the calls of the fetcher [f] throw [e] ([Some e]), or
         return a promise ([None]) *)
| EvSettled (p : id) (r : FetcherResult)               (* a fetcher call settles *)
| EvTimer (t : id)                                     (* a timer fires *)
| EvSubscribe (o : id) (l : Subscriber)                (* [observer.subscribe] *)
| EvUnsubscribe (o : id) (r : positive)
      (* the function that [observer.subscribe] returned for the listener [r] *)
| EvFindOrCreateCache (q : id) (vars : value).         (* [query.findOrCreateCache] *)

Definition step (w : World) (e : Event) : World :=
  match e with
  | EvClock t => with_now t w
  | EvCreateQuery props => (QueryClient_createQuery props w).2
  | EvNewObserver cp => (QueryObserver_new cp w).2
  | EvDestroy o => QueryObserver_destroy o w
  | EvSetProps o pp => QueryObserver_setProps o pp w
  | EvFetch c vars options => (QueryCache_fetch c vars options w).2
  | EvRefetch c vars => (QueryCache_refetch c vars w).2
  | EvUse c => QueryCache_use c w
  | EvUnuse c => QueryCache_unuse c w
  | EvFetcher f thrown =>
      with_throwing
        (match thrown with Some e => <[f := e]> | None => delete f end) w
  | EvSettled p r => fetcher_settled p r w
  | EvTimer t => timer_fired t w
  | EvSubscribe o l => QueryObserver_subscribe o l w
  | EvUnsubscribe o r => QueryObserver_unsubscribe o r w
  | EvFindOrCreateCache q vars => (Query_findOrCreateCache q vars w).2
  end.

Definition run (w : World) (evs : list Event) : World := foldl step w evs.

Inductive reachable : World → Prop :=
| reachable_initial : reachable initialWorld
| reachable_step w e : reachable w → reachable (step w e).

End Engine.

(** ** Runs of the mutators of one cache entry *)

Inductive Mutator :=
| CallStartFetching
| CallSetData (date_now : Z) (d : value)
| CallSetError (date_now : Z) (e : option value).

Definition mutate (s : QueryCacheState) (m : Mutator) : QueryCacheState :=
  match m with
  | CallStartFetching => startFetching_merge s
  | CallSetData t d => setData_merge t d s
  | CallSetError t e => setError_merge t e s
  end.

(** The state of an entry constructed for [vars] after the calls [ms]. *)
Definition mutated (vars : value) (ms : list Mutator) : QueryCacheState :=
  foldl mutate (initialState vars) ms.

Definition terminal (s : QueryCacheState) : Prop :=
  status s = StSuccess ∨ status s = StError.

Definition exactly_one_populated (s : QueryCacheState) : Prop :=
  (is_Some (data s) ∧ error s = None) ∨ (data s = None ∧ is_Some (error s)).

(** What is said of every state reached through the mutators. *)
Definition outcome_exclusive (s : QueryCacheState) : Prop :=
  (status s = StSuccess → is_Some (data s) ∧ error s = None)
  ∧ (status s = StError → is_Some (error s))
  ∧ (status s = StPending → data s = None ∧ error s = None)
  ∧ (status s = StSuccess → dataUpdatedAt s = 0 ∨ errorUpdatedAt s = 0)
  ∧ (terminal s → exactly_one_populated s).

(** What the mutators keep: the same, without "exactly one" in status
    ['error'], where the data of an earlier success stays. *)
Definition outcome_consistent (s : QueryCacheState) : Prop :=
  (status s = StSuccess →
     is_Some (data s) ∧ error s = None ∧ errorUpdatedAt s = 0)
  ∧ (status s = StError → is_Some (error s))
  ∧ (status s = StPending →
       data s = None ∧ error s = None
       ∧ dataUpdatedAt s = 0 ∧ errorUpdatedAt s = 0).

(** No call [setError(undefined)]. *)
Definition setError_defined (m : Mutator) : Prop :=
  match m with
  | CallSetError _ None => False
  | _ => True
  end.

(** ** Runs of [use] and [unuse] on one cache entry *)

Inductive RefCall :=
| CallUse
| CallUnuse.

Definition ref_call (c : id) (w : World) (r : RefCall) : World :=
  match r with
  | CallUse => QueryCache_use c w
  | CallUnuse => QueryCache_unuse c w
  end.

Definition ref_calls (c : id) (w : World) (rs : list RefCall) : World :=
  foldl (ref_call c) w rs.

(** The count of entry [c]; [0] when there is no such entry. *)
Definition usedCount_of (c : id) (w : World) : Z :=
  match cacheHeap w !! c with
  | Some qc => usedCount qc
  | None => 0
  end.

(** Every [unuse] is matched by an earlier [use], from the count [n]. *)
Fixpoint balanced (n : Z) (rs : list RefCall) : bool :=
  match rs with
  | [] => true
  | CallUse :: rs => balanced (n + 1) rs
  | CallUnuse :: rs => bool_decide (0 < n) && balanced (n - 1) rs
  end.

(** The count is said never to be negative. *)
Definition usedCount_never_negative : Prop :=
  ∀ (w : World) (c : id) (rs : list RefCall),
    0 ≤ usedCount_of c w → 0 ≤ usedCount_of c (ref_calls c w rs).

(** ** The registry *)

(** Registering under a name that is taken is said to return the query
    already there and to leave the registry as it is. *)
Definition first_registration_wins : Prop :=
  ∀ (w : World) (props : QueryConstructorProps) (q : id),
    QueryClient_findQuery (props_name props) w = Some q →
    (QueryClient_createQuery props w).1 = q
    ∧ QueryClient_findQuery (props_name props)
        (QueryClient_createQuery props w).2 = Some q.

(** ** Worlds used as examples *)

(** A key deriver for the examples: a string is its own key. *)
Definition demo_hash (v : value) : string :=
  match v with
  | VStr s => s
  | _ => "{}"
  end.

Definition users_props : QueryConstructorProps :=
  {| props_name := "users"; props_fetcher := 100%positive;
     props_clearTime := Some (Num 1000) |}.

Definition users_props_again : QueryConstructorProps :=
  {| props_name := "users"; props_fetcher := 200%positive;
     props_clearTime := None |}.

(** An observer of the entry ["a"] of the query [1], with the defaults. *)
Definition observer_a (onMount : bool) : QueryObserverConstructorProps :=
  {| ctor_query := 1%positive; ctor_variables := VStr "a";
     ctor_select := None; ctor_refetchInterval := None;
     ctor_cacheTime := None; ctor_refetchOnMount := Some onMount |}.

(** The query ["users"] is registered: it is object [1]. *)
Definition world_registered : World :=
  run demo_hash initialWorld [EvCreateQuery users_props].

(** Then, at time 5, an observer (object 2) is created: the entry is object
    [3], and the fetch of the observer is promise [4]. *)
Definition world_loading : World :=
  run demo_hash world_registered [EvClock 5; EvNewObserver (observer_a false)].

(** Then the fetcher resolves with ["alice"]. *)
Definition world_success : World :=
  run demo_hash world_loading
    [EvSettled 4%positive (FResolved (Some (VStr "alice")))].

(** Instead, while the entry is loading, a second observer of it is created
    (object 5); its fetch (promise 6) waits for the first. *)
Definition world_shared : World :=
  run demo_hash world_loading [EvNewObserver (observer_a false)].

(** After the success the observer is destroyed: the count is [0] and the
    eviction timer [5] is armed. *)
Definition world_unused : World :=
  run demo_hash world_success [EvDestroy 2%positive].

(** An observer of the entry ["a"] whose transform throws. *)
Definition observer_throwing : QueryObserverConstructorProps :=
  {| ctor_query := 1%positive; ctor_variables := VStr "a";
     ctor_select := Some (λ _, Throws (Some (VError (Given 1) "boom")));
     ctor_refetchInterval := None; ctor_cacheTime := None;
     ctor_refetchOnMount := Some false |}.

(** While the entry [3] is loading, [fetch] is called on it (promise [5]),
    an observer whose transform throws is created (object [6]; its fetch is
    promise [7]), and [fetch] is called again (promise [8]): the listeners
    of the store are, in this order, the observer [2], the promises [5] and
    [7], the observer [6] and the promise [8]. *)
Definition world_mixed : World :=
  run demo_hash world_loading
    [EvFetch 3 (VStr "a") None; EvNewObserver observer_throwing;
     EvFetch 3 (VStr "a") None].

(** Instead of ["alice"], the fetcher resolves with [NaN]. *)
Definition world_nan : World :=
  run demo_hash world_loading [EvSettled 4%positive (FResolved (Some VNaN))].

(** After [world_unused] the eviction timer [5] fires: the entry [3] is no
    longer in the table.  A new observer (object [6]) makes the entry [7]
    for the same key, and is destroyed: the eviction timer [9] of the entry
    [7] is armed. *)
Definition world_stale : World :=
  run demo_hash world_unused
    [EvTimer 5; EvNewObserver (observer_a false); EvDestroy 6].

(** ** Invariants and frames *)

(** Every reference and id in use was handed out by [alloc]. *)
Definition fresh_ids (w : World) : Prop :=
  (∀ x, (nextId w ≤ x)%positive →
        queries w !! x = None ∧ cacheHeap w !! x = None
        ∧ observers w !! x = None ∧ promises w !! x = None
        ∧ timers w !! x = None).

(** While a fetcher call is pending for an entry, the entry is in status
    ['loading'] and the promise of the caller is pending; there is one such
    call at most. *)
Definition inflight_ok (w : World) : Prop :=
  (∀ p c, inflight w !! p = Some c →
          promises w !! p = Some Pending
          ∧ ∃ qc, cacheHeap w !! c = Some qc ∧ status (state qc) = StLoading)
  ∧ (∀ p1 p2 c, inflight w !! p1 = Some c → inflight w !! p2 = Some c → p1 = p2).

(** The calls of a fetcher made for entry [c]. *)
Definition calls_of (c : id) (w : World) : list FetcherCall :=
  filter (λ x, call_entry x = c) (fetcherCalls w).

(** The calls of a fetcher made by the call of [fetch] that returned the
    promise [p]. *)
Definition calls_for (p : id) (w : World) : list FetcherCall :=
  filter (λ x, call_promise x = p) (fetcherCalls w).

(** A call of [fetch] calls a fetcher once at most; and the fetcher call
    that is pending for an entry is the last call made for the entry, and
    is a call of the fetcher of the entry. *)
Definition calls_ok (w : World) : Prop :=
  (∀ x, x ∈ fetcherCalls w → (call_promise x < nextId w)%positive)
  ∧ NoDup (call_promise <$> fetcherCalls w)
  ∧ (∀ p c qc, inflight w !! p = Some c → cacheHeap w !! c = Some qc →
       ∃ pre vars,
         calls_of c w = pre ++ [mkFetcherCall p c (fetcher qc) vars]).

(** The promises that wait on the store of an entry are promises of [fetch]
    calls that called no fetcher; a promise waits on one entry. *)
Definition waiters_ok (w : World) : Prop :=
  (∀ c qc p, cacheHeap w !! c = Some qc → LWaiter p ∈ listeners (store qc) →
             inflight w !! p = None ∧ is_Some (promises w !! p))
  ∧ (∀ c1 c2 qc1 qc2 p,
        cacheHeap w !! c1 = Some qc1 → cacheHeap w !! c2 = Some qc2 →
        LWaiter p ∈ listeners (store qc1) → LWaiter p ∈ listeners (store qc2) →
        c1 = c2).

(** An entry in status ['success'] has data. *)
Definition success_ok (w : World) : Prop :=
  ∀ c qc, cacheHeap w !! c = Some qc → status (state qc) = StSuccess →
          is_Some (data (state qc)).

(** An observer listens to the store of the entry it is bound to only. *)
Definition listeners_ok (w : World) : Prop :=
  ∀ c qc o, cacheHeap w !! c = Some qc → LObserver o ∈ listeners (store qc) →
            ∃ ob, observers w !! o = Some ob ∧ cache ob = c.

(** The entry [c] is in the table of its query, under its key. *)
Definition in_table (w : World) (c : id) (qc : QueryCache) : Prop :=
  ∃ Q, queries w !! onClear qc = Some Q ∧ caches Q !! variablesHash qc = Some c.

(** The tables hold entries of their query under their key; and an
    eviction timer that is armed is the one its entry remembers. *)
Definition tables_ok (w : World) : Prop :=
  (∀ q Q k c, queries w !! q = Some Q → caches Q !! k = Some c →
              ∃ qc, cacheHeap w !! c = Some qc
                    ∧ onClear qc = q ∧ variablesHash qc = k)
  ∧ (∀ t c d, timers w !! t = Some (TOnClear c d) →
              ∃ qc, cacheHeap w !! c = Some qc ∧ clearTimeoutId qc = Some t).

Record wf (w : World) : Prop := mkWf {
  wf_fresh : fresh_ids w;
  wf_inflight : inflight_ok w;
  wf_waiters : waiters_ok w;
  wf_success : success_ok w;
  wf_listeners : listeners_ok w;
  wf_tables : tables_ok w;
  wf_calls : calls_ok w;
}.

(** Only the promises and the observers differ. *)
Definition same_frame (w w' : World) : Prop :=
  now w' = now w ∧ nextId w' = nextId w ∧ client w' = client w
  ∧ queries w' = queries w ∧ cacheHeap w' = cacheHeap w
  ∧ inflight w' = inflight w ∧ timers w' = timers w
  ∧ throwing w' = throwing w ∧ fetcherCalls w' = fetcherCalls w.

Definition skeleton (ob : QueryObserver)
  : id * id * option id * ObserverProps * list Subscriber :=
  (query ob, cache ob, refetchTimeoutId ob, props ob, subscribers ob).

Definition waiter_outcome (st : QueryCacheState) : option Promise :=
  match status st with
  | StSuccess => Some (Resolved (data st))
  | StError => Some (Rejected (error st))
  | _ => None
  end.

Definition settled_by (out : option Promise) (pr : option Promise) : option Promise :=
  match pr, out with
  | Some Pending, Some o => Some o
  | _, _ => pr
  end.

(** An entry is replaced by one with the same status, key and timers. *)
Definition same_but_listeners (qc qc' : QueryCache) : Prop :=
  variablesHash qc' = variablesHash qc ∧ clearTime qc' = clearTime qc
  ∧ usedCount qc' = usedCount qc ∧ onClear qc' = onClear qc
  ∧ clearTimeoutId qc' = clearTimeoutId qc ∧ fetcher qc' = fetcher qc
  ∧ state qc' = state qc.

(** The entry after [store.setState]. *)
Definition with_state (st : QueryCacheState) (qc : QueryCache) : QueryCache :=
  with_store (λ s, mkStore st (listeners s)) qc.

(** What [store.setState] changes, when it ends with [k]: the listeners
    [called] are those before the one that throws, if one does. *)
Record setState_spec (c : id) (qc : QueryCache) (st : QueryCacheState)
  (w w' : World) (k : Completion) : Prop := {
  sss_now : now w' = now w;
  sss_nextId : nextId w' = nextId w;
  sss_client : client w' = client w;
  sss_queries : queries w' = queries w;
  sss_inflight : inflight w' = inflight w;
  sss_timers : timers w' = timers w;
  sss_throwing : throwing w' = throwing w;
  sss_fetcherCalls : fetcherCalls w' = fetcherCalls w;
  sss_cacheHeap : cacheHeap w' = <[c := with_state st qc]> (cacheHeap w);
  sss_promises : ∃ called rest,
    listeners (store qc) = called ++ rest
    ∧ (k = Normal → rest = [])
    ∧ ∀ q,
        promises w' !! q
        = if decide (LWaiter q ∈ called)
          then settled_by (waiter_outcome st) (promises w !! q)
          else promises w !! q;
  sss_observers : ∀ x,
    skeleton <$> observers w' !! x = skeleton <$> observers w !! x;
}.

(** All of an entry but its store. *)
Definition meta (qc : QueryCache)
  : string * jsnum * Z * id * option id * fetcherRef :=
  (variablesHash qc, clearTime qc, usedCount qc, onClear qc, clearTimeoutId qc,
   fetcher qc).

(** What every call of [fetch] leaves as it is. *)
Record fetch_frame (w w' : World) : Prop := {
  ff_now : now w' = now w;
  ff_nextId : nextId w' = Pos.succ (nextId w);
  ff_client : client w' = client w;
  ff_queries : queries w' = queries w;
  ff_timers : timers w' = timers w;
  ff_meta : ∀ c, meta <$> cacheHeap w' !! c = meta <$> cacheHeap w !! c;
  ff_observers : ∀ o, skeleton <$> observers w' !! o = skeleton <$> observers w !! o;
}.

(** The observer [o] is bound to the entry [c]. *)
Definition bound (w : World) (o c : id) : Prop :=
  ∃ ob, observers w !! o = Some ob ∧ cache ob = c.

(** The entry [c] is there and in the table of its query. *)
Definition listed (w : World) (c : id) : Prop :=
  ∃ qc, cacheHeap w !! c = Some qc ∧ in_table w c qc.

(** The promise a fresh [fetch] is settled with. *)
Definition cached_outcome (s : QueryCacheState) : Promise :=
  match status s with
  | StSuccess => Resolved (data s)
  | _ => Rejected (error s)
  end.

(** The observer [o] is still there, bound to the same entry, with the
    same transformed data, and [props.select] was not called for it. *)
Definition memo_kept (o : id) (w w' : World) : Prop :=
  ∀ ob, observers w !! o = Some ob →
    ∃ ob', observers w' !! o = Some ob'
           ∧ selectLog ob' = selectLog ob
           ∧ o_data (ostate ob') = o_data (ostate ob)
           ∧ cache ob' = cache ob.

(** The stores that the observer [o] listens to hold data that are [===] to
    themselves: they are not [NaN]. *)
Definition quiet_for (o : id) (w : World) : Prop :=
  ∀ c qc, cacheHeap w !! c = Some qc → LObserver o ∈ listeners (store qc) →
          strict_equal (data (state qc)) (data (state qc)) = true.

(** The observer object that the constructor mounts. *)
Definition new_observer_object (cp : QueryObserverConstructorProps) (c : id)
  : QueryObserver :=
  {| query := ctor_query cp;
     cache := c;
     refetchTimeoutId := None;
     props :=
       {| select := default (select defaultProps) (ctor_select cp);
          refetchInterval :=
            default (refetchInterval defaultProps) (ctor_refetchInterval cp);
          cacheTime := default (cacheTime defaultProps) (ctor_cacheTime cp);
          refetchOnMount :=
            default (refetchOnMount defaultProps) (ctor_refetchOnMount cp) |};
     ostate := pendingState;
     subscribers := [];
     selectLog := [] |}.

(** The promise [p] waits for the fetch of entry [c] to settle. *)
Definition attached (w : World) (c p : id) : Prop :=
  promises w !! p = Some Pending
  ∧ ∃ qc, cacheHeap w !! c = Some qc ∧ LWaiter p ∈ listeners (store qc).

(** What the callers see when the fetcher call made for the promise [p]
    has settled with [r]. *)
Definition outcome (p : id) (r : FetcherResult) : Promise :=
  match r with
  | FResolved (Some d) => Resolved (Some d)
  | FResolved None => Rejected (Some (undefinedDataError p))
  | FRejected e => Rejected e
  end.


(** The broadcast on the store of the entry [c] that is made when the
    fetcher call made for the promise [p] settles with [r]: that of
    [setData], or that of [setError] in the [.catch] callback. *)
Definition settling_broadcast (c p : id) (r : FetcherResult) (w : World)
  : World * Completion :=
  match r with
  | FResolved (Some d) => QueryCache_setData c d w
  | FResolved None => QueryCache_setError c (Some (undefinedDataError p)) w
  | FRejected e => QueryCache_setError c e w
  end.

(** What the [.catch] callback of [fetch] throws, called with [e]: [e],
    unless a listener of the store throws in [setError]. *)
Definition rethrown (c : id) (e : option value) (w : World) : option value :=
  match (QueryCache_setError c e w).2 with
  | Normal => e
  | Abrupt e' => e'
  end.

(** The promises, the pending fetcher calls and the log are the same, and
    every entry is still there with the promises that wait on it. *)
Definition undisturbed (w w' : World) : Prop :=
  promises w' = promises w ∧ inflight w' = inflight w
  ∧ fetcherCalls w' = fetcherCalls w
  ∧ ∀ c qc, cacheHeap w !! c = Some qc →
      ∃ qc', cacheHeap w' !! c = Some qc'
             ∧ ∀ p, LWaiter p ∈ listeners (store qc) →
                    LWaiter p ∈ listeners (store qc').

(** The fetcher call [p0] of entry [c] is still pending, no fetcher was
    called for [c], and the promises attached to [c] still are. *)
Definition flight_kept (c p0 : id) (w w' : World) : Prop :=
  inflight w' !! p0 = Some c
  ∧ calls_of c w' = calls_of c w
  ∧ ∀ p, attached w c p → attached w' c p.

(** The event does not settle the fetcher call [p0]. *)
Definition not_settling (p0 : id) (e : Event) : Prop :=
  match e with
  | EvSettled p _ => p ≠ p0
  | _ => True
  end.

(** The promise that a call of [fetch] or [refetch] on entry [c] returns. *)
Definition fetch_call (c : id) (e : Event) (w : World) : option id :=
  match e with
  | EvFetch c' vars options =>
      if decide (c' = c) then Some (QueryCache_fetch c vars options w).1 else None
  | EvRefetch c' vars =>
      if decide (c' = c) then Some (QueryCache_refetch c vars w).1 else None
  | _ => None
  end.

(** The key of the entry [c]: its query, and its hash in the table of that
    query. *)
Definition key_of (w : World) (c : id) : option (id * string) :=
  (λ qc, (onClear qc, variablesHash qc)) <$> cacheHeap w !! c.

(** The entry [c'] has the key of the entry [c]. *)
Definition same_key (w : World) (c c' : id) : Prop :=
  is_Some (key_of w c) ∧ key_of w c' = key_of w c.

(** The entry [c] is in the table of its query, and no eviction timer is
    armed for an entry with its key. *)
Definition unarmed (w : World) (c : id) : Prop :=
  listed w c
  ∧ ∀ t c' d, timers w !! t = Some (TOnClear c' d) → ¬ same_key w c c'.

(** The tables are the same, every entry has the key it had, and no
    eviction timer was armed. *)
Definition keys_still (w w' : World) : Prop :=
  queries w' = queries w
  ∧ (∀ c, key_of w' c = key_of w c)
  ∧ ∀ t c d, timers w' !! t = Some (TOnClear c d) →
             timers w !! t = Some (TOnClear c d).

(** The event calls [unuse] on the entry [c]: it is a call of [unuse], or
    it destroys an observer that is bound to [c]. *)
Definition unuses (c : id) (w : World) (e : Event) : Prop :=
  match e with
  | EvUnuse c' => c' = c
  | EvDestroy o => ∃ ob, observers w !! o = Some ob ∧ cache ob = c
  | _ => False
  end.

Section EngineClaims.

Variable hashVariables : value → string.

(** Destroying an observer twice is said to change nothing the second
    time. *)
Definition destroy_idempotent : Prop :=
  ∀ (w : World) (o : id) (ob : QueryObserver),
    reachable hashVariables w → observers w !! o = Some ob →
    usedCount_of (cache ob) (QueryObserver_destroy o (QueryObserver_destroy o w))
    = usedCount_of (cache ob) (QueryObserver_destroy o w)
    ∧ timers (QueryObserver_destroy o (QueryObserver_destroy o w))
      = timers (QueryObserver_destroy o w).

(** No event of the run calls [unuse] on the entry [c]. *)
Fixpoint never_unused (c : id) (w : World) (evs : list Event) : Prop :=
  match evs with
  | [] => True
  | e :: evs => ¬ unuses c w e ∧ never_unused c (step hashVariables w e) evs
  end.

(** No event of the run calls [unuse] on an entry that has the key of the
    entry [c]: on [c], or on an entry that was in the table under that key
    before. *)
Fixpoint key_never_unused (c : id) (w : World) (evs : list Event) : Prop :=
  match evs with
  | [] => True
  | e :: evs =>
      (∀ c', same_key w c c' → ¬ unuses c' w e)
      ∧ key_never_unused c (step hashVariables w e) evs
  end.

(** An entry whose eviction timer [use] has cancelled is said never to
    leave the table of its query, as long as [unuse] is not called on it. *)
Definition use_prevents_eviction : Prop :=
  ∀ (w : World) (c t : id) (d : Z) (evs : list Event),
    reachable hashVariables w → listed w c →
    timers w !! t = Some (TOnClear c d) →
    never_unused c (QueryCache_use c w) evs →
    listed (run hashVariables (QueryCache_use c w) evs) c.


(** When a pending fetcher call settles, the promises that wait for it are
    said to be settled as the promise of its caller is. *)
Definition same_outcome_for_all : Prop :=
  ∀ (w : World) (c p0 p : id) (r : FetcherResult),
    reachable hashVariables w → inflight w !! p0 = Some c → attached w c p →
    promises (fetcher_settled p0 r w) !! p
    = promises (fetcher_settled p0 r w) !! p0.

End EngineClaims.

(** * Properties *)

(** ** The mutators of a cache entry *)

Lemma mutate_consistent (s : QueryCacheState) (m : Mutator) :
  setError_defined m → outcome_consistent s → outcome_consistent (mutate s m).
Proof.
  intros Hm (Hs & He & Hp).
  destruct m as [|t d|t [e|]]; simpl in *; try done;
    unfold outcome_consistent; simpl; repeat split; try done; eauto.
Qed.

Lemma foldl_mutate_consistent (ms : list Mutator) (s : QueryCacheState) :
  Forall setError_defined ms →
  outcome_consistent s → outcome_consistent (foldl mutate s ms).
Proof.
  revert s. induction ms as [|m ms IH]; intros s Hms Hs; simpl; [done|].
  inversion Hms; subst. apply IH; [done|]. by apply mutate_consistent.
Qed.

Lemma initialState_consistent (vars : value) :
  outcome_consistent (initialState vars).
Proof. unfold outcome_consistent; simpl. repeat split; done. Qed.

(** C2, as it is stated, fails: after a success, a fetch that fails leaves
    the entry in status ['error'] with the error and the data of the
    success both there. *)
Lemma C2_error_after_success_keeps_data :
  ¬ (∀ (vars : value) (ms : list Mutator), outcome_exclusive (mutated vars ms)).
Proof.
  intros H.
  destruct (H VNull [CallSetData 10 (VStr "alice"); CallStartFetching;
                     CallSetError 20 (Some (VError (Given 1) "boom"))])
    as (_ & _ & _ & _ & Hex).
  destruct Hex as [[_ Herr]|[Hdata _]]; [by right | done | done].
Qed.

(** C2, amended: every state reached through [startFetching], [setData] and
    [setError] with a defined error has: ['success'] implies data there, no
    error and [errorUpdatedAt = 0]; ['error'] implies an error there;
    ['pending'] implies neither, and no timestamp.  [setError] leaves [data]
    and [dataUpdatedAt] as they are, so in status ['error'] the data of an
    earlier success stays. *)
Theorem C2_mutators_keep_outcome_consistent (vars : value) (ms : list Mutator) :
  Forall setError_defined ms →
  outcome_consistent (mutated vars ms)
  ∧ ∀ t e,
      data (mutate (mutated vars ms) (CallSetError t e)) = data (mutated vars ms)
      ∧ dataUpdatedAt (mutate (mutated vars ms) (CallSetError t e))
        = dataUpdatedAt (mutated vars ms).
Proof.
  intros Hms. split; [|done].
  apply foldl_mutate_consistent; [done|]. apply initialState_consistent.
Qed.

Lemma C2_witness :
  outcome_consistent
    (mutated VNull [CallSetData 10 (VStr "alice"); CallStartFetching;
                    CallSetError 20 (Some (VError (Given 1) "boom"))]).
Proof.
  apply (C2_mutators_keep_outcome_consistent VNull
           [CallSetData 10 (VStr "alice"); CallStartFetching;
            CallSetError 20 (Some (VError (Given 1) "boom"))]).
  repeat constructor.
Defined.

(** ** The count of users of a cache entry *)

Lemma usedCount_of_use (c : id) (w : World) (qc : QueryCache) :
  cacheHeap w !! c = Some qc →
  ∃ qc', cacheHeap (QueryCache_use c w) !! c = Some qc'
         ∧ usedCount qc' = usedCount qc + 1.
Proof.
  intros Hc. unfold QueryCache_use. rewrite Hc. simpl.
  destruct (clearTimeoutId qc); simpl; rewrite lookup_insert_eq; eauto.
Qed.

Lemma usedCount_of_unuse (c : id) (w : World) (qc : QueryCache) :
  cacheHeap w !! c = Some qc →
  ∃ qc', cacheHeap (QueryCache_unuse c w) !! c = Some qc'
         ∧ usedCount qc' = usedCount qc - 1.
Proof.
  intros Hc. unfold QueryCache_unuse, unuse_obj. rewrite Hc.
  destruct (unuse_arms qc); simpl; rewrite lookup_insert_eq; eauto.
Qed.

Lemma unuse_below_zero_arms_nothing (c : id) (w : World) (qc : QueryCache) :
  cacheHeap w !! c = Some qc → usedCount qc ≤ 0 →
  timers (QueryCache_unuse c w) = timers w.
Proof.
  intros Hc Hn. unfold QueryCache_unuse, unuse_obj, unuse_arms. rewrite Hc.
  destruct (clearTime qc) as [n|]; [|done].
  rewrite (bool_decide_eq_false_2 (usedCount qc - 1 = 0)) by lia. done.
Qed.

Lemma balanced_calls_nonnegative (c : id) (rs : list RefCall) :
  ∀ (w : World) (qc : QueryCache),
    cacheHeap w !! c = Some qc → 0 ≤ usedCount qc →
    balanced (usedCount qc) rs = true →
    0 ≤ usedCount_of c (ref_calls c w rs).
Proof.
  induction rs as [|r rs IH]; intros w qc Hc Hn Hb; simpl.
  - unfold usedCount_of. by rewrite Hc.
  - destruct r; simpl in Hb.
    + destruct (usedCount_of_use c w qc Hc) as (qc' & Hc' & Hn').
      apply (IH _ qc' Hc'); [lia|]. by rewrite Hn'.
    + apply andb_true_iff in Hb as [Hpos Hb]. apply bool_decide_eq_true in Hpos.
      destruct (usedCount_of_unuse c w qc Hc) as (qc' & Hc' & Hn').
      apply (IH _ qc' Hc'); [lia|]. by rewrite Hn'.
Qed.

(** C6, as it is stated, fails: [unuse()] has no check, and the second
    [unuse()] of an entry used once stores [-1]. *)
Lemma C6_unuse_goes_below_zero : ¬ usedCount_never_negative.
Proof.
  intros H.
  specialize (H world_loading 3%positive [CallUnuse; CallUnuse]).
  vm_compute in H. by apply H.
Qed.

(** C6, amended: [unuse()] never fails and checks nothing: it always
    stores the count minus one, also below zero, and then it arms no timer;
    the count stays non-negative in every run of [use()] and [unuse()] in
    which each [unuse()] is matched by an earlier [use()]. *)
Theorem C6_unuse_decrements_unchecked (w : World) (c : id) (qc : QueryCache) :
  cacheHeap w !! c = Some qc →
  usedCount_of c (QueryCache_unuse c w) = usedCount qc - 1
  ∧ (usedCount qc ≤ 0 → timers (QueryCache_unuse c w) = timers w)
  ∧ ∀ rs, 0 ≤ usedCount qc → balanced (usedCount qc) rs = true →
          0 ≤ usedCount_of c (ref_calls c w rs).
Proof.
  intros Hc. split; [|split].
  - destruct (usedCount_of_unuse c w qc Hc) as (qc' & Hc' & Hn').
    unfold usedCount_of. by rewrite Hc'.
  - by apply unuse_below_zero_arms_nothing.
  - intros rs Hn Hb. by apply (balanced_calls_nonnegative c rs w qc).
Qed.

(** ** The invariant of the worlds that can be reached *)

Lemma wf_initial : wf initialWorld.
Proof.
  split.
  - intros x _. simpl. rewrite !lookup_empty. done.
  - split; simpl; intros *; rewrite ?lookup_empty; done.
  - split; simpl; intros *; rewrite ?lookup_empty; done.
  - intros c qc. simpl. rewrite lookup_empty. done.
  - intros c qc o. simpl. rewrite lookup_empty. done.
  - split; simpl; intros *; rewrite ?lookup_empty; done.
  - split; [|split]; simpl.
    + intros x Hx. by apply elem_of_nil in Hx.
    + constructor.
    + intros *. rewrite lookup_empty. done.
Qed.

(** ** What a broadcast changes *)

Lemma same_frame_refl w : same_frame w w.
Proof. by repeat split. Qed.

Lemma same_frame_trans w1 w2 w3 :
  same_frame w1 w2 → same_frame w2 w3 → same_frame w1 w3.
Proof.
  intros (?&?&?&?&?&?&?&?&?) (?&?&?&?&?&?&?&?&?).
  repeat split; congruence.
Qed.

Lemma settle_frame p out w : same_frame w (settle p out w).
Proof. unfold settle. destruct (promises w !! p) as [[]|]; by repeat split. Qed.

Lemma settle_observers p out w : observers (settle p out w) = observers w.
Proof. unfold settle. by destruct (promises w !! p) as [[]|]. Qed.

Lemma settle_promises p out w q :
  promises (settle p out w) !! q
  = if decide (p = q) then settled_by (Some out) (promises w !! q)
    else promises w !! q.
Proof.
  unfold settle. case_decide as Hpq.
  - subst q. destruct (promises w !! p) as [[]|] eqn:E; simpl; rewrite ?E; try done.
    by rewrite lookup_insert_eq.
  - destruct (promises w !! p) as [[]|] eqn:E; simpl; try done.
    by rewrite lookup_insert_ne.
Qed.

Lemma updateState_frame o st prev w :
  same_frame w (QueryObserver_updateState o st prev w).1.
Proof.
  unfold QueryObserver_updateState.
  destruct (observers w !! o); [|apply same_frame_refl].
  destruct prev as [ps|];
    [destruct (strict_equal _ _); [|destruct (data st); [destruct (select _ _)|]]|];
    by repeat split.
Qed.

Lemma updateState_promises o st prev w :
  promises (QueryObserver_updateState o st prev w).1 = promises w.
Proof.
  unfold QueryObserver_updateState.
  destruct (observers w !! o); [|done].
  by destruct prev as [ps|];
    [destruct (strict_equal _ _); [|destruct (data st); [destruct (select _ _)|]]|].
Qed.

Lemma updateState_skeleton o st prev w x :
  skeleton <$> observers (QueryObserver_updateState o st prev w).1 !! x
  = skeleton <$> observers w !! x.
Proof.
  unfold QueryObserver_updateState.
  destruct (observers w !! o) as [ob|] eqn:E; [|done].
  destruct prev as [ps|];
    [destruct (strict_equal _ _); [|destruct (data st); [destruct (select _ _)|]]|];
    simpl;
    (destruct (decide (o = x)) as [->|];
     [rewrite lookup_insert_eq, E; done | by rewrite lookup_insert_ne]).
Qed.

(** Without a previous state [updateState] calls no transform; and it
    returns when the store of the observer has no listener, as in [mount]. *)
Lemma updateState_first o st w :
  (∀ ob, observers w !! o = Some ob → subscribers ob = []) →
  (QueryObserver_updateState o st None w).2 = Normal.
Proof.
  intros H. unfold QueryObserver_updateState.
  destruct (observers w !! o) as [ob|] eqn:Ho; [|done].
  simpl. by rewrite (H ob).
Qed.

Lemma notify_frame st prev w l : same_frame w (notify st prev w l).1.
Proof.
  destruct l as [p|o]; simpl.
  - destruct (status st); try apply same_frame_refl; apply settle_frame.
  - apply updateState_frame.
Qed.

Lemma notify_skeleton st prev w l x :
  skeleton <$> observers (notify st prev w l).1 !! x
  = skeleton <$> observers w !! x.
Proof.
  destruct l as [p|o]; simpl.
  - destruct (status st); try done; simpl; by rewrite settle_observers.
  - apply updateState_skeleton.
Qed.

Lemma notify_promises st prev w l q :
  promises (notify st prev w l).1 !! q
  = if decide (l = LWaiter q) then settled_by (waiter_outcome st) (promises w !! q)
    else promises w !! q.
Proof.
  destruct l as [p|o]; simpl.
  - unfold waiter_outcome.
    destruct (status st); simpl; try rewrite settle_promises;
      repeat case_decide; simplify_eq; try done;
      by destruct (promises w !! q) as [[]|].
  - by rewrite updateState_promises.
Qed.

(** A promise that waits is settled by its listener, which returns. *)
Lemma notify_waiter st prev w p : (notify st prev w (LWaiter p)).2 = Normal.
Proof. simpl. by destruct (status st). Qed.

Lemma forEach_frame st prev ls w : same_frame w (forEach st prev ls w).1.
Proof.
  revert w. induction ls as [|l ls IH]; intros w; simpl.
  - apply same_frame_refl.
  - pose proof (notify_frame st prev w l) as H.
    destruct (notify st prev w l) as [w1 [|e]]; simpl in *; [|done].
    eapply same_frame_trans; [apply H | apply IH].
Qed.

Lemma forEach_skeleton st prev ls w x :
  skeleton <$> observers (forEach st prev ls w).1 !! x
  = skeleton <$> observers w !! x.
Proof.
  revert w. induction ls as [|l ls IH]; intros w; simpl; [done|].
  pose proof (notify_skeleton st prev w l x) as H.
  destruct (notify st prev w l) as [w1 [|e]]; simpl in *; [|done].
  by rewrite IH.
Qed.

Lemma settled_by_idem out pr : settled_by out (settled_by out pr) = settled_by out pr.
Proof. destruct pr as [[]|], out as [[]|]; done. Qed.

(** The listeners that [forEach] calls, but for the one that throws. *)
Lemma forEach_promises st prev ls w :
  ∃ called rest,
    ls = called ++ rest
    ∧ ((forEach st prev ls w).2 = Normal → rest = [])
    ∧ ∀ q,
        promises (forEach st prev ls w).1 !! q
        = if decide (LWaiter q ∈ called)
          then settled_by (waiter_outcome st) (promises w !! q)
          else promises w !! q.
Proof.
  revert w. induction ls as [|l ls IH]; intros w; cbn [forEach].
  - exists [], []. split; [done|]. split; [done|]. intros q.
    rewrite decide_False; [done|]. apply not_elem_of_nil.
  - pose proof (notify_promises st prev w l) as Hn.
    destruct (notify st prev w l) as [w1 [|e]] eqn:E; cbn [fst snd] in *.
    + destruct (IH w1) as (called & rest & -> & Hrest & Hp).
      exists (l :: called), rest. split; [done|]. split; [done|]. intros q.
      rewrite Hp, Hn.
      destruct (decide (LWaiter q ∈ l :: called)) as [Hin|Hin];
        destruct (decide (LWaiter q ∈ called)) as [Hin'|Hin'];
        destruct (decide (l = LWaiter q)) as [->|Hl];
        try done; try apply settled_by_idem.
      * apply elem_of_cons in Hin as [?|?]; congruence.
      * exfalso. apply Hin, list_elem_of_further, Hin'.
      * exfalso. apply Hin, list_elem_of_further, Hin'.
      * exfalso. apply Hin, list_elem_of_here.
    + exists [], (l :: ls). split; [done|]. split; [done|]. intros q.
      rewrite decide_False by apply not_elem_of_nil. rewrite Hn.
      rewrite decide_False; [done|]. intros ->.
      pose proof (notify_waiter st prev w q) as Hk. by rewrite E in Hk.
Qed.

(** ** The invariant under changes of the listeners *)

Lemma calls_ok_frame_pending (w w' : World) :
  (nextId w ≤ nextId w')%positive →
  fetcherCalls w' = fetcherCalls w → inflight w' = inflight w →
  (∀ p c qc', inflight w !! p = Some c → cacheHeap w' !! c = Some qc' →
              ∃ qc, cacheHeap w !! c = Some qc ∧ fetcher qc = fetcher qc') →
  calls_ok w → calls_ok w'.
Proof.
  intros Hn Hf Hi Hc (L1 & L2 & L3). unfold calls_ok, calls_of.
  rewrite Hf, Hi. split; [|split; [done|]].
  - intros x Hx. specialize (L1 x Hx). lia.
  - intros p c qc' Hp Hc'. destruct (Hc p c qc' Hp Hc') as (qc & Hqc & <-).
    by apply L3.
Qed.

Lemma calls_ok_frame (w w' : World) :
  (nextId w ≤ nextId w')%positive →
  fetcherCalls w' = fetcherCalls w → inflight w' = inflight w →
  (∀ c, fetcher <$> cacheHeap w' !! c = fetcher <$> cacheHeap w !! c) →
  calls_ok w → calls_ok w'.
Proof.
  intros Hn Hf Hi Hc. apply calls_ok_frame_pending; try done.
  intros p c qc' _ Hc'. specialize (Hc c). rewrite Hc' in Hc.
  destruct (cacheHeap w !! c) as [qc|] eqn:E; [|done].
  injection Hc as ->. eauto.
Qed.

Lemma wf_frame (w w' : World) :
  (nextId w ≤ nextId w')%positive →
  queries w' = queries w → cacheHeap w' = cacheHeap w →
  promises w' = promises w → inflight w' = inflight w →
  fetcherCalls w' = fetcherCalls w →
  (∀ t c d, timers w' !! t = Some (TOnClear c d) →
            timers w !! t = Some (TOnClear c d)) →
  (∀ x, (nextId w' ≤ x)%positive → timers w' !! x = None) →
  (∀ o ob, observers w !! o = Some ob →
           ∃ ob', observers w' !! o = Some ob' ∧ cache ob' = cache ob) →
  (∀ x, (nextId w' ≤ x)%positive → observers w' !! x = None) →
  wf w → wf w'.
Proof.
  intros Hn Hq Hc Hp Hi Hfc Ht Htf Ho Hof [Hf Hin Hw Hs Hl Htb Hcl].
  split.
  - intros x Hx. rewrite Hq, Hc, Hp.
    destruct (Hf x) as (?&?&Hox&?&?); [lia|]. repeat split; auto.
  - unfold inflight_ok. rewrite Hi, Hp, Hc. exact Hin.
  - unfold waiters_ok. rewrite Hi, Hp, Hc. exact Hw.
  - unfold success_ok. rewrite Hc. exact Hs.
  - intros c qc o H1 H2. rewrite Hc in H1.
    destruct (Hl c qc o H1 H2) as (ob & Hob & Hcache).
    destruct (Ho o ob Hob) as (ob' & Hob' & Hcache').
    exists ob'. split; [done|]. congruence.
  - destruct Htb as (H1 & H2).
    split; rewrite ?Hq, ?Hc; [done|].
    intros t c d Htc. apply (H2 t c d). by apply Ht.
  - apply (calls_ok_frame w w'); try done. intros c. by rewrite Hc.
Qed.

Lemma wf_frame_same (w w' : World) :
  (nextId w ≤ nextId w')%positive →
  queries w' = queries w → cacheHeap w' = cacheHeap w →
  promises w' = promises w → inflight w' = inflight w → timers w' = timers w →
  fetcherCalls w' = fetcherCalls w →
  (∀ o, cache <$> observers w' !! o = cache <$> observers w !! o) →
  wf w → wf w'.
Proof.
  intros Hn Hq Hc Hp Hi Ht Hfc Ho Hwf.
  apply (wf_frame w w'); try done.
  - intros t c d. by rewrite Ht.
  - intros x Hx. rewrite Ht. destruct Hwf as [Hf _ _ _ _ _ _].
    destruct (Hf x) as (?&?&?&?&?); [lia|done].
  - intros o ob Hob. specialize (Ho o). rewrite Hob in Ho.
    destruct (observers w' !! o) as [ob'|]; [|done].
    exists ob'. split; [done|]. simpl in Ho. congruence.
  - intros x Hx. destruct Hwf as [Hf _ _ _ _ _ _].
    destruct (Hf x) as (?&?&Hox&?&?); [lia|].
    specialize (Ho x). rewrite Hox in Ho. by destruct (observers w' !! x).
Qed.

Lemma wf_alloc w : wf w → wf (alloc w).2.
Proof. apply wf_frame_same; simpl; try done. lia. Qed.

Lemma wf_with_now t w : wf w → wf (with_now t w).
Proof. apply wf_frame_same; simpl; try done. Qed.

Lemma wf_with_throwing f w : wf w → wf (with_throwing f w).
Proof. apply wf_frame_same; simpl; try done. Qed.

Lemma skeleton_cache (a b : option QueryObserver) :
  skeleton <$> a = skeleton <$> b → cache <$> a = cache <$> b.
Proof.
  destruct a, b; simpl; try done. unfold skeleton. intros [= ? ? ? ? ?]. congruence.
Qed.

Lemma wf_updateState o st prev w :
  wf w → wf (QueryObserver_updateState o st prev w).1.
Proof.
  destruct (updateState_frame o st prev w) as (?&?&?&?&?&?&?&?&?).
  apply wf_frame_same; try done; try lia.
  - apply updateState_promises.
  - intros x. apply skeleton_cache, updateState_skeleton.
Qed.

(** The listeners of the store of an observer change. *)
Lemma subscribers_lookup f o w x :
  observers (with_observers (alter (with_subscribers f) o) w) !! x
  = (if decide (o = x) then with_subscribers f else λ ob, ob) <$> observers w !! x.
Proof.
  simpl. rewrite lookup_alter. case_decide as E; [by rewrite E|].
  by destruct (observers w !! x).
Qed.

Lemma wf_subscribers f o w :
  wf w → wf (with_observers (alter (with_subscribers f) o) w).
Proof.
  apply wf_frame_same; try done.
  intros x. rewrite subscribers_lookup.
  case_decide; by destruct (observers w !! x).
Qed.

(** A promise that is new. *)
Lemma wf_new_promise w :
  wf w → wf (with_promises (<[nextId w := Pending]>) (alloc w).2).
Proof.
  intros [Hf Hin Hw Hs Hl Htb Hcl]. split.
  - intros x Hx. simpl in *.
    destruct (Hf x) as (?&?&?&?&?); [lia|]. repeat split; try done.
    rewrite lookup_insert_ne; [done|lia].
  - destruct Hin as (H1 & H3). split; simpl; [|done].
    intros p c Hp. destruct (H1 p c Hp) as [Hpp Hc]. split; [|done].
    rewrite lookup_insert_ne; [done|]. intros <-.
    destruct (Hf (nextId w)) as (?&?&?&?&?); [lia|congruence].
  - destruct Hw as [H1 H2]. split; simpl; [|done].
    intros c qc p Hc Hp. destruct (H1 c qc p Hc Hp) as [? ?]. split; [done|].
    rewrite lookup_insert. case_decide; eauto.
  - done.
  - done.
  - done.
  - apply (calls_ok_frame w); simpl; try done. lia.
Qed.

Lemma wf_settle p out w : wf w → inflight w !! p = None → wf (settle p out w).
Proof.
  intros [Hf Hin Hw Hs Hl Htb Hcl] Hp.
  unfold settle. destruct (promises w !! p) as [[]|] eqn:E; try by split.
  split; try done.
  - intros x Hx. simpl. destruct (Hf x Hx) as (?&?&?&?&?). repeat split; try done.
    rewrite lookup_insert_ne; [done|]. congruence.
  - destruct Hin as (H1 & H3). split; simpl; [|done].
    intros p' c Hp'. destruct (H1 p' c Hp') as [Hpp Hc]. split; [|done].
    rewrite lookup_insert_ne; [done|]. congruence.
  - destruct Hw as [H1 H2]. split; simpl; [|done].
    intros c qc p' Hc Hp'. destruct (H1 c qc p' Hc Hp') as [? ?]. split; [done|].
    rewrite lookup_insert. case_decide; eauto.
Qed.

Lemma alter_lookup_Some {A} (f : A → A) (m : gmap positive A) i x :
  m !! i = Some x → alter f i m = <[i := f x]> m.
Proof.
  intros H. apply map_eq. intros j. rewrite lookup_alter, lookup_insert.
  case_decide; subst; by rewrite ?H.
Qed.

Lemma alter_lookup_None {A} (f : A → A) (m : gmap positive A) i :
  m !! i = None → alter f i m = m.
Proof.
  intros H. apply map_eq. intros j. rewrite lookup_alter.
  case_decide; subst; by rewrite ?H.
Qed.

Lemma wf_listeners_update w c qc qc' :
  wf w → cacheHeap w !! c = Some qc → same_but_listeners qc qc' →
  (∀ p, LWaiter p ∈ listeners (store qc') →
        LWaiter p ∈ listeners (store qc)
        ∨ (inflight w !! p = None ∧ is_Some (promises w !! p)
           ∧ ∀ c2 qc2, cacheHeap w !! c2 = Some qc2 →
                       LWaiter p ∉ listeners (store qc2))) →
  (∀ o, LObserver o ∈ listeners (store qc') →
        LObserver o ∈ listeners (store qc)
        ∨ ∃ ob, observers w !! o = Some ob ∧ cache ob = c) →
  wf (with_cacheHeap (<[c := qc']>) w).
Proof.
  intros [Hf Hin Hw Hs Hl Htb Hcl] Hc (Eh & Ect & Eu & Eo & Eid & Ef & Est) HW HO.
  split.
  - intros x Hx. simpl. destruct (Hf x Hx) as (?&?&?&?&?). repeat split; try done.
    rewrite lookup_insert_ne; [done|]. congruence.
  - destruct Hin as (H1 & H3). split; simpl; [|done].
    intros p c0 Hp. destruct (H1 p c0 Hp) as [Hpp (qc0 & Hc0 & Hst)].
    split; [done|]. rewrite lookup_insert. case_decide; subst; eauto.
    exists qc'. split; [done|]. rewrite Est. congruence.
  - destruct Hw as [H1 H2]. split; simpl.
    + intros c0 qc0 p. rewrite lookup_insert. case_decide; subst.
      * intros [= <-] Hp. destruct (HW p Hp) as [Hold|(?&?&?)]; [|done].
        by apply (H1 _ qc p Hc).
      * apply H1.
    + intros c1 c2 qc1 qc2 p. rewrite !lookup_insert.
      repeat case_decide; subst; try done.
      * intros [= <-] Hc2 Hp1 Hp2.
        destruct (HW p Hp1) as [Hold|(_&_&Hno)].
        -- by apply (H2 _ _ qc qc2 p Hc Hc2).
        -- by destruct (Hno _ _ Hc2).
      * intros Hc1 [= <-] Hp1 Hp2.
        destruct (HW p Hp2) as [Hold|(_&_&Hno)].
        -- by apply (H2 _ _ qc1 qc p Hc1 Hc).
        -- by destruct (Hno _ _ Hc1).
      * apply H2.
  - intros c0 qc0. simpl. rewrite lookup_insert. case_decide; subst.
    + intros [= <-]. rewrite Est. apply (Hs _ _ Hc).
    + apply (Hs c0).
  - intros c0 qc0 o. simpl. rewrite lookup_insert. case_decide; subst.
    + intros [= <-] Ho. destruct (HO o Ho) as [Hold|?]; [|done].
      by apply (Hl _ qc o Hc).
    + apply (Hl c0).
  - destruct Htb as (H1 & H2). split; simpl.
    + intros q Q k c0 HQ Hk. destruct (H1 q Q k c0 HQ Hk) as (qc0 & Hc0 & ? & ?).
      rewrite lookup_insert. case_decide; subst; eauto.
      exists qc'. simplify_eq. split; [done|]. by rewrite Eo, Eh.
    + intros t c0 d Ht. destruct (H2 t c0 d Ht) as (qc0 & Hc0 & ?).
      rewrite lookup_insert. case_decide; subst; eauto.
      exists qc'. simplify_eq. split; [done|]. congruence.
  - apply (calls_ok_frame w); simpl; try done.
    intros c0. rewrite lookup_insert. case_decide; subst; [|done].
    rewrite Hc. simpl. by rewrite Ef.
Qed.

(** ** The invariant under a broadcast *)

Lemma store_setState_spec c merge w qc :
  cacheHeap w !! c = Some qc →
  setState_spec c qc (merge (state qc)) w
    (store_setState c merge w).1 (store_setState c merge w).2.
Proof.
  intros Hc. unfold store_setState. rewrite Hc.
  set (w1 := with_cacheHeap _ w).
  destruct (forEach_frame (merge (state qc)) (state qc)
              (listeners (store qc)) w1) as (?&?&?&?&?&?&?&?&?).
  split; try done.
  - apply (forEach_promises (merge (state qc)) (state qc) (listeners (store qc)) w1).
  - intros x. by rewrite forEach_skeleton.
Qed.

Lemma store_setState_absent c merge w :
  cacheHeap w !! c = None → store_setState c merge w = (w, Normal).
Proof. intros Hc. unfold store_setState. by rewrite Hc. Qed.

(** A promise is left as it is, or it waits on the store and is settled. *)
Lemma setState_promises_cases c qc st w w' k q :
  setState_spec c qc st w w' k →
  promises w' !! q = promises w !! q
  ∨ (LWaiter q ∈ listeners (store qc)
     ∧ promises w' !! q = settled_by (waiter_outcome st) (promises w !! q)).
Proof.
  intros [_ _ _ _ _ _ _ _ _ (called & rest & El & _ & Ep) _].
  rewrite Ep. case_decide; [right|by left].
  split; [|done]. rewrite El. apply elem_of_app. by left.
Qed.

(** When no listener throws, every promise that waits is settled. *)
Lemma setState_promises_normal c qc st w w' q :
  setState_spec c qc st w w' Normal →
  promises w' !! q
  = if decide (LWaiter q ∈ listeners (store qc))
    then settled_by (waiter_outcome st) (promises w !! q)
    else promises w !! q.
Proof.
  intros [_ _ _ _ _ _ _ _ _ (called & rest & El & Hrest & Ep) _].
  rewrite Hrest in El by done. rewrite app_nil_r in El. by rewrite El, Ep.
Qed.

Lemma settled_by_is_Some out pr : is_Some pr → is_Some (settled_by out pr).
Proof. intros [x ->]. destruct x, out; simpl; eauto. Qed.

Lemma settled_by_None out : settled_by out None = None.
Proof. by destruct out. Qed.

(** A broadcast keeps the invariant, when the new state is ['loading']
    while a fetcher call is pending for the entry, and has data in status
    ['success']. *)
Lemma wf_setState w c qc merge :
  wf w → cacheHeap w !! c = Some qc →
  (∀ p, inflight w !! p = Some c → status (merge (state qc)) = StLoading) →
  (status (merge (state qc)) = StSuccess → is_Some (data (merge (state qc)))) →
  wf (store_setState c merge w).1.
Proof.
  intros [Hf Hin Hw Hs Hl Htb Hcl] Hc Hload Hsd.
  pose proof (store_setState_spec c merge w qc Hc) as Hspec.
  generalize dependent (store_setState c merge w). intros [w' k] Hspec.
  cbn [fst snd] in *.
  pose proof (λ q, setState_promises_cases c qc _ w w' k q Hspec) as Hcases.
  destruct Hspec as [En Eid Ecl Eq Ei Et Eth Efc Eh _ Eo].
  set (st := merge (state qc)) in *.
  destruct Hin as (I1 & I3). destruct Hw as [W1 W2].
  split.
  - intros x Hx. rewrite Eid in Hx. rewrite Eq, Eh, Et.
    destruct (Hf x Hx) as (?&?&Hox&Hpx&?). repeat split; try done.
    + rewrite lookup_insert_ne; [done|congruence].
    + specialize (Eo x). rewrite Hox in Eo. by destruct (observers w' !! x).
    + destruct (Hcases x) as [->|[_ ->]]; [done|].
      rewrite Hpx. apply settled_by_None.
  - split; rewrite ?Ei, ?Eh; [|done].
    intros p0 c0 Hp0.
    destruct (I1 p0 c0 Hp0) as [Hpp0 (qc0 & Hc0 & Hst0)].
    split.
    + destruct (Hcases p0) as [->|[Hwp _]]; [done|].
      destruct (W1 c qc p0 Hc Hwp). congruence.
    + rewrite lookup_insert. destruct (decide (c = c0)) as [<-|Hne]; eauto.
  - split; rewrite ?Ei, ?Eh.
    + assert (∀ c0 qc0 p0, cacheHeap w !! c0 = Some qc0 →
                LWaiter p0 ∈ listeners (store qc0) →
                inflight w !! p0 = None ∧ is_Some (promises w' !! p0))
        as Hgen.
      { intros c0 qc0 p0 Hc0 Hp0. destruct (W1 c0 qc0 p0 Hc0 Hp0) as [Hi0 Hs0].
        split; [done|].
        destruct (Hcases p0) as [->|[_ ->]]; [done|by apply settled_by_is_Some]. }
      intros c0 qc0 p0. rewrite lookup_insert.
      destruct (decide (c = c0)) as [<-|Hne].
      * intros [= <-]. simpl. by apply (Hgen c qc).
      * apply Hgen.
    + intros c1 c2 qc1 qc2 p0. rewrite !lookup_insert.
      destruct (decide (c = c1)) as [<-|Hne1];
        destruct (decide (c = c2)) as [<-|Hne2]; try done.
      * intros [= <-] Hc2. simpl. by apply (W2 _ _ qc qc2 p0).
      * intros Hc1 [= <-]. simpl. by apply (W2 _ _ qc1 qc p0).
      * apply W2.
  - intros c0 qc0. rewrite Eh, lookup_insert.
    destruct (decide (c = c0)) as [<-|Hne].
    + intros [= <-]. simpl. apply Hsd.
    + apply (Hs c0).
  - intros c0 qc0 o. rewrite Eh, lookup_insert. intros Hc0 Ho.
    assert (∃ ob, observers w !! o = Some ob ∧ cache ob = c0) as (ob & Hob & Hcache).
    { destruct (decide (c = c0)) as [<-|Hne];
        [injection Hc0 as <-; by apply (Hl c qc)|by apply (Hl c0 qc0)]. }
    specialize (Eo o). rewrite Hob in Eo.
    destruct (observers w' !! o) as [ob'|]; [|done].
    exists ob'. split; [done|]. injection Eo. unfold skeleton. congruence.
  - destruct Htb as (H1 & H2). split; rewrite ?Eq, ?Eh, ?Et.
    + intros q Q k0 c0 HQ Hk. destruct (H1 q Q k0 c0 HQ Hk) as (qc0 & Hc0 & ? & ?).
      rewrite lookup_insert. destruct (decide (c = c0)) as [<-|Hne]; eauto.
      exists (with_state st qc). simplify_eq. done.
    + intros t c0 d Ht. destruct (H2 t c0 d Ht) as (qc0 & Hc0 & ?).
      rewrite lookup_insert. destruct (decide (c = c0)) as [<-|Hne]; eauto.
      exists (with_state st qc). simplify_eq. done.
  - apply (calls_ok_frame w); try done; [lia|].
    intros c0. rewrite Eh, lookup_insert. case_decide; subst; [|done].
    by rewrite Hc.
Qed.

(** ** The invariant when a fetch starts and when it settles *)

(** The fetcher is called for the promise [p], which is new. *)
Lemma wf_logged w c p f vars :
  wf w → (∀ p', inflight w !! p' ≠ Some c) →
  (p < nextId w)%positive → (∀ x, x ∈ fetcherCalls w → call_promise x ≠ p) →
  wf (with_fetcherCalls (λ l, l ++ [mkFetcherCall p c f vars]) w).
Proof.
  intros [Hf Hin Hw Hs Hl Htb (L1 & L2 & L3)] Hno Hp Hnew.
  split; try done. split; [|split]; simpl.
  - intros x. rewrite elem_of_app, list_elem_of_singleton.
    intros [Hx| ->]; [by apply L1|done].
  - rewrite fmap_app. apply NoDup_app. split; [done|]. split.
    + intros y Hy. simpl. rewrite list_elem_of_singleton. intros ->.
      apply list_elem_of_fmap in Hy as (x & Ex & Hx). by apply (Hnew x).
    + simpl. apply NoDup_singleton.
  - intros p' c' qc' Hp' Hc'. unfold calls_of. simpl.
    rewrite filter_app, filter_cons_False, filter_nil, app_nil_r.
    + by apply L3.
    + simpl. intros <-. by apply (Hno p').
Qed.

(** The call of the fetcher for the promise [p] has returned a promise. *)
Lemma wf_pending w c qc p :
  wf w → cacheHeap w !! c = Some qc → status (state qc) = StLoading →
  promises w !! p = Some Pending →
  (∀ p', inflight w !! p' ≠ Some c) →
  (∀ c2 qc2, cacheHeap w !! c2 = Some qc2 → LWaiter p ∉ listeners (store qc2)) →
  (∃ pre vars, calls_of c w = pre ++ [mkFetcherCall p c (fetcher qc) vars]) →
  wf (with_inflight (<[p := c]>) w).
Proof.
  intros [Hf (I1 & I3) (W1 & W2) Hs Hl Htb (L1 & L2 & L3)] Hc Hst Hp Hno Hnw Hlast.
  split; try done.
  - split; simpl.
    + intros p0 c0. rewrite lookup_insert.
      destruct (decide (p = p0)) as [<-|Hne]; [|apply I1].
      intros [= <-]. eauto.
    + intros p1 p2 c0. rewrite !lookup_insert.
      destruct (decide (p = p1)) as [<-|Hne1];
        destruct (decide (p = p2)) as [<-|Hne2]; try done.
      * intros [= <-] Hp2. by destruct (Hno p2).
      * intros Hp1 [= <-]. by destruct (Hno p1).
      * apply I3.
  - split; simpl; [|done].
    intros c0 qc0 p0 Hc0 Hp0. destruct (W1 c0 qc0 p0 Hc0 Hp0) as [? ?].
    split; [|done]. rewrite lookup_insert_ne; [done|].
    intros <-. by apply (Hnw c0 qc0).
  - split; [|split]; simpl; [done|done|].
    intros p0 c0 qc0. rewrite lookup_insert.
    destruct (decide (p = p0)) as [<-|Hne]; [|apply L3].
    intros [= <-] Hc0. by simplify_eq.
Qed.

(** The fetcher call made for [p] has settled. *)
Lemma wf_landed w p : wf w → wf (with_inflight (delete p) w).
Proof.
  intros [Hf (I1 & I3) (W1 & W2) Hs Hl Htb (L1 & L2 & L3)].
  split; try done.
  - split; simpl.
    + intros p0 c0. rewrite lookup_delete.
      destruct (decide (p = p0)); [done|]. apply I1.
    + intros p1 p2 c0. rewrite !lookup_delete.
      destruct (decide (p = p1)); [done|].
      destruct (decide (p = p2)); [done|]. apply I3.
  - split; simpl; [|done].
    intros c0 qc0 p0 Hc0 Hp0. destruct (W1 c0 qc0 p0 Hc0 Hp0) as [? ?].
    split; [|done]. rewrite lookup_delete. by case_decide.
  - split; [|split]; simpl; [done|done|].
    intros p0 c0 qc0. rewrite lookup_delete.
    destruct (decide (p = p0)); [done|]. apply L3.
Qed.

Lemma store_setState_inflight c merge w :
  inflight (store_setState c merge w).1 = inflight w.
Proof.
  destruct (cacheHeap w !! c) as [qc|] eqn:Hc.
  - by destruct (store_setState_spec c merge w qc Hc).
  - by rewrite store_setState_absent.
Qed.

(** A broadcast of a state that is not ['loading'], when no fetcher call is
    pending for the entry. *)
Lemma wf_setState_idle w c merge :
  wf w → (∀ p, inflight w !! p ≠ Some c) →
  (∀ s, status (merge s) = StSuccess → is_Some (data (merge s))) →
  wf (store_setState c merge w).1.
Proof.
  intros Hwf Hno Hsd. destruct (cacheHeap w !! c) as [qc|] eqn:Hc.
  - apply (wf_setState w c qc); try done.
    + intros p Hp. by destruct (Hno p).
    + apply Hsd.
  - by rewrite store_setState_absent.
Qed.

Lemma wf_fetch_catch c p e w :
  wf w → (∀ p', inflight w !! p' ≠ Some c) → inflight w !! p = None →
  wf (fetch_catch c p e w).
Proof.
  intros Hwf Hno Hp. unfold fetch_catch, QueryCache_setError.
  pose proof (wf_setState_idle w c (setError_merge (now w) e) Hwf Hno) as H.
  pose proof (store_setState_inflight c (setError_merge (now w) e) w) as Hi.
  destruct (store_setState c (setError_merge (now w) e) w) as [w' [|e']];
    cbn [fst snd] in *; (apply wf_settle; [apply H; by simpl|by rewrite Hi]).
Qed.

Lemma wf_fetcher_settled p r w : wf w → wf (fetcher_settled p r w).
Proof.
  intros Hwf. unfold fetcher_settled.
  destruct (inflight w !! p) as [c|] eqn:Hp; [|done].
  pose proof (wf_landed w p Hwf) as Hwf0.
  assert (∀ p', inflight (with_inflight (delete p) w) !! p' ≠ Some c) as Hno.
  { intros p'. simpl. rewrite lookup_delete. case_decide; [done|].
    intros Hp'. destruct Hwf as [_ (_ & I3) _ _ _ _ _].
    by specialize (I3 p p' c Hp Hp'). }
  assert (inflight (with_inflight (delete p) w) !! p = None) as Hnone
    by (simpl; apply lookup_delete_eq).
  generalize dependent (with_inflight (delete p) w). intros w0 Hwf0 Hno Hnone.
  destruct r as [[d|]|e]; try by apply wf_fetch_catch.
  unfold QueryCache_setData.
  pose proof (wf_setState_idle w0 c (setData_merge (now w0) d) Hwf0 Hno) as H.
  pose proof (store_setState_inflight c (setData_merge (now w0) d) w0) as Hi.
  destruct (store_setState c (setData_merge (now w0) d) w0) as [w' [|e']];
    cbn [fst snd] in *.
  - apply wf_settle; [apply H; simpl; eauto|by rewrite Hi].
  - apply wf_fetch_catch; [apply H; simpl; eauto|by rewrite Hi..].
Qed.

(** ** The invariant under [fetch] *)

Lemma fresh_not_inflight w x :
  wf w → (nextId w ≤ x)%positive → inflight w !! x = None.
Proof.
  intros [Hf (I1 & _) _ _ _ _ _] Hx.
  destruct (inflight w !! x) as [c|] eqn:E; [|done].
  destruct (I1 x c E) as [Hp _]. destruct (Hf x Hx) as (?&?&?&?&?). congruence.
Qed.

Lemma fresh_not_waiter w x c qc :
  wf w → (nextId w ≤ x)%positive → cacheHeap w !! c = Some qc →
  LWaiter x ∉ listeners (store qc).
Proof.
  intros [Hf _ (W1 & _) _ _ _ _] Hx Hc Hin.
  destruct (W1 c qc x Hc Hin) as [_ [pr Hpr]].
  destruct (Hf x Hx) as (?&?&?&?&?). congruence.
Qed.

Lemma with_cacheHeap_alter_Some f c w qc :
  cacheHeap w !! c = Some qc →
  with_cacheHeap (alter f c) w = with_cacheHeap (<[c := f qc]>) w.
Proof. intros H. unfold with_cacheHeap. by rewrite (alter_lookup_Some _ _ _ _ H). Qed.

Lemma with_cacheHeap_alter_None f c w :
  cacheHeap w !! c = None → with_cacheHeap (alter f c) w = w.
Proof.
  intros H. unfold with_cacheHeap. rewrite (alter_lookup_None _ _ _ H).
  by destruct w.
Qed.

Lemma wf_subscribe_waiter w c p :
  wf w → inflight w !! p = None → is_Some (promises w !! p) →
  (∀ c2 qc2, cacheHeap w !! c2 = Some qc2 → LWaiter p ∉ listeners (store qc2)) →
  wf (store_subscribe c (LWaiter p) w).
Proof.
  intros Hwf Hi Hp Hno. unfold store_subscribe.
  destruct (cacheHeap w !! c) as [qc|] eqn:Hc.
  - rewrite (with_cacheHeap_alter_Some _ _ _ _ Hc).
    apply (wf_listeners_update w c qc); try done.
    + intros q. simpl. rewrite elem_of_app, list_elem_of_singleton.
      intros [?|[= ->]]; [by left|right]. done.
    + intros o. simpl. rewrite elem_of_app, list_elem_of_singleton.
      intros [?|[=]]. by left.
  - by rewrite (with_cacheHeap_alter_None _ _ _ Hc).
Qed.

Lemma wf_subscribe_observer w c o ob :
  wf w → observers w !! o = Some ob → cache ob = c →
  wf (store_subscribe c (LObserver o) w).
Proof.
  intros Hwf Ho Hcache. unfold store_subscribe.
  destruct (cacheHeap w !! c) as [qc|] eqn:Hc.
  - rewrite (with_cacheHeap_alter_Some _ _ _ _ Hc).
    apply (wf_listeners_update w c qc); try done.
    + intros q. simpl. rewrite elem_of_app, list_elem_of_singleton.
      intros [?|[=]]. by left.
    + intros o'. simpl. rewrite elem_of_app, list_elem_of_singleton.
      intros [?|[= ->]]; [by left|right]. eauto.
  - by rewrite (with_cacheHeap_alter_None _ _ _ Hc).
Qed.

Lemma wf_unsubscribe w c l : wf w → wf (store_unsubscribe c l w).
Proof.
  intros Hwf. unfold store_unsubscribe.
  destruct (cacheHeap w !! c) as [qc|] eqn:Hc.
  - rewrite (with_cacheHeap_alter_Some _ _ _ _ Hc).
    apply (wf_listeners_update w c qc); try done.
    + intros q. simpl. rewrite list_elem_of_filter. intros [_ ?]. by left.
    + intros o. simpl. rewrite list_elem_of_filter. intros [_ ?]. by left.
  - by rewrite (with_cacheHeap_alter_None _ _ _ Hc).
Qed.

(** A state that is ['loading'] settles no promise. *)
Lemma setState_loading_promises c qc st w w' k :
  setState_spec c qc st w w' k → status st = StLoading →
  promises w' = promises w.
Proof.
  intros Hspec Hst. apply map_eq. intros q.
  destruct (setState_promises_cases c qc st w w' k q Hspec) as [->|[_ ->]];
    [done|].
  unfold waiter_outcome. rewrite Hst. by destruct (promises w !! q) as [[]|].
Qed.

Lemma wf_fetch c vars options w : wf w → wf (QueryCache_fetch c vars options w).2.
Proof.
  intros Hwf. unfold QueryCache_fetch.
  pose proof (wf_new_promise w Hwf) as Hwf1.
  assert (inflight w !! nextId w = None) as Hi
    by (apply fresh_not_inflight; [done|lia]).
  assert (∀ x, x ∈ fetcherCalls w → call_promise x ≠ nextId w) as Hlog.
  { intros x Hx. destruct Hwf as [_ _ _ _ _ _ (L1 & _)].
    specialize (L1 x Hx). lia. }
  assert (∀ p' qc, cacheHeap w !! c = Some qc → status (state qc) ≠ StLoading →
                   inflight w !! p' ≠ Some c) as Hidle.
  { intros p' qc Hc Hl Hp'. destruct Hwf as [_ (I1 & _) _ _ _ _ _].
    destruct (I1 p' c Hp') as [_ (qc' & Hc' & Hst')]. congruence. }
  simpl. set (w1 := with_promises _ _) in *.
  assert (promises w1 !! nextId w = Some Pending) as Hp
    by (subst w1; simpl; apply lookup_insert_eq).
  assert (∀ c2 qc2, cacheHeap w1 !! c2 = Some qc2 →
                    LWaiter (nextId w) ∉ listeners (store qc2)) as Hno.
  { intros c2 qc2 Hc2. apply (fresh_not_waiter w _ c2); [done|lia|done]. }
  destruct (cacheHeap w !! c) as [qc|] eqn:Hc; [|done].
  destruct (decide (status (state qc) = StLoading)) as [Hl|Hl]; simpl.
  - apply wf_subscribe_waiter; try done.
  - destruct (_ && _); simpl; [by apply wf_settle|].
    destruct (_ && _); simpl; [by apply wf_settle|].
    unfold QueryCache_startFetching.
    assert (cacheHeap w1 !! c = Some qc) as Hc1 by done.
    assert (inflight w1 = inflight w) as Ei1 by done.
    assert (fetcherCalls w1 = fetcherCalls w) as Ef1 by done.
    assert (nextId w1 = Pos.succ (nextId w)) as En1 by done.
    pose proof (wf_setState w1 c qc startFetching_merge Hwf1 Hc1) as Hwf2.
    pose proof (store_setState_spec c startFetching_merge w1 qc Hc1) as Hspec.
    clearbody w1.
    destruct (store_setState c startFetching_merge w1) as [w2 k].
    cbn [fst snd] in *.
    specialize (Hwf2 (λ _ _, eq_refl)). simpl in Hwf2.
    assert (wf w2) as Hwf2' by (by apply Hwf2). clear Hwf2.
    pose proof (setState_loading_promises c qc _ w1 w2 k Hspec eq_refl) as Ep.
    destruct Hspec as [_ Eid _ _ Ei _ _ Efc Eh _ _].
    assert (inflight w2 !! nextId w = None) as Hi2 by (by rewrite Ei, Ei1).
    destruct k as [|e]; [|by apply wf_settle].
    set (call := mkFetcherCall (nextId w) c (fetcher qc) vars).
    assert (wf (with_fetcherCalls (λ l, l ++ [call]) w2)) as Hwf3.
    { apply wf_logged; try done.
      - intros p'. rewrite Ei, Ei1. by apply (Hidle p' qc).
      - rewrite Eid, En1. lia.
      - rewrite Efc, Ef1. done. }
    simpl. destruct (throwing w2 !! fetcher qc) as [e|]; [by apply wf_settle|].
    apply (wf_pending _ c (with_state (startFetching_merge (state qc)) qc));
      simpl; try done.
    + rewrite Eh. apply lookup_insert_eq.
    + by rewrite Ep.
    + intros p'. rewrite Ei, Ei1. by apply (Hidle p' qc).
    + intros c2 qc2. rewrite Eh, lookup_insert.
      destruct (decide (c = c2)) as [<-|Hne].
      * intros [= <-]. simpl. by apply (Hno c qc).
      * apply Hno.
    + exists (calls_of c w2), vars. unfold calls_of. simpl.
      rewrite filter_app, filter_cons_True, filter_nil; done.
Qed.

Lemma wf_refetch c vars w : wf w → wf (QueryCache_refetch c vars w).2.
Proof. apply wf_fetch. Qed.

(** ** The invariant under [use], [unuse] and the timers *)

(** An entry is replaced by one with the same store and key, and the timers
    change: what [use] and [unuse] do. *)
Lemma wf_meta_update (w w' : World) (c : id) (qc qc' : QueryCache) :
  wf w → cacheHeap w !! c = Some qc →
  store qc' = store qc → onClear qc' = onClear qc →
  variablesHash qc' = variablesHash qc → fetcher qc' = fetcher qc →
  (nextId w ≤ nextId w')%positive →
  queries w' = queries w → cacheHeap w' = <[c := qc']> (cacheHeap w) →
  promises w' = promises w → inflight w' = inflight w →
  observers w' = observers w → fetcherCalls w' = fetcherCalls w →
  (∀ x, (nextId w' ≤ x)%positive → timers w' !! x = None) →
  (∀ t c0 d, timers w' !! t = Some (TOnClear c0 d) →
     if decide (c0 = c) then clearTimeoutId qc' = Some t
     else timers w !! t = Some (TOnClear c0 d)) →
  wf w'.
Proof.
  intros [Hf Hin Hw Hs Hl Htb Hcl] Hc Est Eo Eh Efe Hn Eq Ehp Ep Ei Eob Efc Htf Ht.
  assert (state qc' = state qc) as Estate by (unfold state; by rewrite Est).
  split.
  - intros x Hx. rewrite Eq, Ehp, Ep, Eob.
    destruct (Hf x) as (?&?&?&?&?); [lia|]. repeat split; auto.
    rewrite lookup_insert_ne; [done|congruence].
  - destruct Hin as (H1 & H3). split; rewrite ?Ei, ?Ep, ?Ehp; [|done].
    intros p c0 Hp. destruct (H1 p c0 Hp) as [Hpp (qc0 & Hc0 & Hst)].
    split; [done|]. rewrite lookup_insert.
    destruct (decide (c = c0)) as [<-|Hne]; eauto.
    exists qc'. split; [done|]. rewrite Estate. congruence.
  - destruct Hw as [H1 H2]. split; rewrite ?Ei, ?Ep, ?Ehp.
    + intros c0 qc0 p. rewrite lookup_insert.
      destruct (decide (c = c0)) as [<-|Hne].
      * intros [= <-]. rewrite Est. by apply (H1 c qc).
      * apply H1.
    + intros c1 c2 qc1 qc2 p. rewrite !lookup_insert.
      destruct (decide (c = c1)) as [<-|Hne1];
        destruct (decide (c = c2)) as [<-|Hne2]; try done.
      * intros [= <-] Hc2. rewrite Est. by apply (H2 _ _ qc qc2 p).
      * intros Hc1 [= <-]. rewrite Est. by apply (H2 _ _ qc1 qc p).
      * apply H2.
  - intros c0 qc0. rewrite Ehp, lookup_insert.
    destruct (decide (c = c0)) as [<-|Hne].
    + intros [= <-]. rewrite Estate. apply (Hs _ _ Hc).
    + apply (Hs c0).
  - intros c0 qc0 o. rewrite Ehp, Eob, lookup_insert.
    destruct (decide (c = c0)) as [<-|Hne].
    + intros [= <-]. rewrite Est. by apply (Hl c qc).
    + apply (Hl c0).
  - destruct Htb as (H1 & H2).
    split; rewrite ?Eq, ?Ehp.
    + intros q Q k c0 HQ Hk. destruct (H1 q Q k c0 HQ Hk) as (qc0 & Hc0 & ? & ?).
      rewrite lookup_insert. destruct (decide (c = c0)) as [<-|Hne]; eauto.
      exists qc'. simplify_eq. done.
    + intros t c0 d Htc. specialize (Ht t c0 d Htc). rewrite lookup_insert.
      destruct (decide (c0 = c)) as [->|Hne].
      * rewrite decide_True by done. eauto.
      * rewrite decide_False by done.
        destruct (H2 t c0 d Ht) as (qc0 & ? & ?). eauto.
  - apply (calls_ok_frame w); try done.
    intros c0. rewrite Ehp, lookup_insert. case_decide; subst; [|done].
    rewrite Hc. simpl. by rewrite Efe.
Qed.

Lemma wf_use (w : World) (c : id) : wf w → wf (QueryCache_use c w).
Proof.
  intros Hwf. unfold QueryCache_use.
  destruct (cacheHeap w !! c) as [qc|] eqn:Hc; [|done].
  pose proof Hwf as [Hf _ _ _ _ (T1 & T2) _].
  assert (∀ t c0 d, timers w !! t = Some (TOnClear c0 d) →
                    clearTimeoutId qc ≠ Some t → c0 ≠ c) as Hother.
  { intros t c0 d Ht Hne ->. destruct (T2 t c d Ht) as (qc0 & ? & ?).
    congruence. }
  destruct (clearTimeoutId qc) as [t|] eqn:Eid; simpl; rewrite Eid.
  - apply (wf_meta_update w _ c qc (use_obj qc).1); simpl; try done; try lia.
    + intros x Hx. rewrite lookup_delete. case_decide; [done|].
      by destruct (Hf x Hx) as (?&?&?&?&?).
    + intros t' c0 d. rewrite lookup_delete.
      destruct (decide (t = t')) as [<-|Hne]; [done|]. intros Ht.
      rewrite decide_False; [done|]. apply (Hother t' c0 d Ht). congruence.
  - apply (wf_meta_update w _ c qc (use_obj qc).1); simpl; try done; try lia.
    + intros x Hx. by destruct (Hf x Hx) as (?&?&?&?&?).
    + intros t' c0 d Ht. rewrite decide_False; [done|].
      by apply (Hother t' c0 d Ht).
Qed.

Lemma wf_unuse (w : World) (c : id) : wf w → wf (QueryCache_unuse c w).
Proof.
  intros Hwf. unfold QueryCache_unuse.
  destruct (cacheHeap w !! c) as [qc|] eqn:Hc; [|done].
  pose proof Hwf as [Hf _ _ _ _ (T1 & T2) _].
  unfold unuse_obj. destruct (unuse_arms qc) as [n|] eqn:Earm.
  - assert (clearTimeoutId qc = None) as Eid.
    { unfold unuse_arms in Earm. destruct (clearTime qc); [|done].
      destruct (bool_decide (clearTimeoutId qc = None)) eqn:E.
      - by apply bool_decide_eq_true in E.
      - by rewrite andb_false_r in Earm. }
    match goal with |- wf (with_cacheHeap (<[c := ?x]>) _) =>
      apply (wf_meta_update w _ c qc x) end; simpl; try done; try lia.
    + intros x Hx. rewrite lookup_insert_ne by lia.
      destruct (Hf x) as (?&?&?&?&?); [lia|done].
    + intros t c0 d. rewrite lookup_insert.
      destruct (decide (nextId w = t)) as [<-|Hne].
      * intros [= <- <-]. by rewrite decide_True.
      * intros Ht. rewrite decide_False; [done|]. intros ->.
        destruct (T2 t c d Ht) as (qc0 & ? & ?). congruence.
  - match goal with |- wf (with_cacheHeap (<[c := ?x]>) _) =>
      apply (wf_meta_update w _ c qc x) end; simpl; try done; try lia.
    + intros x Hx. by destruct (Hf x Hx) as (?&?&?&?&?).
    + intros t c0 d Ht. destruct (decide (c0 = c)) as [->|Hne]; [|done].
      destruct (T2 t c d Ht) as (qc0 & ? & ?). simplify_eq. done.
Qed.

Lemma wf_clearTimeout t w : wf w → wf (window_clearTimeout t w).
Proof.
  intros Hwf. apply (wf_frame w); simpl; try done; try lia.
  - intros t' c d. rewrite lookup_delete. by case_decide.
  - intros x Hx. rewrite lookup_delete. case_decide; [done|].
    destruct Hwf as [Hf _ _ _ _ _ _]. by destruct (Hf x Hx) as (?&?&?&?&?).
  - eauto.
  - intros x Hx. destruct Hwf as [Hf _ _ _ _ _ _].
    by destruct (Hf x Hx) as (?&?&?&?&?).
Qed.

Lemma wf_setTimeout_refetch c d w :
  wf w → wf (window_setTimeout (λ _, TRefetch c d) w).2.
Proof.
  intros Hwf. apply (wf_frame w); simpl; try done; try lia.
  - intros t' c' d'. rewrite lookup_insert. by case_decide.
  - intros x Hx. rewrite lookup_insert_ne by lia.
    destruct Hwf as [Hf _ _ _ _ _ _]. destruct (Hf x) as (?&?&?&?&?); [lia|done].
  - eauto.
  - intros x Hx. destruct Hwf as [Hf _ _ _ _ _ _].
    destruct (Hf x) as (?&?&?&?&?); [lia|done].
Qed.

(** An observer object is stored: a new one, or one bound to the same
    entry as before. *)
Lemma wf_store_observer o ob w :
  wf w → (o < nextId w)%positive →
  (∀ ob0, observers w !! o = Some ob0 → cache ob0 = cache ob) →
  wf (with_observers (<[o := ob]>) w).
Proof.
  intros Hwf Ho Hsame. apply (wf_frame w); simpl; try done; try lia.
  - intros x Hx. destruct Hwf as [Hf _ _ _ _ _ _].
    by destruct (Hf x Hx) as (?&?&?&?&?).
  - intros o' ob' Hob'. rewrite lookup_insert.
    destruct (decide (o = o')) as [<-|Hne]; eauto.
    exists ob. split; [done|]. symmetry. by apply Hsame.
  - intros x Hx. rewrite lookup_insert_ne by lia.
    destruct Hwf as [Hf _ _ _ _ _ _]. by destruct (Hf x Hx) as (?&?&?&?&?).
Qed.

(** ** The frame of [fetch] and the refetch timer *)

Lemma settle_fields p out w :
  now (settle p out w) = now w ∧ nextId (settle p out w) = nextId w
  ∧ client (settle p out w) = client w ∧ queries (settle p out w) = queries w
  ∧ cacheHeap (settle p out w) = cacheHeap w
  ∧ inflight (settle p out w) = inflight w ∧ timers (settle p out w) = timers w
  ∧ fetcherCalls (settle p out w) = fetcherCalls w
  ∧ observers (settle p out w) = observers w.
Proof. unfold settle. destruct (promises w !! p) as [[]|]; by repeat split. Qed.

Lemma fetch_frame_settle w w' p out :
  fetch_frame w w' → fetch_frame w (settle p out w').
Proof.
  intros [F1 F2 F3 F4 F5 F6 F7].
  destruct (settle_fields p out w') as (?&?&?&?&?&?&?&?&?).
  split; intros; congruence.
Qed.

Lemma fetch_fetch_frame c vars options w :
  fetch_frame w (QueryCache_fetch c vars options w).2.
Proof.
  unfold QueryCache_fetch. simpl.
  set (w0 := with_promises _ _).
  assert (fetch_frame w w0) as Hff by (by split).
  pose proof Hff as [F1 F2 F3 F4 F5 F6 F7].
  assert (cacheHeap w0 = cacheHeap w) as Fh by done.
  clearbody w0. rewrite <- Fh.
  destruct (cacheHeap w0 !! c) as [qc|] eqn:Hc; [|by split].
  destruct (decide (status (state qc) = StLoading)) as [Hl|Hl]; simpl.
  - split; try done. intros c0. simpl. rewrite <- F6, lookup_alter.
    case_decide; subst; rewrite ?Hc; done.
  - destruct (_ && _); simpl; [by apply fetch_frame_settle|].
    destruct (_ && _); simpl; [by apply fetch_frame_settle|].
    unfold QueryCache_startFetching.
    pose proof (store_setState_spec c startFetching_merge w0 qc Hc) as Hspec.
    destruct (store_setState c startFetching_merge w0) as [w2 k].
    cbn [fst snd] in *.
    destruct Hspec as [En Eid Ecl Eq Ei Et Eth Efc Eh Ep Eo].
    assert (fetch_frame w w2) as Hff2.
    { split; try congruence.
      intros c0. rewrite Eh, <- F6, lookup_insert.
      case_decide; subst; rewrite ?Hc; done. }
    destruct k as [|e]; [|by apply fetch_frame_settle].
    simpl. destruct (throwing w2 !! fetcher qc) as [e|].
    + apply fetch_frame_settle. by destruct Hff2.
    + by destruct Hff2.
Qed.

Lemma observer_lt w o ob :
  wf w → observers w !! o = Some ob → (o < nextId w)%positive.
Proof.
  intros [Hf _ _ _ _ _ _] Ho.
  destruct (decide (o < nextId w)%positive) as [|Hn]; [done|].
  destruct (Hf o) as (?&?&?&?&?); [lia|congruence].
Qed.

Lemma wf_clearRefetchTimeout o w :
  wf w → wf (QueryObserver_clearRefetchTimeout o w).
Proof.
  intros Hwf. unfold QueryObserver_clearRefetchTimeout.
  destruct (observers w !! o) as [ob|] eqn:Ho; [|done].
  destruct (refetchTimeoutId ob) as [t|]; [|done].
  apply wf_store_observer.
  - by apply wf_clearTimeout.
  - simpl. by apply (observer_lt w o ob).
  - simpl. intros ob0. rewrite Ho. by intros [= <-].
Qed.

Lemma clearRefetchTimeout_fields o w :
  let w' := QueryObserver_clearRefetchTimeout o w in
  now w' = now w ∧ nextId w' = nextId w ∧ client w' = client w
  ∧ queries w' = queries w ∧ cacheHeap w' = cacheHeap w
  ∧ promises w' = promises w ∧ inflight w' = inflight w
  ∧ fetcherCalls w' = fetcherCalls w
  ∧ ∀ x, (λ ob, (query ob, cache ob, props ob, ostate ob, subscribers ob,
                  selectLog ob))
           <$> observers w' !! x
         = (λ ob, (query ob, cache ob, props ob, ostate ob, subscribers ob,
                   selectLog ob))
           <$> observers w !! x.
Proof.
  unfold QueryObserver_clearRefetchTimeout.
  destruct (observers w !! o) as [ob|] eqn:Ho; [|by repeat split].
  destruct (refetchTimeoutId ob) as [t|]; [|by repeat split].
  simpl. repeat split; try done.
  intros x. rewrite lookup_insert. case_decide; subst; by rewrite ?Ho.
Qed.

Lemma wf_setRefetchTimeout o w :
  wf w → wf (QueryObserver_setRefetchTimeout o w).
Proof.
  intros Hwf. unfold QueryObserver_setRefetchTimeout.
  pose proof (wf_clearRefetchTimeout o w Hwf) as Hwf1.
  generalize dependent (QueryObserver_clearRefetchTimeout o w). intros w1 Hwf1.
  destruct (observers w1 !! o) as [ob|] eqn:Ho; [|done].
  destruct (cacheHeap w1 !! cache ob) as [qc|]; [|done].
  destruct (_ && _); [|done]. simpl.
  match goal with |- context [TRefetch ?c ?d] =>
    pose proof (wf_setTimeout_refetch c d w1 Hwf1) as Hwf2 end.
  apply (wf_store_observer o _ _ Hwf2).
  - simpl. pose proof (observer_lt w1 o ob Hwf1 Ho). lia.
  - simpl. intros ob0. rewrite Ho. by intros [= <-].
Qed.

Lemma setRefetchTimeout_fields o w :
  let w' := QueryObserver_setRefetchTimeout o w in
  now w' = now w ∧ client w' = client w
  ∧ queries w' = queries w ∧ cacheHeap w' = cacheHeap w
  ∧ promises w' = promises w ∧ inflight w' = inflight w
  ∧ fetcherCalls w' = fetcherCalls w
  ∧ ∀ x, (λ ob, (query ob, cache ob, props ob, ostate ob, subscribers ob,
                  selectLog ob))
           <$> observers w' !! x
         = (λ ob, (query ob, cache ob, props ob, ostate ob, subscribers ob,
                   selectLog ob))
           <$> observers w !! x.
Proof.
  unfold QueryObserver_setRefetchTimeout.
  destruct (clearRefetchTimeout_fields o w) as (E1&E2&E3&E4&E5&E6&E7&E8&E9).
  simpl in *.
  generalize dependent (QueryObserver_clearRefetchTimeout o w). intros w1 **.
  destruct (observers w1 !! o) as [ob|] eqn:Ho; [|by repeat split].
  destruct (cacheHeap w1 !! cache ob) as [qc|]; [|by repeat split].
  destruct (_ && _); [|by repeat split]. simpl. repeat split; try done.
  intros x. rewrite <- E9. rewrite lookup_insert.
  case_decide; subst; by rewrite ?Ho.
Qed.

Lemma wf_observer_refetch o w : wf w → wf (QueryObserver_refetch o w).
Proof.
  intros Hwf. unfold QueryObserver_refetch.
  destruct (observers w !! o) as [ob|]; [|done].
  destruct (cacheHeap w !! cache ob) as [qc|]; [|done]. by apply wf_refetch.
Qed.

Lemma wf_observer_fetch o w : wf w → wf (QueryObserver_fetch o w).
Proof.
  intros Hwf. unfold QueryObserver_fetch.
  destruct (observers w !! o) as [ob|]; [|done].
  destruct (cacheHeap w !! cache ob) as [qc|]; [|done]. by apply wf_fetch.
Qed.

(** ** The invariant under the registry, the tables and [setProps] *)

Lemma wf_createQuery props w : wf w → wf (QueryClient_createQuery props w).2.
Proof.
  intros [Hf Hin Hw Hs Hl Htb Hcl]. unfold QueryClient_createQuery. simpl.
  destruct (Hf (nextId w)) as (Hq&?&?&?&?); [lia|].
  split; simpl; try done.
  - intros x Hx. simpl in *.
    destruct (Hf x) as (?&?&?&?&?); [lia|]. repeat split; try done.
    rewrite lookup_insert_ne; [done|lia].
  - destruct Htb as (T1 & T2). split; simpl; [|done].
    intros q Q k c. rewrite lookup_insert.
    destruct (decide (nextId w = q)) as [<-|Hne]; [by intros [= <-]|]. apply T1.
  - apply (calls_ok_frame w); simpl; try done. lia.
Qed.

(** The callback of an eviction timer: a key leaves a table. *)
Lemma wf_evict t k q w :
  wf w →
  wf (with_queries (alter (with_caches (delete k)) q) (with_timers (delete t) w)).
Proof.
  intros [Hf Hin Hw Hs Hl (T1 & T2) Hcl].
  split; simpl; try done.
  - intros x Hx. simpl in *. destruct (Hf x Hx) as (Hqx&?&?&?&?).
    repeat split; try done.
    + rewrite lookup_alter. case_decide; subst; by rewrite ?Hqx.
    + rewrite lookup_delete. by case_decide.
  - split; simpl.
    + intros q0 Q0 k0 c0. rewrite lookup_alter.
      destruct (decide (q = q0)) as [<-|Hne]; [|apply T1].
      destruct (queries w !! q) as [Q|] eqn:HQ; [|done]. simpl.
      intros [= <-]. simpl. rewrite lookup_delete.
      case_decide; [done|]. by apply T1.
    + intros t0 c0 d0. rewrite lookup_delete.
      destruct (decide (t = t0)) as [<-|Hne]; [done|]. apply T2.
Qed.

Lemma wf_timer_fired t w : wf w → wf (timer_fired t w).
Proof.
  intros Hwf. unfold timer_fired.
  destruct (timers w !! t) as [[c d|c d]|] eqn:Ht; [| |done]; simpl.
  - destruct (cacheHeap w !! c) as [qc|] eqn:Hc.
    + by apply wf_evict.
    + by apply wf_clearTimeout.
  - pose proof (wf_clearTimeout t w Hwf) as Hwf1.
    destruct (cacheHeap w !! c) as [qc|] eqn:Hc; [|done].
    by apply wf_refetch.
Qed.

Lemma wf_destroy o w : wf w → wf (QueryObserver_destroy o w).
Proof.
  intros Hwf. unfold QueryObserver_destroy.
  destruct (observers w !! o) as [ob|]; [|done].
  by apply wf_clearRefetchTimeout, wf_unsubscribe, wf_unuse.
Qed.

Lemma wf_updateCacheTime o ct w : wf w → wf (QueryObserver_updateCacheTime o ct w).
Proof.
  intros Hwf. unfold QueryObserver_updateCacheTime.
  destruct (observers w !! o) as [ob|] eqn:Ho; [|done].
  case_decide; [|done]. apply wf_observer_fetch, wf_store_observer; try done.
  - by apply (observer_lt w o ob).
  - intros ob0. rewrite Ho. by intros [= <-].
Qed.

Lemma wf_updateRefetchInterval o i w :
  wf w → wf (QueryObserver_updateRefetchInterval o i w).
Proof.
  intros Hwf. unfold QueryObserver_updateRefetchInterval.
  destruct (observers w !! o) as [ob|] eqn:Ho; [|done].
  case_decide; [|done]. apply wf_setRefetchTimeout, wf_store_observer; try done.
  - by apply (observer_lt w o ob).
  - intros ob0. rewrite Ho. by intros [= <-].
Qed.

Lemma wf_setProps o pp w : wf w → wf (QueryObserver_setProps o pp w).
Proof.
  intros Hwf. unfold QueryObserver_setProps.
  set (w1 := match part_cacheTime pp, observers w !! o with
             | Some v, Some ob => _ | _, _ => w end).
  assert (wf w1) as Hwf1.
  { subst w1. destruct (part_cacheTime pp), (observers w !! o); try done.
    case_decide; [|done]. by apply wf_updateCacheTime. }
  clearbody w1.
  set (w2 := match part_refetchInterval pp, observers w1 !! o with
             | Some v, Some ob => _ | _, _ => w1 end).
  assert (wf w2) as Hwf2.
  { subst w2. destruct (part_refetchInterval pp), (observers w1 !! o); try done.
    case_decide; [|done]. by apply wf_updateRefetchInterval. }
  clearbody w2.
  destruct (part_select pp); [|done].
  destruct (observers w2 !! o) as [ob|] eqn:Ho; [|done].
  apply wf_store_observer; try done.
  - by apply (observer_lt w2 o ob).
  - intros ob0. rewrite Ho. by intros [= <-].
Qed.

Section Tables.

Variable hashVariables : value → string.

Lemma wf_createCache q Q vars w :
  wf w → queries w !! q = Some Q →
  wf (Query_createCache hashVariables q vars w).2
  ∧ ∃ qc, cacheHeap (Query_createCache hashVariables q vars w).2
            !! (Query_createCache hashVariables q vars w).1 = Some qc
          ∧ in_table (Query_createCache hashVariables q vars w).2
              (Query_createCache hashVariables q vars w).1 qc.
Proof.
  intros [Hf Hin Hw Hs Hl Htb Hcl] HQ. unfold Query_createCache. simpl.
  rewrite HQ. simpl.
  destruct (Hf (nextId w)) as (?&Hfc&?&?&?); [lia|].
  set (k := hashVariables vars) in *.
  destruct Htb as (T1 & T2).
  set (qc := mkQueryCache _ _ _ _ _ _ _).
  set (w' := with_queries _ _).
  assert (in_table w' (nextId w) qc) as Hnew.
  { exists (with_caches (<[k := nextId w]>) Q). subst w'. simpl.
    rewrite lookup_alter, decide_True by done. rewrite HQ. simpl.
    split; [done|]. apply lookup_insert_eq. }
  split; [|exists qc; split; [subst w'; simpl; apply lookup_insert_eq|done]].
  split; subst w'; simpl.
  - intros x Hx. simpl in *.
    destruct (Hf x) as (Hqx&?&?&?&?); [lia|]. repeat split; try done.
    + rewrite lookup_alter. case_decide; subst; by rewrite ?Hqx.
    + rewrite lookup_insert_ne; [done|lia].
  - destruct Hin as (I1 & I3). split; simpl; [|done].
    intros p c0 Hp. destruct (I1 p c0 Hp) as [? (qc0 & Hc0 & ?)].
    split; [done|]. exists qc0. split; [|done].
    rewrite lookup_insert_ne; [done|congruence].
  - destruct Hw as [W1 W2]. split; simpl.
    + intros c0 qc0 p. rewrite lookup_insert.
      destruct (decide (nextId w = c0)) as [<-|Hne].
      * intros [= <-]. simpl. by intros ?%elem_of_nil.
      * apply W1.
    + intros c1 c2 qc1 qc2 p. rewrite !lookup_insert.
      destruct (decide (nextId w = c1)) as [<-|Hne1];
        [intros [= <-] _; simpl; by intros ?%elem_of_nil|].
      destruct (decide (nextId w = c2)) as [<-|Hne2];
        [intros _ [= <-] _; simpl; by intros ?%elem_of_nil|].
      apply W2.
  - intros c0 qc0. simpl. rewrite lookup_insert.
    destruct (decide (nextId w = c0)) as [<-|Hne]; [by intros [= <-]|]. apply (Hs c0).
  - intros c0 qc0 o. simpl. rewrite lookup_insert.
    destruct (decide (nextId w = c0)) as [<-|Hne].
    + intros [= <-]. simpl. by intros ?%elem_of_nil.
    + apply (Hl c0).
  - split; simpl.
    + intros q0 Q0 k0 c0. rewrite lookup_alter.
      destruct (decide (q = q0)) as [<-|Hne].
      * rewrite HQ. simpl. intros [= <-]. simpl. rewrite lookup_insert.
        destruct (decide (k = k0)) as [<-|Hnk].
        -- intros [= <-]. exists qc. by rewrite lookup_insert_eq.
        -- intros Hk0. destruct (T1 q Q k0 c0 HQ Hk0) as (qc0 & ? & ? & ?).
           exists qc0. split; [|done]. rewrite lookup_insert_ne; [done|congruence].
      * intros HQ0 Hk0. destruct (T1 q0 Q0 k0 c0 HQ0 Hk0) as (qc0 & ? & ? & ?).
        exists qc0. split; [|done]. rewrite lookup_insert_ne; [done|congruence].
    + intros t c0 d Ht. destruct (T2 t c0 d Ht) as (qc0 & Hc0 & ?).
      exists qc0. split; [rewrite lookup_insert_ne; [done|congruence]|done].
  - apply (calls_ok_frame_pending w); simpl; try done; [lia|].
    intros p c0 qc' Hp. destruct Hin as (I1 & _).
    destruct (I1 p c0 Hp) as [_ (qc0 & Hc0 & _)].
    rewrite lookup_insert_ne by congruence. rewrite Hc0. intros [= <-]. eauto.
Qed.

Lemma wf_findOrCreateCache q Q vars w :
  wf w → queries w !! q = Some Q →
  wf (Query_findOrCreateCache hashVariables q vars w).2
  ∧ ∃ qc, cacheHeap (Query_findOrCreateCache hashVariables q vars w).2
            !! (Query_findOrCreateCache hashVariables q vars w).1 = Some qc
          ∧ in_table (Query_findOrCreateCache hashVariables q vars w).2
              (Query_findOrCreateCache hashVariables q vars w).1 qc.
Proof.
  intros Hwf HQ. unfold Query_findOrCreateCache, Query_findCache.
  rewrite HQ. simpl.
  destruct (caches Q !! hashVariables vars) as [c|] eqn:Hk; simpl.
  - split; [done|]. destruct Hwf as [_ _ _ _ _ (T1 & _) _].
    destruct (T1 q Q _ c HQ Hk) as (qc & Hc & Eo & Eh).
    exists qc. split; [done|]. exists Q. by rewrite Eo, Eh.
  - by apply (wf_createCache q Q).
Qed.

End Tables.

(** ** The invariant under every event *)

Lemma bound_skeleton w w' o c :
  skeleton <$> observers w' !! o = skeleton <$> observers w !! o →
  bound w o c → bound w' o c.
Proof.
  intros E (ob & Ho & Hc). rewrite Ho in E.
  destruct (observers w' !! o) as [ob'|] eqn:Ho'; simpl in E; [|done].
  exists ob'. split; [done|]. unfold skeleton in E. congruence.
Qed.

Lemma use_observers c w : observers (QueryCache_use c w) = observers w.
Proof.
  unfold QueryCache_use. destruct (cacheHeap w !! c) as [qc|]; [|done].
  simpl. by destruct (clearTimeoutId qc).
Qed.

Lemma use_cacheHeap_is_Some c c0 w :
  is_Some (cacheHeap w !! c0) → is_Some (cacheHeap (QueryCache_use c w) !! c0).
Proof.
  unfold QueryCache_use. destruct (cacheHeap w !! c) as [qc|] eqn:Hc; [|done].
  simpl. intros H.
  destruct (clearTimeoutId qc); simpl; rewrite lookup_insert; case_decide; eauto.
Qed.

Lemma wf_mount o c w : wf w → bound w o c → wf (QueryObserver_mount o w).
Proof.
  intros Hwf Hb. unfold QueryObserver_mount.
  destruct Hb as (ob & Ho & <-). rewrite Ho.
  set (w1 := if refetchOnMount (props ob) then _ else _).
  assert (wf w1 ∧ bound w1 o (cache ob)) as (Hwf1 & Hb1).
  { assert (bound w o (cache ob)) as Hb by (by exists ob).
    subst w1. destruct (refetchOnMount (props ob)).
    - split; [by apply wf_observer_refetch|].
      unfold QueryObserver_refetch. rewrite Ho.
      destruct (cacheHeap w !! cache ob) as [qc|]; [|done].
      destruct (fetch_fetch_frame (cache ob) (variables (state qc)) (Some (Num 0)) w)
        as [? ? ? ? ? Fm Fo].
      apply (bound_skeleton w); [apply Fo|done].
    - split; [by apply wf_observer_fetch|].
      unfold QueryObserver_fetch. rewrite Ho.
      destruct (cacheHeap w !! cache ob) as [qc|]; [|done].
      destruct (fetch_fetch_frame (cache ob) (variables (state qc))
                  (Some (cacheTime (props ob))) w) as [? ? ? ? ? Fm Fo].
      apply (bound_skeleton w); [apply Fo|done]. }
  clearbody w1. clear Hwf Ho w.
  pose proof (wf_use w1 (cache ob) Hwf1) as Hwf2.
  assert (bound (QueryCache_use (cache ob) w1) o (cache ob)) as Hb2.
  { destruct Hb1 as (ob1 & ? & ?). exists ob1. by rewrite use_observers. }
  generalize dependent (QueryCache_use (cache ob) w1). intros w2 Hwf2 Hb2.
  pose proof (wf_setRefetchTimeout o w2 Hwf2) as Hwf3.
  assert (bound (QueryObserver_setRefetchTimeout o w2) o (cache ob)) as Hb3.
  { destruct (setRefetchTimeout_fields o w2) as (_&_&_&_&_&_&_&E).
    destruct Hb2 as (ob2 & Ho2 & Hcache2). specialize (E o). rewrite Ho2 in E.
    destruct (observers (QueryObserver_setRefetchTimeout o w2) !! o) as [ob3|]
      eqn:Ho3; simpl in E; [|done].
    exists ob3. split; [done|]. congruence. }
  generalize dependent (QueryObserver_setRefetchTimeout o w2). intros w3 Hwf3 Hb3.
  destruct (cacheHeap w3 !! cache ob) as [qc|].
  - pose proof (wf_updateState o (state qc) None w3 Hwf3) as Hwf4.
    assert (bound (QueryObserver_updateState o (state qc) None w3).1 o (cache ob))
      as (ob4 & Ho4 & Hcache4)
      by (eapply bound_skeleton; [apply updateState_skeleton|done]).
    destruct (QueryObserver_updateState o (state qc) None w3) as [w4 [|e]];
      cbn [fst snd] in *; [|done].
    by apply (wf_subscribe_observer w4 _ o ob4).
  - destruct Hb3 as (ob3 & Ho3 & Hcache3).
    by apply (wf_subscribe_observer w3 _ o ob3).
Qed.

Section Steps.

Variable hashVariables : value → string.

Lemma createCache_fields q vars w :
  let r := Query_createCache hashVariables q vars w in
  observers r.2 = observers w ∧ nextId r.2 = Pos.succ (nextId w)
  ∧ r.1 = nextId w ∧ promises r.2 = promises w ∧ inflight r.2 = inflight w
  ∧ timers r.2 = timers w ∧ fetcherCalls r.2 = fetcherCalls w
  ∧ now r.2 = now w ∧ client r.2 = client w.
Proof.
  unfold Query_createCache. simpl. by destruct (queries w !! q).
Qed.

Lemma findOrCreateCache_fields q vars w :
  let r := Query_findOrCreateCache hashVariables q vars w in
  observers r.2 = observers w ∧ (nextId w ≤ nextId r.2)%positive
  ∧ promises r.2 = promises w ∧ inflight r.2 = inflight w
  ∧ timers r.2 = timers w ∧ fetcherCalls r.2 = fetcherCalls w
  ∧ now r.2 = now w ∧ client r.2 = client w.
Proof.
  unfold Query_findOrCreateCache.
  destruct (Query_findCache hashVariables q vars w); simpl.
  - repeat split; try done.
  - destruct (createCache_fields q vars w) as (?&E&?&?&?&?&?&?&?). simpl in *.
    rewrite E. repeat split; try done. lia.
Qed.

Lemma wf_new_observer cp w : wf w → wf (QueryObserver_new hashVariables cp w).2.
Proof.
  intros Hwf. unfold QueryObserver_new. simpl.
  pose proof (wf_alloc w Hwf) as Hwf1.
  set (w1 := (alloc w).2) in *. change (mkWorld _ _ _ _ _ _ _ _ _ _ _) with w1.
  assert (nextId w1 = Pos.succ (nextId w)) as En1 by done.
  assert (observers w1 !! nextId w = None) as Ho1.
  { destruct Hwf as [Hf _ _ _ _ _ _]. destruct (Hf (nextId w)) as (?&?&?&?&?); [lia|done]. }
  assert (queries w1 = queries w) as Eq1 by done. rewrite <- Eq1.
  clearbody w1.
  destruct (queries w1 !! ctor_query cp) as [Q|] eqn:HQ; [|done].
  destruct (wf_findOrCreateCache hashVariables (ctor_query cp) Q (ctor_variables cp)
              w1 Hwf1 HQ) as (Hwf2 & qc & Hc & Htab).
  destruct (findOrCreateCache_fields (ctor_query cp) (ctor_variables cp) w1)
    as (Eo2 & En2 & _).
  destruct (Query_findOrCreateCache hashVariables (ctor_query cp) (ctor_variables cp) w1)
    as [c w2]. simpl in *.
  eapply (wf_mount _ c).
  - apply wf_store_observer; [done|lia|]. rewrite Eo2, Ho1. done.
  - eexists. simpl. rewrite lookup_insert_eq. done.
Qed.

Lemma wf_findOrCreateCache_any q vars w :
  wf w → wf (Query_findOrCreateCache hashVariables q vars w).2.
Proof.
  intros Hwf. destruct (queries w !! q) as [Q|] eqn:HQ.
  - by destruct (wf_findOrCreateCache hashVariables q Q vars w Hwf HQ).
  - unfold Query_findOrCreateCache, Query_findCache, Query_createCache.
    rewrite HQ. simpl. rewrite HQ. by apply wf_alloc.
Qed.

Lemma wf_step w e : wf w → wf (step hashVariables w e).
Proof.
  intros Hwf. destruct e; simpl.
  - by apply wf_with_now.
  - by apply wf_createQuery.
  - by apply wf_new_observer.
  - by apply wf_destroy.
  - by apply wf_setProps.
  - by apply wf_fetch.
  - by apply wf_refetch.
  - by apply wf_use.
  - by apply wf_unuse.
  - by apply wf_with_throwing.
  - by apply wf_fetcher_settled.
  - by apply wf_timer_fired.
  - by apply wf_subscribers.
  - by apply wf_subscribers.
  - by apply wf_findOrCreateCache_any.
Qed.

Lemma wf_run evs w : wf w → wf (run hashVariables w evs).
Proof.
  revert w. induction evs as [|e evs IH]; intros w Hwf; simpl; [done|].
  by apply IH, wf_step.
Qed.

Lemma reachable_wf w : reachable hashVariables w → wf w.
Proof. induction 1; [apply wf_initial | by apply wf_step]. Qed.

Lemma reachable_run evs w :
  reachable hashVariables w → reachable hashVariables (run hashVariables w evs).
Proof.
  revert w. induction evs as [|e evs IH]; intros w Hw; simpl; [done|].
  apply IH. by constructor.
Qed.

End Steps.

(** ** Fresh entries *)

Lemma isFresh_state_spec (t : Z) (s : QueryCacheState) (ct : jsnum) :
  isFresh_state t s ct = true
  ↔ match ct with Num n => t - updatedAt s < n | Infinity => True end.
Proof.
  unfold isFresh_state, lt_num. destruct ct; [|done].
  by rewrite bool_decide_eq_true.
Qed.

(** C3: on an entry that is not ['loading'], is fresh for the window
    ([now - updatedAt < window]) and has status ['success'] or ['error'],
    [fetch] settles the promise it returns at once, with the cached data or
    the cached error; no fetcher is called and nothing else changes. *)
Theorem C3_fresh_fetch_returns_cached (w : World) (c : id) (qc : QueryCache)
  (vars : value) (options : option jsnum) :
  cacheHeap w !! c = Some qc →
  status (state qc) ≠ StLoading →
  QueryCache_isFresh c (default Infinity options) w = true →
  terminal (state qc) →
  (match default Infinity options with
   | Num n => now w - updatedAt (state qc) < n
   | Infinity => True
   end)
  ∧ promises (QueryCache_fetch c vars options w).2
      !! (QueryCache_fetch c vars options w).1
    = Some (cached_outcome (state qc))
  ∧ fetcherCalls (QueryCache_fetch c vars options w).2 = fetcherCalls w
  ∧ inflight (QueryCache_fetch c vars options w).2 = inflight w
  ∧ cacheHeap (QueryCache_fetch c vars options w).2 = cacheHeap w
  ∧ observers (QueryCache_fetch c vars options w).2 = observers w
  ∧ queries (QueryCache_fetch c vars options w).2 = queries w
  ∧ timers (QueryCache_fetch c vars options w).2 = timers w.
Proof.
  intros Hc Hl Hfresh Hterm.
  unfold QueryCache_isFresh in Hfresh. rewrite Hc in Hfresh.
  split; [by apply isFresh_state_spec|].
  unfold QueryCache_fetch. simpl. rewrite Hc.
  rewrite decide_False by done. rewrite Hfresh. simpl.
  unfold cached_outcome, settle. simpl. rewrite lookup_insert_eq.
  destruct Hterm as [Hs|He]; rewrite ?Hs, ?He; simpl;
    rewrite lookup_insert_eq; done.
Qed.

(** ** The transformed data of the observers *)



Lemma memo_kept_refl o w : memo_kept o w w.
Proof. intros ob Ho. by exists ob. Qed.

Lemma memo_kept_trans o w1 w2 w3 :
  memo_kept o w1 w2 → memo_kept o w2 w3 → memo_kept o w1 w3.
Proof.
  intros H12 H23 ob Ho.
  destruct (H12 ob Ho) as (ob2 & Ho2 & ? & ? & ?).
  destruct (H23 ob2 Ho2) as (ob3 & Ho3 & ? & ? & ?).
  exists ob3. repeat split; congruence.
Qed.

Lemma memo_kept_lookup_eq o w w' :
  observers w' !! o = observers w !! o → memo_kept o w w'.
Proof. intros E ob Ho. exists ob. by rewrite E. Qed.

Lemma memo_kept_observers_eq o w w' :
  observers w' = observers w → memo_kept o w w'.
Proof. intros E. apply memo_kept_lookup_eq. by rewrite E. Qed.

Lemma quiet_for_heap o w w' :
  cacheHeap w' = cacheHeap w → quiet_for o w → quiet_for o w'.
Proof. intros E H c qc. rewrite E. apply H. Qed.

Lemma updateState_other o st prev w x :
  x ≠ o →
  observers (QueryObserver_updateState o st prev w).1 !! x = observers w !! x.
Proof.
  intros Hx. unfold QueryObserver_updateState.
  destruct (observers w !! o) as [ob|]; [|done].
  destruct prev as [ps|];
    [destruct (strict_equal _ _); [|destruct (data st); [destruct (select _ _)|]]|];
    simpl; by rewrite lookup_insert_ne.
Qed.

(** With data that are [===] to those of the previous state, [updateState]
    calls no transform. *)
Lemma updateState_same_data o st ps w x :
  strict_equal (data st) (data ps) = true →
  memo_kept x w (QueryObserver_updateState o st (Some ps) w).1.
Proof.
  intros Hd. unfold QueryObserver_updateState.
  destruct (observers w !! o) as [ob|] eqn:Ho; [|apply memo_kept_refl].
  rewrite Hd. cbn [fst snd].
  intros obx Hx. simpl. rewrite lookup_insert.
  destruct (decide (o = x)) as [<-|Hne]; [|by exists obx].
  eexists. split; [done|]. simplify_eq. simpl. by rewrite app_nil_r.
Qed.

Lemma memo_notify x st prev w l :
  (l = LObserver x → strict_equal (data st) (data prev) = true) →
  memo_kept x w (notify st prev w l).1.
Proof.
  intros Hd. destruct l as [p|o]; simpl.
  - destruct (status st); try apply memo_kept_refl;
      apply memo_kept_observers_eq, settle_observers.
  - destruct (decide (o = x)) as [->|Hne].
    + by apply updateState_same_data, Hd.
    + apply memo_kept_lookup_eq. by apply updateState_other.
Qed.

Lemma memo_forEach x st prev ls w :
  (LObserver x ∈ ls → strict_equal (data st) (data prev) = true) →
  memo_kept x w (forEach st prev ls w).1.
Proof.
  revert w. induction ls as [|l ls IH]; intros w Hd; simpl.
  - apply memo_kept_refl.
  - pose proof (memo_notify x st prev w l) as H.
    destruct (notify st prev w l) as [w1 [|e]]; cbn [fst snd] in *.
    + eapply memo_kept_trans.
      * apply H. intros ->. apply Hd, list_elem_of_here.
      * apply IH. intros Hin. by apply Hd, list_elem_of_further.
    + apply H. intros ->. apply Hd, list_elem_of_here.
Qed.

(** The broadcast of a state whose data are [===] to those of the state
    before calls no transform of the observer [x]. *)
Lemma memo_setState_same_data x c merge w :
  (∀ qc, cacheHeap w !! c = Some qc → LObserver x ∈ listeners (store qc) →
         strict_equal (data (merge (state qc))) (data (state qc)) = true) →
  memo_kept x w (store_setState c merge w).1.
Proof.
  intros Hd. unfold store_setState.
  destruct (cacheHeap w !! c) as [qc|] eqn:Hc; [|apply memo_kept_refl].
  eapply memo_kept_trans; [|apply memo_forEach; by apply Hd].
  by apply memo_kept_observers_eq.
Qed.



Lemma memo_fetch x c vars options w :
  quiet_for x w → memo_kept x w (QueryCache_fetch c vars options w).2.
Proof.
  intros Hq. unfold QueryCache_fetch. simpl.
  set (w0 := with_promises _ _).
  assert (observers w0 = observers w) as E0 by done.
  assert (cacheHeap w0 = cacheHeap w) as Eh by done.
  assert (quiet_for x w0) as Hq0 by (by apply (quiet_for_heap x w)).
  clearbody w0. rewrite <- Eh.
  apply (memo_kept_trans _ _ w0); [by apply memo_kept_observers_eq|].
  destruct (cacheHeap w0 !! c) as [qc|] eqn:Hc; [|apply memo_kept_refl].
  destruct (decide _); simpl; [by apply memo_kept_observers_eq|].
  destruct (_ && _); simpl; [apply memo_kept_observers_eq, settle_observers|].
  destruct (_ && _); simpl; [apply memo_kept_observers_eq, settle_observers|].
  unfold QueryCache_startFetching.
  pose proof (memo_setState_same_data x c startFetching_merge w0) as H.
  destruct (store_setState c startFetching_merge w0) as [w2 [|e]];
    cbn [fst snd] in *.
  - eapply memo_kept_trans; [apply H; intros qc0; apply Hq0|]. cbv zeta.
    match goal with |- context [throwing ?w' !! _] =>
      change (throwing w') with (throwing w2) end.
    destruct (throwing w2 !! fetcher qc); cbn [snd];
      [apply memo_kept_observers_eq; by rewrite settle_observers
      |by apply memo_kept_observers_eq].
  - eapply memo_kept_trans; [apply H; intros qc0; apply Hq0|].
    apply memo_kept_observers_eq, settle_observers.
Qed.

Lemma memo_use x c w : memo_kept x w (QueryCache_use c w).
Proof. apply memo_kept_observers_eq, use_observers. Qed.

Lemma unuse_observers c w : observers (QueryCache_unuse c w) = observers w.
Proof.
  unfold QueryCache_unuse. destruct (cacheHeap w !! c) as [qc|]; [|done].
  unfold unuse_obj. by destruct (unuse_arms qc).
Qed.


Lemma memo_setRefetchTimeout x o w :
  memo_kept x w (QueryObserver_setRefetchTimeout o w).
Proof.
  intros ob Hx.
  destruct (setRefetchTimeout_fields o w) as (_&_&_&_&_&_&_&E).
  specialize (E x). rewrite Hx in E.
  destruct (observers (QueryObserver_setRefetchTimeout o w) !! x) as [ob'|];
    simpl in E; [|done].
  exists ob'. split; [done|]. repeat split; congruence.
Qed.

Lemma memo_observer_fetch x o w :
  quiet_for x w → memo_kept x w (QueryObserver_fetch o w).
Proof.
  intros Hq. unfold QueryObserver_fetch.
  destruct (observers w !! o) as [ob|]; [|apply memo_kept_refl].
  destruct (cacheHeap w !! cache ob); [by apply memo_fetch|apply memo_kept_refl].
Qed.

Lemma memo_observer_refetch x o w :
  quiet_for x w → memo_kept x w (QueryObserver_refetch o w).
Proof.
  intros Hq. unfold QueryObserver_refetch.
  destruct (observers w !! o) as [ob|]; [|apply memo_kept_refl].
  destruct (cacheHeap w !! cache ob); [by apply memo_fetch|apply memo_kept_refl].
Qed.










(** ** New observers and broadcasts of the same data *)

Lemma fetch_cacheHeap_is_Some c vars options w c0 :
  is_Some (cacheHeap w !! c0) →
  is_Some (cacheHeap (QueryCache_fetch c vars options w).2 !! c0).
Proof.
  intros [qc Hc]. destruct (fetch_fetch_frame c vars options w) as [_ _ _ _ _ F _].
  specialize (F c0). rewrite Hc in F.
  destruct (cacheHeap (QueryCache_fetch c vars options w).2 !! c0); [eauto|done].
Qed.

(** What [mount] publishes for an observer that has no transformed data
    yet, whose store has no listener yet. *)
Lemma mount_publishes o ob w :
  observers w !! o = Some ob → o_data (ostate ob) = None →
  subscribers ob = [] →
  is_Some (cacheHeap w !! cache ob) → quiet_for o w →
  ∃ ob' qc',
    observers (QueryObserver_mount o w) !! o = Some ob'
    ∧ cacheHeap (QueryObserver_mount o w) !! cache ob = Some qc'
    ∧ cache ob' = cache ob
    ∧ o_data (ostate ob') = None
    ∧ isSuccess (ostate ob') = false
    ∧ originalData (ostate ob') = data (state qc')
    ∧ selectLog ob' = selectLog ob.
Proof.
  intros Ho Hd Hs Hc Hq. unfold QueryObserver_mount. rewrite Ho.
  set (w1 := if refetchOnMount (props ob) then _ else _).
  assert (memo_kept o w w1 ∧ is_Some (cacheHeap w1 !! cache ob)
          ∧ skeleton <$> observers w1 !! o = skeleton <$> observers w !! o)
    as (H1 & Hc1 & Hk1).
  { subst w1. destruct Hc as [qc Hc].
    destruct (refetchOnMount (props ob)).
    - split; [by apply memo_observer_refetch|].
      unfold QueryObserver_refetch. rewrite Ho, Hc.
      split; [apply fetch_cacheHeap_is_Some; eauto|].
      destruct (fetch_fetch_frame (cache ob) (variables (state qc))
                  (Some (Num 0)) w) as [_ _ _ _ _ _ F].
      rewrite <- Ho. apply F.
    - split; [by apply memo_observer_fetch|].
      unfold QueryObserver_fetch. rewrite Ho, Hc.
      split; [apply fetch_cacheHeap_is_Some; eauto|].
      destruct (fetch_fetch_frame (cache ob) (variables (state qc))
                  (Some (cacheTime (props ob))) w) as [_ _ _ _ _ _ F].
      rewrite <- Ho. apply F. }
  clearbody w1.
  pose proof (memo_use o (cache ob) w1) as H2.
  pose proof (use_cacheHeap_is_Some (cache ob) (cache ob) w1 Hc1) as Hc2.
  pose proof (use_observers (cache ob) w1) as Eo2.
  generalize dependent (QueryCache_use (cache ob) w1). intros w2 H2 Hc2 Eo2.
  pose proof (memo_setRefetchTimeout o o w2) as H3.
  destruct (setRefetchTimeout_fields o w2) as (_&_&_&Eh&_&_&_&Eo3).
  generalize dependent (QueryObserver_setRefetchTimeout o w2). intros w3 H3 Eh Eo3.
  assert (memo_kept o w w3) as H13
    by (eapply memo_kept_trans; [|done]; by eapply memo_kept_trans).
  rewrite <- Eh in Hc2. destruct Hc2 as [qc3 Hc3]. rewrite Hc3.
  destruct (H13 ob Ho) as (ob3 & Ho3 & E1 & E2 & E3).
  assert (subscribers ob3 = []) as Hs3.
  { specialize (Eo3 o). rewrite Ho3, Eo2 in Eo3. rewrite Ho in Hk1.
    destruct (observers w1 !! o) as [ob1|]; simpl in *; [|done].
    unfold skeleton in Hk1. congruence. }
  unfold QueryObserver_updateState. rewrite Ho3. simpl. rewrite Hs3. simpl.
  rewrite lookup_insert_eq, lookup_alter, decide_True by done. rewrite Hc3. simpl.
  eexists _, _. split; [done|]. split; [done|]. simpl.
  rewrite app_nil_r. done.
Qed.

(** An observer that is not there listens to no store. *)
Lemma quiet_for_absent o w : wf w → observers w !! o = None → quiet_for o w.
Proof.
  intros [_ _ _ _ Hl _ _] Ho c qc Hc Hin.
  destruct (Hl c qc o Hc Hin) as (ob & Hob & _). congruence.
Qed.

Section Transform.

Variable hashVariables : value → string.

Lemma new_observer_unfold cp w Q :
  queries w !! ctor_query cp = Some Q →
  QueryObserver_new hashVariables cp w
  = (nextId w,
     QueryObserver_mount (nextId w)
       (with_observers
          (<[nextId w :=
               new_observer_object cp
                 (Query_findOrCreateCache hashVariables (ctor_query cp)
                    (ctor_variables cp) (alloc w).2).1]>)
          (Query_findOrCreateCache hashVariables (ctor_query cp)
             (ctor_variables cp) (alloc w).2).2)).
Proof.
  intros HQ. unfold QueryObserver_new. simpl. rewrite HQ.
  by destruct (Query_findOrCreateCache _ _ _ _).
Qed.

(** C10: the state that a new observer publishes from the snapshot of its
    entry has no transformed data and [isSuccess = false], whatever the entry
    holds, while [originalData] is the data of the entry; [props.select] is
    not called. *)
Theorem C10_initial_state_not_transformed
  (cp : QueryObserverConstructorProps) (w : World) (Q : Query) :
  reachable hashVariables w →
  queries w !! ctor_query cp = Some Q →
  ∃ ob qc,
    observers (QueryObserver_new hashVariables cp w).2
      !! (QueryObserver_new hashVariables cp w).1 = Some ob
    ∧ cacheHeap (QueryObserver_new hashVariables cp w).2 !! cache ob = Some qc
    ∧ o_data (ostate ob) = None
    ∧ isSuccess (ostate ob) = false
    ∧ originalData (ostate ob) = data (state qc)
    ∧ selectLog ob = [].
Proof.
  intros Hr HQ. rewrite (new_observer_unfold cp w Q HQ). cbn [fst snd].
  pose proof (reachable_wf hashVariables w Hr) as Hwf.
  pose proof (wf_alloc w Hwf) as Hwf1.
  destruct (wf_findOrCreateCache hashVariables (ctor_query cp) Q (ctor_variables cp)
              (alloc w).2 Hwf1 HQ) as (Hwf2 & qc & Hc & Htab).
  destruct (findOrCreateCache_fields hashVariables (ctor_query cp)
              (ctor_variables cp) (alloc w).2) as (Eo & _).
  destruct (Query_findOrCreateCache hashVariables (ctor_query cp) (ctor_variables cp)
              (alloc w).2) as [c w2]. cbn [fst snd] in *.
  set (ob0 := new_observer_object cp c).
  destruct (mount_publishes (nextId w) ob0 (with_observers (<[nextId w := ob0]>) w2))
    as (ob' & qc' & Ho' & Hc' & E1 & E2 & E3 & E4 & E5).
  - simpl. apply lookup_insert_eq.
  - done.
  - done.
  - simpl. eauto.
  - apply (quiet_for_heap _ w2); [done|]. apply quiet_for_absent; [done|].
    rewrite Eo. simpl. destruct Hwf as [Hf _ _ _ _ _ _].
    destruct (Hf (nextId w)) as (?&?&?&?&?); [lia|done].
  - exists ob', qc'. rewrite E1, E5. done.
Qed.


(** The data of the entry when the fetcher call has settled. *)
Lemma fetch_catch_data c p e w qc :
  cacheHeap w !! c = Some qc →
  ∃ qc', cacheHeap (fetch_catch c p e w) !! c = Some qc'
         ∧ state qc' = setError_merge (now w) e (state qc)
         ∧ listeners (store qc') = listeners (store qc).
Proof.
  intros Hc. unfold fetch_catch, QueryCache_setError.
  pose proof (store_setState_spec c (setError_merge (now w) e) w qc Hc) as Hspec.
  destruct (store_setState c (setError_merge (now w) e) w) as [w' k].
  cbn [fst snd] in *. destruct Hspec as [_ _ _ _ _ _ _ _ Eh _ _].
  exists (with_state (setError_merge (now w) e (state qc)) qc).
  destruct k as [|e'];
    match goal with |- context [settle ?p ?out ?w0] =>
      destruct (settle_fields p out w0) as (_&_&_&_&Eh'&_) end;
    by rewrite Eh', Eh, lookup_insert_eq.
Qed.








End Transform.

(** ** The registry, undefined data and [destroy] *)

(** What one call of [destroy] does. *)
Lemma destroy_spec (o : id) (w : World) (ob : QueryObserver) (qc : QueryCache) :
  observers w !! o = Some ob → cacheHeap w !! cache ob = Some qc →
  ∃ qc1,
    cacheHeap (QueryObserver_destroy o w) !! cache ob = Some qc1
    ∧ usedCount qc1 = usedCount qc - 1
    ∧ listeners (store qc1) = filter (λ x, x ≠ LObserver o) (listeners (store qc))
    ∧ observers (QueryObserver_destroy o w)
      = <[o := with_refetchTimeoutId None ob]> (observers w)
    ∧ (∀ t, refetchTimeoutId ob = Some t →
            timers (QueryObserver_destroy o w) !! t = None).
Proof.
  intros Ho Hc. unfold QueryObserver_destroy. rewrite Ho.
  destruct (usedCount_of_unuse (cache ob) w qc Hc) as (qca & Hca & Hna).
  assert (store qca = store qc) as Hsa.
  { unfold QueryCache_unuse, unuse_obj in Hca. rewrite Hc in Hca.
    destruct (unuse_arms qc); simpl in Hca; rewrite lookup_insert_eq in Hca;
      by injection Hca as <-. }
  pose proof (unuse_observers (cache ob) w) as Hoa.
  generalize dependent (QueryCache_unuse (cache ob) w). intros wa Hca Hoa.
  unfold QueryObserver_clearRefetchTimeout, store_unsubscribe. simpl.
  rewrite Hoa, Ho.
  exists (with_store (unsubscribe (LObserver o)) qca).
  destruct (refetchTimeoutId ob) as [t|] eqn:Et; simpl.
  - rewrite lookup_alter, decide_True by done. rewrite Hca. simpl.
    rewrite Hsa, Hoa. repeat split; try done.
    intros t' [= <-]. apply lookup_delete_eq.
  - rewrite lookup_alter, decide_True by done. rewrite Hca. simpl.
    rewrite Hsa, Hoa. repeat split; try done.
    symmetry. apply insert_id. rewrite Ho. f_equal.
    destruct ob. simpl in *. by subst.
Qed.

(** ** Broadcasts do not read the pending fetcher calls *)

Lemma settle_with_inflight f p out w :
  settle p out (with_inflight f w) = with_inflight f (settle p out w).
Proof. unfold settle. simpl. by destruct (promises w !! p) as [[]|]. Qed.

Lemma updateState_with_inflight f o st prev w :
  QueryObserver_updateState o st prev (with_inflight f w)
  = (with_inflight f (QueryObserver_updateState o st prev w).1,
     (QueryObserver_updateState o st prev w).2).
Proof.
  unfold QueryObserver_updateState. simpl.
  destruct (observers w !! o) as [ob|]; [|done].
  by destruct prev as [ps|];
    [destruct (strict_equal _ _); [|destruct (data st); [destruct (select _ _)|]]|].
Qed.

Lemma notify_with_inflight f st prev w l :
  notify st prev (with_inflight f w) l
  = (with_inflight f (notify st prev w l).1, (notify st prev w l).2).
Proof.
  destruct l as [p|o]; simpl.
  - destruct (status st); by rewrite ?settle_with_inflight.
  - apply updateState_with_inflight.
Qed.

Lemma forEach_with_inflight f st prev ls w :
  forEach st prev ls (with_inflight f w)
  = (with_inflight f (forEach st prev ls w).1, (forEach st prev ls w).2).
Proof.
  revert w. induction ls as [|l ls IH]; intros w; simpl; [done|].
  rewrite notify_with_inflight.
  destruct (notify st prev w l) as [w1 [|e]]; simpl; [apply IH|done].
Qed.

Lemma setState_with_inflight f c merge w :
  (store_setState c merge (with_inflight f w)).2 = (store_setState c merge w).2.
Proof.
  unfold store_setState. simpl. destruct (cacheHeap w !! c) as [qc|]; [|done].
  exact (f_equal snd
           (forEach_with_inflight f (merge (state qc)) (state qc)
              (listeners (store qc))
              (with_cacheHeap
                 (<[c := with_store (λ s, mkStore (merge (state qc)) (listeners s))
                           qc]>) w))).
Qed.

Lemma settling_broadcast_with_inflight f c p r w :
  (settling_broadcast c p r (with_inflight f w)).2 = (settling_broadcast c p r w).2.
Proof. destruct r as [[d|]|e]; apply setState_with_inflight. Qed.

Lemma rethrown_with_inflight f c e w :
  rethrown c e (with_inflight f w) = rethrown c e w.
Proof.
  unfold rethrown, QueryCache_setError. simpl.
  by rewrite (setState_with_inflight f c (setError_merge (now w) e) w).
Qed.

(** The promise of the caller, which does not wait on the store, is
    rejected by the [.catch] callback with what it throws. *)
Lemma fetch_catch_promise c p e w qc :
  cacheHeap w !! c = Some qc → LWaiter p ∉ listeners (store qc) →
  promises w !! p = Some Pending →
  promises (fetch_catch c p e w) !! p = Some (Rejected (rethrown c e w)).
Proof.
  intros Hc Hnw Hp. unfold fetch_catch, rethrown, QueryCache_setError.
  pose proof (store_setState_spec c (setError_merge (now w) e) w qc Hc) as Hspec.
  destruct (store_setState c (setError_merge (now w) e) w) as [w' k].
  cbn [fst snd] in *.
  assert (promises w' !! p = Some Pending) as Hp'.
  { destruct (setState_promises_cases c qc _ w w' k p Hspec) as [->|[? _]];
      done. }
  destruct k as [|e'];
    rewrite settle_promises, decide_True by done; by rewrite Hp'.
Qed.

Section Lifecycle.

Variable hashVariables : value → string.

(** C5, amended: [createQuery] always makes a new Query from the props it
    is given, stores it under [props.name] in place of any query that was
    there, and returns it: the last registration of a name is the one that
    [findQuery] finds; the other names and the other Query objects are
    untouched. *)
Theorem C5_createQuery_replaces (w : World) (props : QueryConstructorProps) :
  reachable hashVariables w →
  queries w !! (QueryClient_createQuery props w).1 = None
  ∧ queries (QueryClient_createQuery props w).2
      !! (QueryClient_createQuery props w).1 = Some (Query_new props)
  ∧ QueryClient_findQuery (props_name props) (QueryClient_createQuery props w).2
    = Some (QueryClient_createQuery props w).1
  ∧ (∀ n, n ≠ props_name props →
          QueryClient_findQuery n (QueryClient_createQuery props w).2
          = QueryClient_findQuery n w)
  ∧ (∀ q, q ≠ (QueryClient_createQuery props w).1 →
          queries (QueryClient_createQuery props w).2 !! q = queries w !! q).
Proof.
  intros Hr. destruct (reachable_wf hashVariables w Hr) as [Hf _ _ _ _ _ _].
  unfold QueryClient_createQuery, QueryClient_findQuery. simpl.
  destruct (Hf (nextId w)) as (?&_); [lia|].
  repeat split; try done.
  - apply lookup_insert_eq.
  - apply lookup_insert_eq.
  - intros n Hn. by rewrite lookup_insert_ne.
  - intros q Hq. by rewrite lookup_insert_ne.
Qed.

(** C7: when the fetcher resolves with [undefined], the promise of the
    caller is rejected, the entry takes status ['error'] with the error made
    for it and keeps the data it had; and no entry is ever in status
    ['success'] without data.  The promise is rejected with what the
    [.catch] callback throws: that error, unless a listener of the store
    throws in [setError]. *)
Theorem C7_undefined_data_is_an_error (w : World) (p c : id) :
  reachable hashVariables w → inflight w !! p = Some c →
  ∃ qc qc',
    cacheHeap w !! c = Some qc
    ∧ cacheHeap (fetcher_settled p (FResolved None) w) !! c = Some qc'
    ∧ promises (fetcher_settled p (FResolved None) w) !! p
      = Some (Rejected (rethrown c (Some (undefinedDataError p)) w))
    ∧ ((QueryCache_setError c (Some (undefinedDataError p)) w).2 = Normal →
       rethrown c (Some (undefinedDataError p)) w = Some (undefinedDataError p))
    ∧ status (state qc') = StError
    ∧ error (state qc') = Some (undefinedDataError p)
    ∧ data (state qc') = data (state qc)
    ∧ ∀ c0 qc0,
        cacheHeap (fetcher_settled p (FResolved None) w) !! c0 = Some qc0 →
        status (state qc0) = StSuccess → is_Some (data (state qc0)).
Proof.
  intros Hr Hp. pose proof (reachable_wf hashVariables w Hr) as Hwf.
  pose proof (wf_fetcher_settled p (FResolved None) w Hwf) as [_ _ _ Hs' _ _ _].
  pose proof (wf_landed w p Hwf) as Hwf0.
  destruct Hwf as [_ (I1 & _) (W1 & _) _ _ _ _].
  destruct (I1 p c Hp) as [Hpp (qc & Hc & Hst)].
  assert (LWaiter p ∉ listeners (store qc)) as Hnw.
  { intros Hin. destruct (W1 c qc p Hc Hin). congruence. }
  unfold fetcher_settled in *. rewrite Hp in *.
  set (w0 := with_inflight (delete p) w) in *.
  assert (cacheHeap w0 !! c = Some qc) as Hc0 by done.
  assert (promises w0 !! p = Some Pending) as Hpp0 by done.
  pose proof (rethrown_with_inflight (delete p) c
                (Some (undefinedDataError p)) w) as Ere.
  fold w0 in Ere. clearbody w0.
  destruct (fetch_catch_data c p (Some (undefinedDataError p)) w0 qc Hc0)
    as (qc' & Hc' & Est & _).
  pose proof (fetch_catch_promise c p (Some (undefinedDataError p)) w0 qc
                Hc0 Hnw Hpp0) as He.
  exists qc, qc'. rewrite Est, <- Ere. repeat split; try done.
  intros Hk. rewrite Ere. unfold rethrown. by rewrite Hk.
Qed.

(** C9, amended: every call of [destroy] calls [unuse] on the entry, so
    the count goes down by one at each call, also the second; what the
    second call leaves as it is are the listeners of the store and the
    observer: [destroy] removes the listener of the observer from the store
    and clears its refetch timer, and doing so again changes nothing. *)
Theorem C9_destroy_unuses_at_each_call
  (w : World) (o : id) (ob : QueryObserver) (qc : QueryCache) :
  observers w !! o = Some ob → cacheHeap w !! cache ob = Some qc →
  ∃ qc1 qc2 ob1,
    cacheHeap (QueryObserver_destroy o w) !! cache ob = Some qc1
    ∧ cacheHeap (QueryObserver_destroy o (QueryObserver_destroy o w)) !! cache ob
      = Some qc2
    ∧ observers (QueryObserver_destroy o w) !! o = Some ob1
    ∧ usedCount qc1 = usedCount qc - 1
    ∧ (LObserver o ∉ listeners (store qc1))
    ∧ refetchTimeoutId ob1 = None
    ∧ (∀ t, refetchTimeoutId ob = Some t →
            timers (QueryObserver_destroy o w) !! t = None)
    ∧ usedCount qc2 = usedCount qc - 2
    ∧ listeners (store qc2) = listeners (store qc1)
    ∧ observers (QueryObserver_destroy o (QueryObserver_destroy o w))
      = observers (QueryObserver_destroy o w).
Proof.
  intros Ho Hc.
  destruct (destroy_spec o w ob qc Ho Hc) as (qc1 & Hc1 & Hn1 & Hl1 & Ho1 & Ht1).
  assert (observers (QueryObserver_destroy o w) !! o
          = Some (with_refetchTimeoutId None ob)) as Ho1'
    by (rewrite Ho1; apply lookup_insert_eq).
  destruct (destroy_spec o (QueryObserver_destroy o w)
              (with_refetchTimeoutId None ob) qc1 Ho1' Hc1)
    as (qc2 & Hc2 & Hn2 & Hl2 & Ho2 & _).
  exists qc1, qc2, (with_refetchTimeoutId None ob).
  repeat split; try done.
  - rewrite Hl1, list_elem_of_filter. by intros [? _].
  - lia.
  - rewrite Hl2, Hl1. apply list_filter_filter_l. done.
  - rewrite Ho2. apply insert_id. rewrite Ho1'. done.
Qed.

End Lifecycle.

(** ** One fetcher call at a time *)

Lemma undisturbed_refl w : undisturbed w w.
Proof. repeat split. eauto. Qed.

Lemma undisturbed_trans w1 w2 w3 :
  undisturbed w1 w2 → undisturbed w2 w3 → undisturbed w1 w3.
Proof.
  intros (?&?&?&Ha) (?&?&?&Hb). repeat split; try congruence.
  intros c qc Hc. destruct (Ha c qc Hc) as (qc2 & Hc2 & Hl2).
  destruct (Hb c qc2 Hc2) as (qc3 & Hc3 & Hl3). eauto.
Qed.

Lemma undisturbed_same_heap w w' :
  promises w' = promises w → inflight w' = inflight w →
  fetcherCalls w' = fetcherCalls w → cacheHeap w' = cacheHeap w →
  undisturbed w w'.
Proof. intros ? ? ? E. repeat split; try done. intros c qc. rewrite E. eauto. Qed.

Lemma flight_undisturbed c p0 w w' :
  inflight w !! p0 = Some c → undisturbed w w' → flight_kept c p0 w w'.
Proof.
  intros Hp (Ep & Ei & Ef & Hh). split; [by rewrite Ei|].
  split; [unfold calls_of; by rewrite Ef|].
  intros p [Hpp (qc & Hc & Hin)]. destruct (Hh c qc Hc) as (qc' & Hc' & Hl').
  split; [by rewrite Ep|]. eauto.
Qed.

Lemma flight_kept_trans c p0 w1 w2 w3 :
  flight_kept c p0 w1 w2 → flight_kept c p0 w2 w3 → flight_kept c p0 w1 w3.
Proof.
  intros (?&E1&Ha) (?&E2&Hb). split; [done|]. split; [congruence|]. auto.
Qed.

Lemma undisturbed_use c w : undisturbed w (QueryCache_use c w).
Proof.
  unfold QueryCache_use.
  destruct (cacheHeap w !! c) as [qc|] eqn:Hc; [|apply undisturbed_refl].
  assert (∀ w', promises w' = promises w → inflight w' = inflight w →
                fetcherCalls w' = fetcherCalls w →
                cacheHeap w' = <[c := (use_obj qc).1]> (cacheHeap w) →
                undisturbed w w') as Hgen.
  { intros w' ? ? ? E. repeat split; try done. intros c0 qc0 Hc0. rewrite E.
    rewrite lookup_insert. destruct (decide (c = c0)) as [<-|]; [|eauto].
    simplify_eq. eauto. }
  simpl. destruct (clearTimeoutId qc); by apply Hgen.
Qed.

Lemma undisturbed_unuse c w : undisturbed w (QueryCache_unuse c w).
Proof.
  unfold QueryCache_unuse.
  destruct (cacheHeap w !! c) as [qc|] eqn:Hc; [|apply undisturbed_refl].
  unfold unuse_obj.
  destruct (unuse_arms qc); simpl; (repeat split; try done);
    intros c0 qc0 Hc0; simpl; rewrite lookup_insert;
    (destruct (decide (c = c0)) as [<-|]; [|eauto]); simplify_eq; eauto.
Qed.

Lemma undisturbed_subscribe c l w : undisturbed w (store_subscribe c l w).
Proof.
  repeat split; try done. intros c0 qc0 Hc0. simpl. rewrite lookup_alter.
  destruct (decide (c = c0)) as [<-|]; [|eauto]. rewrite Hc0. simpl.
  eexists. split; [done|]. intros p Hp. simpl. apply elem_of_app. by left.
Qed.

Lemma undisturbed_unsubscribe c o w :
  undisturbed w (store_unsubscribe c (LObserver o) w).
Proof.
  repeat split; try done. intros c0 qc0 Hc0. simpl. rewrite lookup_alter.
  destruct (decide (c = c0)) as [<-|]; [|eauto]. rewrite Hc0. simpl.
  eexists. split; [done|]. intros p Hp. simpl. apply list_elem_of_filter. done.
Qed.

Lemma undisturbed_clearRefetchTimeout o w :
  undisturbed w (QueryObserver_clearRefetchTimeout o w).
Proof.
  destruct (clearRefetchTimeout_fields o w) as (_&_&_&_&?&?&?&?&_).
  by apply undisturbed_same_heap.
Qed.

Lemma undisturbed_setRefetchTimeout o w :
  undisturbed w (QueryObserver_setRefetchTimeout o w).
Proof.
  destruct (setRefetchTimeout_fields o w) as (_&_&_&?&?&?&?&_).
  by apply undisturbed_same_heap.
Qed.

Lemma undisturbed_updateState o st prev w :
  undisturbed w (QueryObserver_updateState o st prev w).1.
Proof.
  destruct (updateState_frame o st prev w) as (?&?&?&?&?&?&?&?&?).
  apply undisturbed_same_heap; try done. apply updateState_promises.
Qed.

Lemma undisturbed_destroy o w : undisturbed w (QueryObserver_destroy o w).
Proof.
  unfold QueryObserver_destroy.
  destruct (observers w !! o) as [ob|]; [|apply undisturbed_refl].
  eapply undisturbed_trans; [|apply undisturbed_clearRefetchTimeout].
  eapply undisturbed_trans; [|apply undisturbed_unsubscribe].
  apply undisturbed_unuse.
Qed.

Lemma fetch_attaches c vars options w qc :
  wf w → cacheHeap w !! c = Some qc → status (state qc) = StLoading →
  (QueryCache_fetch c vars options w).1 = nextId w
  ∧ attached (QueryCache_fetch c vars options w).2 c
      (QueryCache_fetch c vars options w).1
  ∧ fetcherCalls (QueryCache_fetch c vars options w).2 = fetcherCalls w
  ∧ inflight (QueryCache_fetch c vars options w).2 = inflight w.
Proof.
  intros Hwf Hc Hl. unfold QueryCache_fetch. simpl. rewrite Hc.
  rewrite decide_True by done. unfold store_subscribe. simpl.
  repeat split; try done.
  - apply lookup_insert_eq.
  - exists (with_store (subscribe (LWaiter (nextId w))) qc). simpl.
    rewrite lookup_alter, decide_True by done. rewrite Hc. split; [done|].
    apply elem_of_app. right. apply list_elem_of_here.
Qed.

Lemma flight_fetch c p0 c' vars options w :
  wf w → inflight w !! p0 = Some c →
  flight_kept c p0 w (QueryCache_fetch c' vars options w).2.
Proof.
  intros Hwf Hp0.
  pose proof Hwf as [Hf (I1 & I3) (W1 & W2) _ _ _ _].
  destruct (I1 p0 c Hp0) as [Hpp0 (qc & Hc & Hst)].
  destruct (Hf (nextId w)) as (_&_&_&Hfp&_); [lia|].
  assert (p0 ≠ nextId w) as Hp0n by congruence.
  unfold QueryCache_fetch. simpl.
  set (w0 := with_promises _ _).
  assert (cacheHeap w0 = cacheHeap w) as Eh by done. rewrite <- Eh.
  assert (inflight w0 = inflight w) as Ei by done.
  assert (fetcherCalls w0 = fetcherCalls w) as Ef by done.
  assert (∀ p, attached w c p → attached w0 c p ∧ p ≠ nextId w) as Hatt.
  { intros p [Hp Hq]. assert (p ≠ nextId w) by congruence. split; [|done].
    split; [|done]. subst w0. simpl. by rewrite lookup_insert_ne. }
  assert (flight_kept c p0 w w0 →
          ∀ w', inflight w' !! p0 = Some c → calls_of c w' = calls_of c w0 →
                (∀ p, p ≠ nextId w → attached w0 c p → attached w' c p) →
                flight_kept c p0 w w') as Hgen.
  { intros (?&?&?) w' ? ? Hw'. split; [done|]. split; [congruence|].
    intros p Hp. destruct (Hatt p Hp). by apply Hw'. }
  assert (flight_kept c p0 w w0) as H0.
  { split; [by rewrite Ei|]. split; [unfold calls_of; by rewrite Ef|].
    intros p Hp. by destruct (Hatt p Hp). }
  specialize (Hgen H0). clearbody w0.
  destruct (cacheHeap w0 !! c') as [qc'|] eqn:Hc'; [|done].
  destruct (decide (status (state qc') = StLoading)) as [Hl|Hl]; simpl.
  - apply (flight_kept_trans _ _ _ w0); [done|].
    apply flight_undisturbed; [by rewrite Ei|apply undisturbed_subscribe].
  - assert (∀ out w', promises w' = promises w0 → cacheHeap w' = cacheHeap w0 →
                      inflight w' = inflight w0 →
                      calls_of c w' = calls_of c w0 →
                      flight_kept c p0 w (settle (nextId w) out w')) as Hsettle.
    { intros out w' Ep' Eh' Ei' Ec'.
      destruct (settle_fields (nextId w) out w')
        as (_&_&_&_&Eh''&Ei''&_&Ef''&_).
      apply Hgen; [by rewrite Ei'', Ei', Ei|unfold calls_of in *; by rewrite Ef''|].
      intros p Hp [Hpp Hq]. split; [|by rewrite Eh'', Eh'].
      rewrite settle_promises. rewrite decide_False by done. by rewrite Ep'. }
    destruct (_ && _); simpl; [by apply Hsettle|].
    destruct (_ && _); simpl; [by apply Hsettle|].
    assert (c' ≠ c) as Hcc.
    { intros ->. rewrite Eh in Hc'. congruence. }
    unfold QueryCache_startFetching.
    pose proof (store_setState_spec c' startFetching_merge w0 qc' Hc') as Hspec.
    destruct (store_setState c' startFetching_merge w0) as [w2 k].
    cbn [fst snd] in *.
    pose proof (setState_loading_promises c' qc' _ w0 w2 k Hspec eq_refl) as Ep'.
    destruct Hspec as [_ _ _ _ Ei' _ _ Ef' Eh' _ _].
    assert (∀ w', inflight w' !! p0 = Some c →
                  (∀ q, q ≠ nextId w → promises w' !! q = promises w2 !! q) →
                  cacheHeap w' = cacheHeap w2 →
                  (fetcherCalls w' = fetcherCalls w2
                   ∨ ∃ x, call_entry x = c'
                          ∧ fetcherCalls w' = fetcherCalls w2 ++ [x]) →
                  flight_kept c p0 w w') as Hfin.
    { intros w' Hi' Hp' Hh' Hf'. apply Hgen; [done| |].
      - unfold calls_of. destruct Hf' as [->|(x & Hx & ->)]; rewrite ?Ef'; [done|].
        rewrite filter_app, filter_cons_False, filter_nil, app_nil_r; [done|].
        by rewrite Hx.
      - intros p Hp [Hpp (qc0 & Hc0 & Hin)]. split.
        + by rewrite Hp', Ep'.
        + exists qc0. by rewrite Hh', Eh', lookup_insert_ne. }
    assert (∀ out w', (∀ q, q ≠ nextId w → promises w' !! q = promises w2 !! q) →
                      (∀ q, q ≠ nextId w →
                            promises (settle (nextId w) out w') !! q
                            = promises w2 !! q)) as Hps.
    { intros out w' H q Hq. rewrite settle_promises, decide_False by done. auto. }
    destruct k as [|e].
    + cbv zeta.
      match goal with |- context [throwing ?w' !! _] =>
        change (throwing w') with (throwing w2) end.
      destruct (throwing w2 !! fetcher qc') as [e|]; cbn [snd].
      * match goal with |- context [settle ?p ?out ?w'] =>
          destruct (settle_fields p out w') as (_&_&_&_&Eh''&Ei''&_&Ef''&_) end.
        apply Hfin.
        -- rewrite Ei''. simpl. by rewrite Ei', Ei.
        -- by apply Hps.
        -- by rewrite Eh''.
        -- right. eexists. split; [|by rewrite Ef'']. done.
      * apply Hfin; simpl.
        -- rewrite lookup_insert_ne by done. by rewrite Ei', Ei.
        -- done.
        -- done.
        -- right. eexists. split; [|done]. done.
    + destruct (settle_fields (nextId w) (Rejected e) w2)
        as (_&_&_&_&Eh''&Ei''&_&Ef''&_).
      cbn [snd]. apply Hfin.
      * by rewrite Ei'', Ei', Ei.
      * by apply Hps.
      * done.
      * by left.
Qed.

(** What the [.catch] callback of [fetch] changes. *)
Lemma fetch_catch_frame c p e w qc :
  cacheHeap w !! c = Some qc →
  nextId (fetch_catch c p e w) = nextId w
  ∧ queries (fetch_catch c p e w) = queries w
  ∧ inflight (fetch_catch c p e w) = inflight w
  ∧ timers (fetch_catch c p e w) = timers w
  ∧ fetcherCalls (fetch_catch c p e w) = fetcherCalls w
  ∧ cacheHeap (fetch_catch c p e w)
    = <[c := with_state (setError_merge (now w) e (state qc)) qc]> (cacheHeap w)
  ∧ (∀ q, q ≠ p → LWaiter q ∉ listeners (store qc) →
          promises (fetch_catch c p e w) !! q = promises w !! q).
Proof.
  intros Hc. unfold fetch_catch, QueryCache_setError.
  pose proof (store_setState_spec c (setError_merge (now w) e) w qc Hc) as Hspec.
  destruct (store_setState c (setError_merge (now w) e) w) as [w' k].
  cbn [fst snd] in *.
  pose proof (λ q, setState_promises_cases c qc _ w w' k q Hspec) as Hcases.
  destruct Hspec as [_ En _ Eq Ei Et _ Ef Eh _ _].
  assert (∀ out, nextId (settle p out w') = nextId w
                 ∧ queries (settle p out w') = queries w
                 ∧ inflight (settle p out w') = inflight w
                 ∧ timers (settle p out w') = timers w
                 ∧ fetcherCalls (settle p out w') = fetcherCalls w
                 ∧ cacheHeap (settle p out w')
                   = <[c := with_state (setError_merge (now w) e (state qc)) qc]>
                       (cacheHeap w)
                 ∧ (∀ q, q ≠ p → LWaiter q ∉ listeners (store qc) →
                         promises (settle p out w') !! q = promises w !! q))
    as Hgen.
  { intros out.
    destruct (settle_fields p out w') as (_&En'&_&Eq'&Eh'&Ei'&Et'&Ef'&_).
    repeat split; try congruence.
    intros q Hq Hnw. rewrite settle_promises, decide_False by done.
    by destruct (Hcases q) as [->|[? _]]. }
  destruct k; apply Hgen.
Qed.

(** What the settling of a fetcher call changes. *)
Lemma fetcher_settled_frame p r w c qc :
  inflight w !! p = Some c → cacheHeap w !! c = Some qc →
  ∃ st,
    nextId (fetcher_settled p r w) = nextId w
    ∧ queries (fetcher_settled p r w) = queries w
    ∧ inflight (fetcher_settled p r w) = delete p (inflight w)
    ∧ timers (fetcher_settled p r w) = timers w
    ∧ fetcherCalls (fetcher_settled p r w) = fetcherCalls w
    ∧ cacheHeap (fetcher_settled p r w) = <[c := with_state st qc]> (cacheHeap w)
    ∧ (∀ q, q ≠ p → LWaiter q ∉ listeners (store qc) →
            promises (fetcher_settled p r w) !! q = promises w !! q).
Proof.
  intros Hp Hc. unfold fetcher_settled. rewrite Hp.
  set (w0 := with_inflight (delete p) w).
  assert (cacheHeap w0 !! c = Some qc) as Hc0 by done.
  assert (nextId w0 = nextId w ∧ queries w0 = queries w
          ∧ inflight w0 = delete p (inflight w) ∧ timers w0 = timers w
          ∧ fetcherCalls w0 = fetcherCalls w ∧ cacheHeap w0 = cacheHeap w
          ∧ promises w0 = promises w) as (En0&Eq0&Ei0&Et0&Ef0&Eh0&Ep0) by done.
  clearbody w0.
  assert (∀ e, ∃ st,
            nextId (fetch_catch c p e w0) = nextId w
            ∧ queries (fetch_catch c p e w0) = queries w
            ∧ inflight (fetch_catch c p e w0) = delete p (inflight w)
            ∧ timers (fetch_catch c p e w0) = timers w
            ∧ fetcherCalls (fetch_catch c p e w0) = fetcherCalls w
            ∧ cacheHeap (fetch_catch c p e w0)
              = <[c := with_state st qc]> (cacheHeap w)
            ∧ (∀ q, q ≠ p → LWaiter q ∉ listeners (store qc) →
                    promises (fetch_catch c p e w0) !! q = promises w !! q))
    as Hcatch.
  { intros e. destruct (fetch_catch_frame c p e w0 qc Hc0)
      as (?&?&?&?&?&?&Hpr).
    exists (setError_merge (now w0) e (state qc)).
    repeat split; try congruence.
    intros q Hq Hnw. rewrite Hpr by done. by rewrite Ep0. }
  destruct r as [[d|]|e]; [|apply Hcatch..].
  unfold QueryCache_setData.
  pose proof (store_setState_spec c (setData_merge (now w0) d) w0 qc Hc0) as Hspec.
  destruct (store_setState c (setData_merge (now w0) d) w0) as [w' k].
  cbn [fst snd] in *.
  pose proof (λ q, setState_promises_cases c qc _ w0 w' k q Hspec) as Hcases.
  destruct Hspec as [_ En _ Eq Ei Et _ Ef Eh _ _].
  destruct k as [|e'].
  - destruct (settle_fields p (Resolved (Some d)) w')
      as (_&En'&_&Eq'&Eh'&Ei'&Et'&Ef'&_).
    exists (setData_merge (now w0) d (state qc)).
    repeat split; try congruence.
    intros q Hq Hnw. rewrite settle_promises, decide_False by done.
    destruct (Hcases q) as [->|[? _]]; [by rewrite Ep0|done].
  - destruct (fetch_catch_frame c p e' w'
                (with_state (setData_merge (now w0) d (state qc)) qc))
      as (?&?&?&?&?&Eh'&Hpr); [by rewrite Eh, lookup_insert_eq|].
    exists (setError_merge (now w') e' (setData_merge (now w0) d (state qc))).
    repeat split; try congruence.
    + rewrite Eh', Eh, insert_insert_eq, Eh0. done.
    + intros q Hq Hnw. rewrite Hpr by done.
      destruct (Hcases q) as [->|[? _]]; [by rewrite Ep0|done].
Qed.

(** When the fetcher call settles and no listener throws in the
    broadcast, its caller and the promises attached to the entry are settled
    with its outcome. *)
Lemma flight_lands c p0 r w p qc :
  wf w → inflight w !! p0 = Some c → cacheHeap w !! c = Some qc →
  (settling_broadcast c p0 r w).2 = Normal →
  p = p0 ∨ attached w c p →
  promises (fetcher_settled p0 r w) !! p = Some (outcome p0 r).
Proof.
  intros Hwf Hp0 Hc Hk Hp.
  pose proof (wf_landed w p0 Hwf) as Hwf0.
  destruct Hwf as [_ (I1 & _) (W1 & _) _ _ _ _].
  destruct (I1 p0 c Hp0) as [Hpp0 _].
  assert (LWaiter p0 ∉ listeners (store qc)) as Hnw.
  { intros Hin. destruct (W1 c qc p0 Hc Hin). congruence. }
  assert (p ≠ p0 → promises w !! p = Some Pending
                   ∧ LWaiter p ∈ listeners (store qc)) as Hwait.
  { intros Hne. destruct Hp as [->|[Hpp (qc0 & Hc0 & Hin)]]; [done|].
    by simplify_eq. }
  unfold fetcher_settled. rewrite Hp0.
  set (w0 := with_inflight (delete p0) w) in *.
  assert (cacheHeap w0 !! c = Some qc) as Hc0 by done.
  assert (promises w0 = promises w) as Ep0 by done.
  assert ((settling_broadcast c p0 r w0).2 = Normal) as Hk0
    by (subst w0; by rewrite settling_broadcast_with_inflight).
  clearbody w0.
  assert (∀ merge out,
            (store_setState c merge w0).2 = Normal →
            waiter_outcome (merge (state qc)) = Some out →
            promises (settle p0 out (store_setState c merge w0).1) !! p
            = Some out) as Hgen.
  { intros merge out Hm Hout.
    pose proof (store_setState_spec c merge w0 qc Hc0) as Hspec.
    rewrite Hm in Hspec.
    pose proof (setState_promises_normal c qc _ w0 _ p Hspec) as Ep.
    rewrite settle_promises, Ep, Ep0, Hout.
    destruct (decide (p0 = p)) as [<-|Hne].
    + rewrite decide_False by done. by rewrite Hpp0.
    + destruct Hwait as [-> Hin]; [done|]. by rewrite decide_True. }
  destruct r as [[d|]|e]; simpl in Hk0.
  - unfold QueryCache_setData in *.
    pose proof (Hgen (setData_merge (now w0) d) (Resolved (Some d)) Hk0 eq_refl)
      as Hpr.
    destruct (store_setState c (setData_merge (now w0) d) w0) as [w' k].
    cbn [fst snd] in *. by subst k.
  - unfold fetch_catch, QueryCache_setError in *.
    pose proof (Hgen (setError_merge (now w0) (Some (undefinedDataError p0)))
                  (Rejected (Some (undefinedDataError p0))) Hk0 eq_refl) as Hpr.
    destruct (store_setState c _ w0) as [w' k]. cbn [fst snd] in *. by subst k.
  - unfold fetch_catch, QueryCache_setError in *.
    pose proof (Hgen (setError_merge (now w0) e) (Rejected e) Hk0 eq_refl)
      as Hpr.
    destruct (store_setState c _ w0) as [w' k]. cbn [fst snd] in *. by subst k.
Qed.

Lemma flight_settled c p0 p r w :
  wf w → inflight w !! p0 = Some c → p ≠ p0 →
  flight_kept c p0 w (fetcher_settled p r w).
Proof.
  intros Hwf Hp0 Hne.
  destruct (inflight w !! p) as [c'|] eqn:Hp;
    [|unfold fetcher_settled; rewrite Hp;
      by apply flight_undisturbed, undisturbed_refl].
  destruct Hwf as [_ (I1 & I3) (W1 & W2) _ _ _ _].
  destruct (I1 p c' Hp) as [Hpp (qc' & Hc' & Hst')].
  assert (c' ≠ c) as Hcc by (intros ->; apply Hne; by apply (I3 p p0 c)).
  destruct (fetcher_settled_frame p r w c' qc' Hp Hc')
    as (st & _ & _ & Ei & _ & Ef & Eh & Epr).
  split; [|split].
  - rewrite Ei, lookup_delete_ne; done.
  - unfold calls_of. by rewrite Ef.
  - intros q [Hq (qc & Hc & Hin)]. split.
    + rewrite Epr; [done| |].
      * intros ->. destruct (W1 c qc p Hc Hin). congruence.
      * intros Hin'. apply Hcc. by apply (W2 c' c qc' qc q).
    + exists qc. by rewrite Eh, lookup_insert_ne.
Qed.

(** ** One fetcher call at a time, for every run *)

Lemma undisturbed_store_observer o ob w :
  undisturbed w (with_observers (<[o := ob]>) w).
Proof. by apply undisturbed_same_heap. Qed.

Lemma flight_observer_fetch c p0 o w :
  wf w → inflight w !! p0 = Some c → flight_kept c p0 w (QueryObserver_fetch o w).
Proof.
  intros Hwf Hp. unfold QueryObserver_fetch.
  destruct (observers w !! o) as [ob|];
    [|by apply flight_undisturbed, undisturbed_refl].
  destruct (cacheHeap w !! cache ob);
    [by apply flight_fetch|by apply flight_undisturbed, undisturbed_refl].
Qed.

Lemma flight_observer_refetch c p0 o w :
  wf w → inflight w !! p0 = Some c → flight_kept c p0 w (QueryObserver_refetch o w).
Proof.
  intros Hwf Hp. unfold QueryObserver_refetch.
  destruct (observers w !! o) as [ob|];
    [|by apply flight_undisturbed, undisturbed_refl].
  destruct (cacheHeap w !! cache ob);
    [by apply flight_fetch|by apply flight_undisturbed, undisturbed_refl].
Qed.

Lemma flight_then_undisturbed c p0 w w1 w2 :
  flight_kept c p0 w w1 → undisturbed w1 w2 → flight_kept c p0 w w2.
Proof.
  intros H1 H2. apply (flight_kept_trans _ _ _ w1); [done|].
  apply flight_undisturbed; [by destruct H1|done].
Qed.

Lemma flight_mount c p0 o w :
  wf w → inflight w !! p0 = Some c → flight_kept c p0 w (QueryObserver_mount o w).
Proof.
  intros Hwf Hp. unfold QueryObserver_mount.
  destruct (observers w !! o) as [ob|];
    [|by apply flight_undisturbed, undisturbed_refl].
  set (w1 := if refetchOnMount (props ob) then _ else _).
  assert (flight_kept c p0 w w1) as H1.
  { subst w1. destruct (refetchOnMount (props ob));
      [by apply flight_observer_refetch|by apply flight_observer_fetch]. }
  clearbody w1.
  assert (flight_kept c p0 w (QueryObserver_setRefetchTimeout o
                                (QueryCache_use (cache ob) w1))) as H3.
  { eapply flight_then_undisturbed; [|apply undisturbed_setRefetchTimeout].
    eapply flight_then_undisturbed; [done|apply undisturbed_use]. }
  generalize dependent (QueryObserver_setRefetchTimeout o
                          (QueryCache_use (cache ob) w1)). intros w3 H3.
  destruct (cacheHeap w3 !! cache ob) as [qc|];
    [|eapply flight_then_undisturbed; [done|apply undisturbed_subscribe]].
  pose proof (undisturbed_updateState o (state qc) None w3) as H4.
  destruct (QueryObserver_updateState o (state qc) None w3) as [w4 [|e]];
    cbn [fst snd] in *.
  - eapply flight_then_undisturbed; [|apply undisturbed_subscribe].
    by eapply flight_then_undisturbed.
  - by eapply flight_then_undisturbed.
Qed.

Lemma flight_updateCacheTime c p0 o ct w :
  wf w → inflight w !! p0 = Some c →
  flight_kept c p0 w (QueryObserver_updateCacheTime o ct w).
Proof.
  intros Hwf Hp. unfold QueryObserver_updateCacheTime.
  destruct (observers w !! o) as [ob|] eqn:Ho;
    [|by apply flight_undisturbed, undisturbed_refl].
  case_decide; [|by apply flight_undisturbed, undisturbed_refl].
  match goal with |- context [with_observers ?f w] =>
    apply (flight_kept_trans _ _ _ (with_observers f w)) end.
  - by apply flight_undisturbed, undisturbed_store_observer.
  - apply flight_observer_fetch; [|done].
    apply wf_store_observer; try done.
    + by apply (observer_lt w o ob).
    + intros ob0. rewrite Ho. by intros [= <-].
Qed.

Lemma undisturbed_updateRefetchInterval o i w :
  undisturbed w (QueryObserver_updateRefetchInterval o i w).
Proof.
  unfold QueryObserver_updateRefetchInterval.
  destruct (observers w !! o) as [ob|]; [|apply undisturbed_refl].
  case_decide; [|apply undisturbed_refl].
  eapply undisturbed_trans; [|apply undisturbed_setRefetchTimeout].
  apply undisturbed_store_observer.
Qed.

Lemma flight_setProps c p0 o pp w :
  wf w → inflight w !! p0 = Some c →
  flight_kept c p0 w (QueryObserver_setProps o pp w).
Proof.
  intros Hwf Hp. unfold QueryObserver_setProps.
  set (w1 := match part_cacheTime pp, observers w !! o with
             | Some v, Some ob => _ | _, _ => w end).
  assert (flight_kept c p0 w w1) as H1.
  { subst w1. destruct (part_cacheTime pp), (observers w !! o);
      try (by apply flight_undisturbed, undisturbed_refl).
    case_decide; [by apply flight_updateCacheTime
                 |by apply flight_undisturbed, undisturbed_refl]. }
  clearbody w1.
  eapply flight_then_undisturbed; [done|].
  set (w2 := match part_refetchInterval pp, observers w1 !! o with
             | Some v, Some ob => _ | _, _ => w1 end).
  assert (undisturbed w1 w2) as H2.
  { subst w2. destruct (part_refetchInterval pp), (observers w1 !! o);
      try apply undisturbed_refl.
    case_decide; [apply undisturbed_updateRefetchInterval|apply undisturbed_refl]. }
  clearbody w2.
  eapply undisturbed_trans; [done|].
  destruct (part_select pp); [|apply undisturbed_refl].
  destruct (observers w2 !! o); [|apply undisturbed_refl].
  apply undisturbed_store_observer.
Qed.

Lemma flight_timer_fired c p0 t w :
  wf w → inflight w !! p0 = Some c → flight_kept c p0 w (timer_fired t w).
Proof.
  intros Hwf Hp. unfold timer_fired.
  destruct (timers w !! t) as [[c' d|c' d]|];
    [| |by apply flight_undisturbed, undisturbed_refl]; simpl.
  - apply flight_undisturbed; [done|].
    destruct (cacheHeap w !! c'); by apply undisturbed_same_heap.
  - destruct (cacheHeap w !! c') as [qc'|] eqn:Hc';
      [|apply flight_undisturbed; [done|by apply undisturbed_same_heap]].
    apply (flight_kept_trans _ _ _ (with_timers (delete t) w)).
    + apply flight_undisturbed; [done|by apply undisturbed_same_heap].
    + apply flight_fetch; [by apply wf_clearTimeout|done].
Qed.

Section SingleFlight.

Variable hashVariables : value → string.

Lemma undisturbed_findOrCreateCache q vars w :
  wf w → undisturbed w (Query_findOrCreateCache hashVariables q vars w).2.
Proof.
  intros [Hf _ _ _ _ _ _]. unfold Query_findOrCreateCache.
  destruct (Query_findCache hashVariables q vars w); [apply undisturbed_refl|].
  unfold Query_createCache. simpl.
  destruct (queries w !! q); [|by apply undisturbed_same_heap].
  simpl. repeat split; try done. intros c qc Hc. simpl.
  rewrite lookup_insert_ne; [eauto|]. intros <-.
  destruct (Hf (nextId w)) as (?&?&?&?&?); [lia|congruence].
Qed.

Lemma flight_new_observer c p0 cp w :
  wf w → inflight w !! p0 = Some c →
  flight_kept c p0 w (QueryObserver_new hashVariables cp w).2.
Proof.
  intros Hwf Hp. destruct (queries w !! ctor_query cp) as [Q|] eqn:HQ.
  - rewrite (new_observer_unfold hashVariables cp w Q HQ). cbn [fst snd].
    pose proof (wf_alloc w Hwf) as Hwf1.
    destruct (wf_findOrCreateCache hashVariables (ctor_query cp) Q
                (ctor_variables cp) (alloc w).2 Hwf1 HQ) as (Hwf2 & _).
    pose proof (undisturbed_findOrCreateCache (ctor_query cp) (ctor_variables cp)
                  (alloc w).2 Hwf1) as Hu2.
    destruct (findOrCreateCache_fields hashVariables (ctor_query cp)
                (ctor_variables cp) (alloc w).2) as (Eo & En & _).
    destruct (Query_findOrCreateCache hashVariables (ctor_query cp)
                (ctor_variables cp) (alloc w).2) as [c' w2]. cbn [fst snd] in *.
    set (ob0 := new_observer_object cp c').
    assert (undisturbed w (with_observers (<[nextId w := ob0]>) w2)) as Hu3.
    { eapply undisturbed_trans; [|apply undisturbed_store_observer].
      eapply undisturbed_trans; [|done]. by apply undisturbed_same_heap. }
    apply (flight_kept_trans _ _ _ (with_observers (<[nextId w := ob0]>) w2)).
    + by apply flight_undisturbed.
    + apply flight_mount.
      * apply wf_store_observer; [done|simpl in En; lia|].
        rewrite Eo. simpl. destruct Hwf as [Hf _ _ _ _ _ _].
        destruct (Hf (nextId w)) as (?&?&Hn&?&?); [lia|]. by rewrite Hn.
      * destruct Hu3 as (_&Ei&_). by rewrite Ei.
  - unfold QueryObserver_new. simpl. rewrite HQ. simpl.
    apply flight_undisturbed; [done|by apply undisturbed_same_heap].
Qed.

Lemma flight_step c p0 e w :
  wf w → inflight w !! p0 = Some c → not_settling p0 e →
  flight_kept c p0 w (step hashVariables w e).
Proof.
  intros Hwf Hp He.
  destruct e as [t|props|cp|o'|o' pp|c' vars options|c' vars|c'|c'|f thrown|p r|t
                  |o' l|o' l|q' vars'];
    simpl in *.
  - apply flight_undisturbed; [done|by apply undisturbed_same_heap].
  - apply flight_undisturbed; [done|by apply undisturbed_same_heap].
  - by apply flight_new_observer.
  - apply flight_undisturbed; [done|apply undisturbed_destroy].
  - by apply flight_setProps.
  - by apply flight_fetch.
  - by apply flight_fetch.
  - apply flight_undisturbed; [done|apply undisturbed_use].
  - apply flight_undisturbed; [done|apply undisturbed_unuse].
  - apply flight_undisturbed; [done|by apply undisturbed_same_heap].
  - by apply flight_settled.
  - by apply flight_timer_fired.
  - apply flight_undisturbed; [done|by apply undisturbed_same_heap].
  - apply flight_undisturbed; [done|by apply undisturbed_same_heap].
  - apply flight_undisturbed; [done|by apply undisturbed_findOrCreateCache].
Qed.

Lemma flight_run c p0 evs w :
  wf w → inflight w !! p0 = Some c → Forall (not_settling p0) evs →
  flight_kept c p0 w (run hashVariables w evs).
Proof.
  revert w. induction evs as [|e evs IH]; intros w Hwf Hp Hevs; simpl.
  - by apply flight_undisturbed, undisturbed_refl.
  - inversion Hevs as [|? ? He Hevs']; subst.
    pose proof (flight_step c p0 e w Hwf Hp He) as H1.
    apply (flight_kept_trans _ _ _ (step hashVariables w e)); [done|].
    apply IH; [by apply wf_step|by destruct H1|done].
Qed.

Lemma filter_none {A} (P : A → Prop) `{∀ x, Decision (P x)} (l : list A) :
  (∀ x, x ∈ l → ¬ P x) → filter P l = [].
Proof.
  induction l as [|y l IH]; intros Hl; [done|].
  rewrite filter_cons_False by (apply Hl, list_elem_of_here).
  apply IH. intros x Hx. by apply Hl, list_elem_of_further.
Qed.

(** The fetcher call that is pending was logged once. *)
Lemma pending_call_logged w p0 c qc :
  wf w → inflight w !! p0 = Some c → cacheHeap w !! c = Some qc →
  ∃ pre vars,
    calls_of c w = pre ++ [mkFetcherCall p0 c (fetcher qc) vars]
    ∧ calls_for p0 w = [mkFetcherCall p0 c (fetcher qc) vars].
Proof.
  intros [_ _ _ _ _ _ (_ & L2 & L3)] Hp Hc.
  destruct (L3 p0 c qc Hp Hc) as (pre & vars & Hlast).
  exists pre, vars. split; [done|].
  set (x := mkFetcherCall p0 c (fetcher qc) vars) in *.
  assert (x ∈ fetcherCalls w) as Hin.
  { assert (x ∈ calls_of c w) as H
      by (rewrite Hlast; apply elem_of_app; right; apply list_elem_of_here).
    unfold calls_of in H. by apply list_elem_of_filter in H as [_ ?]. }
  unfold calls_for. clear Hlast.
  induction (fetcherCalls w) as [|y l IH]; [by apply elem_of_nil in Hin|].
  rewrite fmap_cons in L2. apply NoDup_cons in L2 as [Hy L2].
  apply elem_of_cons in Hin as [<-|Hin].
  - rewrite filter_cons_True by done. f_equal.
    apply filter_none. intros z Hz Ez.
    apply Hy. simpl. rewrite <- Ez. apply list_elem_of_fmap. eauto.
  - rewrite filter_cons_False; [by apply IH|].
    intros Ey. apply Hy. rewrite Ey.
    change p0 with (call_promise x). apply list_elem_of_fmap. eauto.
Qed.

(** C1, amended: [fetch] or [refetch] on an entry that is ['loading'] calls
    no fetcher and returns a promise that waits on the store.  While a
    fetcher call is pending for the entry, it is the only one: it is the
    last call in the log of the entry, the fetcher was called once for it,
    and until it settles no event calls the fetcher for the entry again,
    while every call of [fetch] or [refetch] on the entry returns a promise
    that is attached to it.  When it settles, and no listener throws in the
    broadcast on the store of the entry, its caller and all the promises
    attached get the same outcome: the data, or the same error. *)
Theorem C1_fetch_while_loading_is_shared (w : World) (c : id) (qc : QueryCache) :
  reachable hashVariables w →
  cacheHeap w !! c = Some qc → status (state qc) = StLoading →
  (∀ vars options,
      attached (QueryCache_fetch c vars options w).2 c
        (QueryCache_fetch c vars options w).1
      ∧ fetcherCalls (QueryCache_fetch c vars options w).2 = fetcherCalls w
      ∧ inflight (QueryCache_fetch c vars options w).2 = inflight w)
  ∧ ∀ p0, inflight w !! p0 = Some c →
      (∀ p, inflight w !! p = Some c → p = p0)
      ∧ (∃ pre vars,
           calls_of c w = pre ++ [mkFetcherCall p0 c (fetcher qc) vars]
           ∧ calls_for p0 w = [mkFetcherCall p0 c (fetcher qc) vars])
      ∧ ∀ evs, Forall (not_settling p0) evs →
          calls_of c (run hashVariables w evs) = calls_of c w
          ∧ inflight (run hashVariables w evs) !! p0 = Some c
          ∧ (∀ evs1 e evs2 p,
               evs = evs1 ++ e :: evs2 →
               fetch_call c e (run hashVariables w evs1) = Some p →
               attached (run hashVariables w evs) c p)
          ∧ (∀ r p,
               (settling_broadcast c p0 r (run hashVariables w evs)).2 = Normal →
               p = p0 ∨ attached (run hashVariables w evs) c p →
               promises (fetcher_settled p0 r (run hashVariables w evs)) !! p
               = Some (outcome p0 r)).
Proof.
  intros Hr Hc Hl. pose proof (reachable_wf hashVariables w Hr) as Hwf.
  split.
  { intros vars options.
    by destruct (fetch_attaches c vars options w qc Hwf Hc Hl) as (_&?&?&?). }
  intros p0 Hp0.
  pose proof Hwf as [_ (I1 & I3) _ _ _ _ _].
  split; [intros p Hp; by apply (I3 p p0 c)|].
  split; [by apply pending_call_logged|].
  intros evs Hevs.
  destruct (flight_run c p0 evs w Hwf Hp0 Hevs) as (Hp0' & Hcalls & _).
  split; [done|]. split; [done|]. split.
  - intros evs1 e evs2 p -> Hcall.
    apply Forall_app in Hevs as [Hevs1 Hevs2].
    inversion Hevs2 as [|? ? He Hevs2']; subst.
    unfold run. rewrite foldl_app. cbn [foldl].
    fold (run hashVariables w evs1).
    pose proof (wf_run hashVariables evs1 w Hwf) as Hwf1.
    destruct (flight_run c p0 evs1 w Hwf Hp0 Hevs1) as (Hp1 & _ & _).
    generalize dependent (run hashVariables w evs1). intros w1 Hcall Hwf1 Hp1.
    pose proof Hwf1 as [_ (J1 & _) _ _ _ _ _].
    destruct (J1 p0 c Hp1) as [_ (qc1 & Hc1 & Hl1)].
    assert (attached (step hashVariables w1 e) c p) as Hatt.
    { destruct e as [| | | | |c' vars options|c' vars| | | | | | | |]; simpl in Hcall;
        try done; (case_decide; [subst|done]); injection Hcall as <-; simpl.
      - by destruct (fetch_attaches c vars options w1 qc1 Hwf1 Hc1 Hl1)
          as (_&?&_).
      - by destruct (fetch_attaches c vars (Some (Num 0)) w1 qc1 Hwf1 Hc1 Hl1)
          as (_&?&_). }
    pose proof (flight_step c p0 e w1 Hwf1 Hp1 He) as (Hp2 & _ & _).
    destruct (flight_run c p0 evs2 (step hashVariables w1 e)) as (_ & _ & Hk);
      [by apply wf_step|done|done|].
    by apply Hk.
  - intros r p Hk Hp.
    pose proof (wf_run hashVariables evs w Hwf) as [_ (J1 & _) _ _ _ _ _].
    destruct (J1 p0 c Hp0') as [_ (qc' & Hc' & _)].
    apply (flight_lands c p0 r _ p qc'); try done. by apply wf_run.
Qed.

End SingleFlight.

(** ** Eviction *)

Lemma keys_still_refl w : keys_still w w.
Proof. by repeat split. Qed.

Lemma keys_still_trans w1 w2 w3 :
  keys_still w1 w2 → keys_still w2 w3 → keys_still w1 w3.
Proof.
  intros (? & Ha & Hta) (? & Hb & Htb). split; [congruence|]. split.
  - intros c. by rewrite Hb, Ha.
  - intros t c d Ht. by apply Hta, Htb.
Qed.

Lemma keys_still_same w w' :
  queries w' = queries w → cacheHeap w' = cacheHeap w → timers w' = timers w →
  keys_still w w'.
Proof.
  intros ? E Et. split; [done|]. split.
  - intros c. unfold key_of. by rewrite E.
  - intros t c d. by rewrite Et.
Qed.

Lemma key_of_meta w w' c :
  meta <$> cacheHeap w' !! c = meta <$> cacheHeap w !! c →
  key_of w' c = key_of w c.
Proof.
  unfold key_of. destruct (cacheHeap w' !! c), (cacheHeap w !! c); simpl;
    try done.
  unfold meta. intros [= -> _ _ -> _ _]. done.
Qed.

(** The entry [c] stays in its table, with no eviction timer armed for its
    key, when the tables and the keys are the same and the eviction timers
    that are new are for entries with another key. *)
Lemma unarmed_frame w w' c :
  queries w' = queries w → (∀ c0, key_of w' c0 = key_of w c0) →
  (∀ t c' d, timers w' !! t = Some (TOnClear c' d) →
             timers w !! t = Some (TOnClear c' d) ∨ ¬ same_key w c c') →
  unarmed w c → unarmed w' c.
Proof.
  intros Eq Ek Ht [(qc & Hc & Q & HQ & Hk) Hno].
  assert (∀ c', same_key w' c c' → same_key w c c') as Hsame.
  { intros c' [? ?]. unfold same_key. by rewrite <- !Ek. }
  split.
  - pose proof (Ek c) as E. unfold key_of in E. rewrite Hc in E.
    destruct (cacheHeap w' !! c) as [qc'|] eqn:Hc'; simpl in E; [|done].
    injection E as Eo Eh. exists qc'. split; [done|].
    exists Q. rewrite Eq, Eo, Eh. done.
  - intros t c' d Htc Hs. destruct (Ht t c' d Htc) as [Hold|Hn].
    + by apply (Hno t c' d Hold), Hsame.
    + by apply Hn, Hsame.
Qed.

Lemma unarmed_keys_still w w' c : keys_still w w' → unarmed w c → unarmed w' c.
Proof. intros (Eq & Ek & Ht). apply unarmed_frame; auto. Qed.

Lemma keys_still_fetch c vars options w :
  keys_still w (QueryCache_fetch c vars options w).2.
Proof.
  destruct (fetch_fetch_frame c vars options w) as [_ _ _ Eq Et Em _].
  split; [done|]. split; [intros c0; apply key_of_meta, Em|].
  intros t c0 d. by rewrite Et.
Qed.

Lemma keys_still_fetcher_settled p r w : wf w → keys_still w (fetcher_settled p r w).
Proof.
  intros [_ (I1 & _) _ _ _ _ _].
  destruct (inflight w !! p) as [c|] eqn:Hp.
  - destruct (I1 p c Hp) as [_ (qc & Hc & _)].
    destruct (fetcher_settled_frame p r w c qc Hp Hc)
      as (st & _ & Eq & _ & Et & _ & Eh & _).
    split; [done|]. split.
    + intros c0. unfold key_of. rewrite Eh, lookup_insert.
      case_decide; subst; by rewrite ?Hc.
    + intros t c0 d. by rewrite Et.
  - unfold fetcher_settled. rewrite Hp. apply keys_still_refl.
Qed.

Lemma keys_still_alter_store f c w :
  keys_still w (with_cacheHeap (alter (with_store f) c) w).
Proof.
  split; [done|]. split; [|done]. intros c0. unfold key_of. simpl.
  rewrite lookup_alter. case_decide; subst; [|done].
  by destruct (cacheHeap w !! c0).
Qed.

Lemma keys_still_clearRefetchTimeout o w :
  keys_still w (QueryObserver_clearRefetchTimeout o w).
Proof.
  unfold QueryObserver_clearRefetchTimeout.
  destruct (observers w !! o) as [ob|]; [|apply keys_still_refl].
  destruct (refetchTimeoutId ob) as [t|]; [|apply keys_still_refl].
  split; [done|]. split; [done|]. intros t0 c d. simpl.
  rewrite lookup_delete. by case_decide.
Qed.

Lemma keys_still_setRefetchTimeout o w :
  keys_still w (QueryObserver_setRefetchTimeout o w).
Proof.
  unfold QueryObserver_setRefetchTimeout.
  pose proof (keys_still_clearRefetchTimeout o w) as H1.
  generalize dependent (QueryObserver_clearRefetchTimeout o w). intros w1 H1.
  eapply keys_still_trans; [done|].
  destruct (observers w1 !! o) as [ob|]; [|apply keys_still_refl].
  destruct (cacheHeap w1 !! cache ob) as [qc|]; [|apply keys_still_refl].
  destruct (_ && _); [|apply keys_still_refl]. simpl.
  split; [done|]. split; [done|]. intros t c d. simpl.
  rewrite lookup_insert. by case_decide.
Qed.

Lemma keys_still_updateState o st prev w :
  keys_still w (QueryObserver_updateState o st prev w).1.
Proof.
  destruct (updateState_frame o st prev w) as (_&_&_&?&?&_&?&_).
  by apply keys_still_same.
Qed.

Lemma keys_still_observer_fetch o w : keys_still w (QueryObserver_fetch o w).
Proof.
  unfold QueryObserver_fetch.
  destruct (observers w !! o) as [ob|]; [|apply keys_still_refl].
  destruct (cacheHeap w !! cache ob);
    [apply keys_still_fetch|apply keys_still_refl].
Qed.

Lemma keys_still_observer_refetch o w : keys_still w (QueryObserver_refetch o w).
Proof.
  unfold QueryObserver_refetch.
  destruct (observers w !! o) as [ob|]; [|apply keys_still_refl].
  destruct (cacheHeap w !! cache ob);
    [apply keys_still_fetch|apply keys_still_refl].
Qed.

Lemma keys_still_setProps o pp w : keys_still w (QueryObserver_setProps o pp w).
Proof.
  unfold QueryObserver_setProps.
  set (w1 := match part_cacheTime pp, observers w !! o with
             | Some v, Some ob => _ | _, _ => w end).
  assert (keys_still w w1) as H1.
  { subst w1. destruct (part_cacheTime pp), (observers w !! o) as [ob|] eqn:Ho;
      try apply keys_still_refl.
    case_decide; [|apply keys_still_refl].
    unfold QueryObserver_updateCacheTime. rewrite Ho.
    case_decide; [|apply keys_still_refl].
    eapply keys_still_trans; [|apply keys_still_observer_fetch].
    by apply keys_still_same. }
  clearbody w1.
  set (w2 := match part_refetchInterval pp, observers w1 !! o with
             | Some v, Some ob => _ | _, _ => w1 end).
  assert (keys_still w1 w2) as H2.
  { subst w2.
    destruct (part_refetchInterval pp), (observers w1 !! o) as [ob|] eqn:Ho;
      try apply keys_still_refl.
    case_decide; [|apply keys_still_refl].
    unfold QueryObserver_updateRefetchInterval. rewrite Ho.
    case_decide; [|apply keys_still_refl].
    eapply keys_still_trans; [|apply keys_still_setRefetchTimeout].
    by apply keys_still_same. }
  clearbody w2.
  apply (keys_still_trans _ w1); [done|]. apply (keys_still_trans _ w2); [done|].
  destruct (part_select pp); [|apply keys_still_refl].
  destruct (observers w2 !! o); [|apply keys_still_refl].
  by apply keys_still_same.
Qed.

(** [use] arms no timer. *)
Lemma keys_still_use c w : keys_still w (QueryCache_use c w).
Proof.
  unfold QueryCache_use.
  destruct (cacheHeap w !! c) as [qc|] eqn:Hc; [|apply keys_still_refl].
  assert (∀ c0, key_of (with_cacheHeap (<[c := (use_obj qc).1]>) w) c0
                = key_of w c0) as Hk.
  { intros c0. unfold key_of. simpl. rewrite lookup_insert.
    case_decide; subst; by rewrite ?Hc. }
  simpl. destruct (clearTimeoutId qc) as [t|]; simpl.
  - split; [done|]. split; [done|]. intros t0 c0 d. simpl.
    rewrite lookup_delete. by case_decide.
  - split; [done|]. split; [done|]. done.
Qed.

(** [unuse] arms a timer for the entry it is called on only. *)
Lemma unarmed_unuse c c' w :
  ¬ same_key w c c' → unarmed w c → unarmed (QueryCache_unuse c' w) c.
Proof.
  intros Hne. unfold QueryCache_unuse.
  destruct (cacheHeap w !! c') as [qc'|] eqn:Hc'; [|done].
  unfold unuse_obj.
  destruct (unuse_arms qc'); simpl; apply unarmed_frame; try done;
    try (intros c0; unfold key_of; simpl; rewrite lookup_insert;
         case_decide; subst; by rewrite ?Hc').
  - intros t c0 d. simpl. rewrite lookup_insert.
    destruct (decide (nextId w = t)) as [<-|]; [|by left].
    intros [= <- <-]. by right.
  - intros t c0 d. simpl. by left.
Qed.

Lemma unarmed_destroy c o w :
  (∀ ob, observers w !! o = Some ob → ¬ same_key w c (cache ob)) →
  unarmed w c → unarmed (QueryObserver_destroy o w) c.
Proof.
  intros Hno Hu. unfold QueryObserver_destroy.
  destruct (observers w !! o) as [ob|] eqn:Ho; [|done].
  eapply unarmed_keys_still; [apply keys_still_clearRefetchTimeout|].
  eapply unarmed_keys_still; [apply keys_still_alter_store|].
  apply unarmed_unuse; [by apply Hno|done].
Qed.

Lemma keys_still_mount o w : keys_still w (QueryObserver_mount o w).
Proof.
  unfold QueryObserver_mount.
  destruct (observers w !! o) as [ob|]; [|apply keys_still_refl].
  set (w1 := if refetchOnMount (props ob) then _ else _).
  assert (keys_still w w1) as H1.
  { subst w1. destruct (refetchOnMount (props ob));
      [apply keys_still_observer_refetch|apply keys_still_observer_fetch]. }
  clearbody w1.
  assert (keys_still w (QueryObserver_setRefetchTimeout o
                          (QueryCache_use (cache ob) w1))) as H3.
  { eapply keys_still_trans; [|apply keys_still_setRefetchTimeout].
    eapply keys_still_trans; [done|apply keys_still_use]. }
  generalize dependent (QueryObserver_setRefetchTimeout o
                          (QueryCache_use (cache ob) w1)). intros w3 H3.
  destruct (cacheHeap w3 !! cache ob) as [qc|];
    [|eapply keys_still_trans; [done|apply keys_still_alter_store]].
  pose proof (keys_still_updateState o (state qc) None w3) as H4.
  destruct (QueryObserver_updateState o (state qc) None w3) as [w4 [|e]];
    cbn [fst snd] in *.
  - eapply keys_still_trans; [|apply keys_still_alter_store].
    by eapply keys_still_trans.
  - by eapply keys_still_trans.
Qed.

(** An eviction timer fires: the key that leaves the table is another. *)
Lemma unarmed_timer_fired c t w : unarmed w c → unarmed (timer_fired t w) c.
Proof.
  intros Hu. unfold timer_fired.
  destruct (timers w !! t) as [[c' d|c' d]|] eqn:Ht; [| |done]; simpl.
  - destruct (cacheHeap w !! c') as [qc'|] eqn:Hc'.
    + destruct Hu as [(qc & Hc & Q & HQ & Hk) Hno].
      assert (¬ same_key w c c') as Hne by (by apply (Hno t c' d)).
      split.
      * exists qc. split; [done|]. unfold in_table. simpl. rewrite lookup_alter.
        destruct (decide (onClear qc' = onClear qc)) as [Eo|Hno'];
          [|by eauto].
        rewrite Eo, HQ. simpl. eexists. split; [done|]. simpl.
        rewrite lookup_delete_ne; [done|]. intros Eh. apply Hne.
        unfold same_key, key_of. rewrite Hc, Hc'. simpl.
        split; [eauto|]. by rewrite Eo, Eh.
      * intros t0 c0 d0. simpl. rewrite lookup_delete.
        case_decide; [done|]. apply Hno.
    + eapply unarmed_keys_still; [|done].
      split; [done|]. split; [done|]. intros t0 c0 d0. simpl.
      rewrite lookup_delete. by case_decide.
  - assert (keys_still w (with_timers (delete t) w)) as H1.
    { split; [done|]. split; [done|]. intros t0 c0 d0. simpl.
      rewrite lookup_delete. by case_decide. }
    destruct (cacheHeap w !! c') as [qc'|].
    + eapply unarmed_keys_still; [|done].
      eapply keys_still_trans; [done|apply keys_still_fetch].
    + by eapply unarmed_keys_still.
Qed.

Lemma unarmed_createQuery c props w :
  wf w → unarmed w c → unarmed (QueryClient_createQuery props w).2 c.
Proof.
  intros [Hf _ _ _ _ _ _] [(qc & Hc & Q & HQ & Hk) Hno].
  split; [|done].
  exists qc. unfold QueryClient_createQuery, in_table. simpl.
  split; [done|]. exists Q. split; [|done].
  rewrite lookup_insert_ne; [done|]. intros E.
  destruct (Hf (nextId w)) as (?&?&?&?&?); [lia|congruence].
Qed.

Section Eviction.

Variable hashVariables : value → string.

Lemma unarmed_findOrCreateCache c q vars w :
  wf w → unarmed w c →
  unarmed (Query_findOrCreateCache hashVariables q vars w).2 c.
Proof.
  intros [Hf _ _ _ _ (_ & T2) _] Hu.
  unfold Query_findOrCreateCache, Query_findCache.
  destruct (queries w !! q) as [Q'|] eqn:HQ'; simpl.
  - destruct (caches Q' !! hashVariables vars) as [c'|] eqn:Hk'; simpl; [done|].
    unfold Query_createCache. simpl. rewrite HQ'. simpl.
    destruct Hu as [(qc & Hc & Q & HQ & Hk) Hno].
    destruct (Hf (nextId w)) as (_&Hfresh&_); [lia|].
    assert (nextId w ≠ c) as Hne by congruence.
    assert (∀ c0, c0 ≠ nextId w →
              key_of (with_queries
                        (alter (with_caches (<[hashVariables vars := nextId w]>)) q)
                        (with_cacheHeap
                           (<[nextId w :=
                                {| variablesHash := hashVariables vars;
                                   clearTime := qclearTime Q';
                                   usedCount := 0; onClear := q;
                                   clearTimeoutId := None; fetcher := qfetcher Q';
                                   store := mkStore (initialState vars) [] |}]>)
                           (alloc w).2)) c0
              = key_of w c0) as Ek.
    { intros c0 Hc0. unfold key_of. simpl. by rewrite lookup_insert_ne. }
    split.
    + exists qc. unfold in_table. simpl. rewrite lookup_insert_ne by done.
      split; [done|]. rewrite lookup_alter.
      destruct (decide (q = onClear qc)) as [->|Hnq]; [|by eauto].
      rewrite HQ. simpl. simplify_eq. eexists. split; [done|]. simpl.
      rewrite lookup_insert_ne; [done|]. intros Eh. rewrite Eh in Hk'. congruence.
    + intros t c0 d Ht [Hs Hk0]. simpl in Ht.
      destruct (T2 t c0 d Ht) as (qc0 & Hc0 & _).
      assert (c0 ≠ nextId w) as Hc0n by congruence.
      apply (Hno t c0 d Ht). unfold same_key.
      rewrite <- (Ek c) by done. rewrite <- (Ek c0) by done. done.
  - unfold Query_createCache. simpl. rewrite HQ'. simpl.
    eapply unarmed_keys_still; [|done]. by apply keys_still_same.
Qed.

Lemma unarmed_new_observer c cp w :
  wf w → unarmed w c → unarmed (QueryObserver_new hashVariables cp w).2 c.
Proof.
  intros Hwf Hu. destruct (queries w !! ctor_query cp) as [Q|] eqn:HQ.
  - rewrite (new_observer_unfold hashVariables cp w Q HQ). cbn [fst snd].
    eapply unarmed_keys_still; [apply keys_still_mount|].
    eapply unarmed_keys_still;
      [|apply unarmed_findOrCreateCache; [by apply wf_alloc|]].
    + by apply keys_still_same.
    + eapply unarmed_keys_still; [|done]. by apply keys_still_same.
  - unfold QueryObserver_new. simpl. rewrite HQ. simpl.
    eapply unarmed_keys_still; [|done]. by apply keys_still_same.
Qed.

Lemma unarmed_step c e w :
  wf w → (∀ c', same_key w c c' → ¬ unuses c' w e) →
  unarmed w c → unarmed (step hashVariables w e) c.
Proof.
  intros Hwf He Hu.
  destruct e as [t|props|cp|o'|o' pp|c' vars options|c' vars|c'|c'|f thrown|p r|t
                  |o' l|o' l|q' vars'];
    simpl in *.
  - eapply unarmed_keys_still; [|done]. by apply keys_still_same.
  - by apply unarmed_createQuery.
  - by apply unarmed_new_observer.
  - apply unarmed_destroy; [|done]. intros ob Ho Hs. apply (He _ Hs). eauto.
  - eapply unarmed_keys_still; [apply keys_still_setProps|done].
  - eapply unarmed_keys_still; [apply keys_still_fetch|done].
  - eapply unarmed_keys_still; [apply keys_still_fetch|done].
  - eapply unarmed_keys_still; [apply keys_still_use|done].
  - apply unarmed_unuse; [|done]. intros Hs. by apply (He _ Hs).
  - eapply unarmed_keys_still; [|done]. by apply keys_still_same.
  - eapply unarmed_keys_still; [by apply keys_still_fetcher_settled|done].
  - by apply unarmed_timer_fired.
  - eapply unarmed_keys_still; [|done]. by apply keys_still_same.
  - eapply unarmed_keys_still; [|done]. by apply keys_still_same.
  - by apply unarmed_findOrCreateCache.
Qed.

Lemma unarmed_run c evs w :
  wf w → key_never_unused hashVariables c w evs → unarmed w c →
  unarmed (run hashVariables w evs) c.
Proof.
  revert w. induction evs as [|e evs IH]; intros w Hwf Hevs Hu; simpl; [done|].
  destruct Hevs as [He Hevs].
  apply IH; [by apply wf_step|done|by apply unarmed_step].
Qed.

Lemma unuse_arms_spec (qc : QueryCache) (n : Z) :
  unuse_arms qc = Some n
  ↔ usedCount qc - 1 = 0 ∧ clearTime qc = Num n ∧ 0 < n
    ∧ clearTimeoutId qc = None.
Proof.
  unfold unuse_arms. destruct (clearTime qc) as [m|].
  - split.
    + destruct (_ && _) eqn:E; [|done]. intros [= ->].
      apply andb_true_iff in E as [E E3]. apply andb_true_iff in E as [E1 E2].
      apply bool_decide_eq_true in E1, E2, E3. repeat split; try done. lia.
    + intros (H1 & [= ->] & H2 & H3).
      rewrite !bool_decide_eq_true_2; [done|done|lia|done].
  - split; [done|]. by intros (_ & ? & _).
Qed.

(** C4, amended: [unuse] arms an eviction timer exactly when the count
    reaches [0], the delay is finite and positive and no timer is remembered
    (with delay [0] or [Infinity] it arms none), and it never removes the
    entry from the table itself.  [use] adds one to the count and cancels
    the eviction timer of the entry, which is the one the entry remembers:
    that timer is armed no more.  After [use] the entry stays in the table
    of its query as long as no eviction timer is armed for its key: when
    none is armed for another entry with that key, and whatever happens, as
    long as [unuse] is not called on an entry with that key. *)
Theorem C4_eviction_timer (w : World) (c : id) (qc : QueryCache) :
  reachable hashVariables w → cacheHeap w !! c = Some qc →
  timers (QueryCache_unuse c w)
  = match unuse_arms qc with
    | Some n => <[nextId w := TOnClear c n]> (timers w)
    | None => timers w
    end
  ∧ (∀ n, unuse_arms qc = Some n
          ↔ usedCount qc - 1 = 0 ∧ clearTime qc = Num n ∧ 0 < n
            ∧ clearTimeoutId qc = None)
  ∧ queries (QueryCache_unuse c w) = queries w
  ∧ (∃ qc', cacheHeap (QueryCache_use c w) !! c = Some qc'
            ∧ usedCount qc' = usedCount qc + 1
            ∧ clearTimeoutId qc' = None)
  ∧ (∀ t d, timers w !! t = Some (TOnClear c d) →
            clearTimeoutId qc = Some t
            ∧ timers (QueryCache_use c w) = delete t (timers w)
            ∧ timers (QueryCache_use c w) !! t = None)
  ∧ (in_table w c qc →
     (∀ t c' d, timers w !! t = Some (TOnClear c' d) → same_key w c c' →
                c' = c) →
     ∀ evs, key_never_unused hashVariables c (QueryCache_use c w) evs →
            listed (run hashVariables (QueryCache_use c w) evs) c).
Proof.
  intros Hr Hc. pose proof (reachable_wf hashVariables w Hr) as Hwf.
  assert (∀ t d, timers w !! t = Some (TOnClear c d) →
                 clearTimeoutId qc = Some t) as Hmine.
  { intros t d Ht. destruct Hwf as [_ _ _ _ _ (_ & T2) _].
    destruct (T2 t c d Ht) as (qc0 & Hc0 & Hid). by simplify_eq. }
  split; [|split; [|split; [|split; [|split]]]].
  - unfold QueryCache_unuse, unuse_obj. rewrite Hc.
    by destruct (unuse_arms qc).
  - apply unuse_arms_spec.
  - unfold QueryCache_unuse, unuse_obj. rewrite Hc.
    by destruct (unuse_arms qc).
  - unfold QueryCache_use. rewrite Hc. exists (use_obj qc).1. simpl.
    destruct (clearTimeoutId qc); simpl; by rewrite lookup_insert_eq.
  - intros t d Ht. pose proof (Hmine t d Ht) as Hid. split; [done|].
    unfold QueryCache_use. rewrite Hc. simpl. rewrite Hid. simpl.
    split; [done|]. apply lookup_delete_eq.
  - intros Htab Hrival evs Hevs.
    assert (unarmed (QueryCache_use c w) c) as Hu.
    { pose proof (keys_still_use c w) as (Eq & Ek & _).
      split.
      - unfold QueryCache_use. rewrite Hc.
        assert (∀ w', queries w' = queries w →
                      cacheHeap w' = <[c := (use_obj qc).1]> (cacheHeap w) →
                      listed w' c) as Hgen.
        { intros w' Eq' Eh. exists (use_obj qc).1. unfold in_table.
          rewrite Eh, Eq', lookup_insert_eq. done. }
        simpl. destruct (clearTimeoutId qc); by apply Hgen.
      - intros t c' d Ht [Hs Hk]. rewrite !Ek in Hk. rewrite Ek in Hs.
        unfold QueryCache_use in Ht. rewrite Hc in Ht. simpl in Ht.
        destruct (clearTimeoutId qc) as [t0|] eqn:Hid; simpl in Ht.
        + rewrite lookup_delete in Ht. case_decide as Hne; [done|].
          assert (c' = c) as -> by (by apply (Hrival t c' d)).
          apply Hne. pose proof (Hmine t d Ht). congruence.
        + assert (c' = c) as -> by (by apply (Hrival t c' d)).
          pose proof (Hmine t d Ht). congruence. }
    destruct (unarmed_run c evs (QueryCache_use c w)) as [Hl _];
      [by apply wf_use|done|done|done].
Qed.

End Eviction.

(** * The properties on the example worlds *)

Lemma reachable_world_registered : reachable demo_hash world_registered.
Proof. apply reachable_run, reachable_initial. Qed.

Lemma reachable_world_loading : reachable demo_hash world_loading.
Proof. apply reachable_run, reachable_world_registered. Qed.

Lemma reachable_world_success : reachable demo_hash world_success.
Proof. apply reachable_run, reachable_world_loading. Qed.

Lemma reachable_world_shared : reachable demo_hash world_shared.
Proof. apply reachable_run, reachable_world_loading. Qed.

Lemma reachable_world_unused : reachable demo_hash world_unused.
Proof. apply reachable_run, reachable_world_success. Qed.

Lemma reachable_world_mixed : reachable demo_hash world_mixed.
Proof. apply reachable_run, reachable_world_loading. Qed.

Lemma reachable_world_stale : reachable demo_hash world_stale.
Proof. apply reachable_run, reachable_world_unused. Qed.


(** C1, as it is stated, fails: in [world_mixed] the fetcher resolves with
    ["alice"]; the promise [5], which waits before the observer [6], is
    resolved with it; then the transform of the observer [6] throws, and
    the promise [4] of the caller is rejected with what it throws. *)
Lemma C1_throwing_transform_splits_outcomes : ¬ same_outcome_for_all demo_hash.
Proof.
  intros H.
  specialize (H world_mixed 3%positive 4%positive 5%positive
                (FResolved (Some (VStr "alice"))) reachable_world_mixed).
  assert (promises
            (fetcher_settled 4 (FResolved (Some (VStr "alice"))) world_mixed)
            !! 5%positive
          ≠ promises
              (fetcher_settled 4 (FResolved (Some (VStr "alice"))) world_mixed)
              !! 4%positive) as Hne by (by vm_compute).
  apply Hne, H; [by vm_compute|].
  split; [by vm_compute|]. eexists. split; [by vm_compute|].
  apply (bool_decide_unpack _). by vm_compute.
Qed.

(** Two calls on the loading entry [3], for which the fetcher was called
    once: it is not called again, and when it resolves with ["alice"], the
    promises [5] and [6] of the two calls and the promise [4] of the call
    that is pending are resolved with it. *)
Lemma C1_witness :
  calls_for 4 world_loading = [mkFetcherCall 4 3 100 (VStr "a")]
  ∧ calls_of 3
      (run demo_hash world_loading
         [EvFetch 3 (VStr "a") None; EvRefetch 3 (VStr "a")])
    = [mkFetcherCall 4 3 100 (VStr "a")]
  ∧ Forall
      (λ p, promises
              (fetcher_settled 4 (FResolved (Some (VStr "alice")))
                 (run demo_hash world_loading
                    [EvFetch 3 (VStr "a") None; EvRefetch 3 (VStr "a")]))
            !! p = Some (Resolved (Some (VStr "alice"))))
      [4; 5; 6]%positive.
Proof.
  destruct (cacheHeap world_loading !! 3%positive) as [qc|] eqn:Hc;
    [|by vm_compute in Hc].
  destruct (C1_fetch_while_loading_is_shared demo_hash world_loading 3 qc
              reachable_world_loading Hc)
    as (_ & H).
  { vm_compute in Hc. by injection Hc as <-. }
  destruct (H 4%positive) as (_ & (pre & vars & Hlast & Hfor) & Hrun);
    [by vm_compute|].
  destruct (Hrun [EvFetch 3 (VStr "a") None; EvRefetch 3 (VStr "a")])
    as (Hcalls & _ & Hatt & Hland).
  { by repeat constructor. }
  split; [|split].
  - rewrite Hfor. clear -Hc Hlast. vm_compute in Hc. injection Hc as <-.
    vm_compute in Hlast. destruct pre as [|? [|? ?]]; by injection Hlast as <-.
  - rewrite Hcalls. reflexivity.
  - constructor; [|constructor; [|constructor; [|constructor]]];
      apply (Hland (FResolved (Some (VStr "alice"))) _ eq_refl);
      [by left|right..].
    + by apply (Hatt [] (EvFetch 3 (VStr "a") None) [EvRefetch 3 (VStr "a")]).
    + by apply (Hatt [EvFetch 3 (VStr "a") None] (EvRefetch 3 (VStr "a")) []).
Defined.

(** The entry [3] has the data ["alice"], stamped at time [5]; at time [5]
    it is fresh for every window that is positive. *)
Lemma C3_witness :
  promises (QueryCache_fetch 3 (VStr "a") (Some (Num 1)) world_success).2
    !! (QueryCache_fetch 3 (VStr "a") (Some (Num 1)) world_success).1
  = Some (Resolved (Some (VStr "alice")))
  ∧ fetcherCalls (QueryCache_fetch 3 (VStr "a") (Some (Num 1)) world_success).2
    = fetcherCalls world_success.
Proof.
  destruct (cacheHeap world_success !! 3%positive) as [qc|] eqn:Hc;
    [|by vm_compute in Hc].
  destruct (C3_fresh_fetch_returns_cached world_success 3 qc (VStr "a")
              (Some (Num 1)) Hc)
    as (_ & Hp & Hf & _).
  - vm_compute in Hc. by injection Hc as <-.
  - unfold QueryCache_isFresh. rewrite Hc.
    vm_compute in Hc. by injection Hc as <-.
  - vm_compute in Hc. injection Hc as <-. by left.
  - split; [|done]. rewrite Hp.
    vm_compute in Hc. by injection Hc as <-.
Defined.

(** C4, as it is stated, fails: in [world_stale] the eviction timer [9] of
    the entry [7] is armed, and [use] cancels it; then [use] and [unuse] are
    called on the entry [3], which was in the table under the same key
    before: its timer [10] is armed, and when it fires the key leaves the
    table, and the entry [7] with it. *)
Lemma C4_stale_entry_evicts : ¬ use_prevents_eviction demo_hash.
Proof.
  intros H.
  specialize (H world_stale 7%positive 9%positive 1000
                [EvUse 3; EvUnuse 3; EvTimer 10] reachable_world_stale).
  destruct H as (qc & Hc & Q & HQ & Hk).
  - eexists. split; [by vm_compute|]. eexists. split; by vm_compute.
  - by vm_compute.
  - cbn [never_unused unuses]. repeat split; try (by intros []). by intros [=].
  - vm_compute in Hc. injection Hc as <-.
    vm_compute in HQ. injection HQ as <-. by vm_compute in Hk.
Qed.

(** The timer [5] of the entry [3] is armed; [use] cancels it, and then
    neither the old timer nor the passing of time evicts the entry. *)
Lemma C4_witness :
  timers world_unused !! 5%positive = Some (TOnClear 3 1000)
  ∧ timers (QueryCache_use 3 world_unused) !! 5%positive = None
  ∧ usedCount_of 3 (QueryCache_use 3 world_unused) = 1
  ∧ listed
      (run demo_hash (QueryCache_use 3 world_unused) [EvTimer 5; EvClock 2000])
      3.
Proof.
  destruct (cacheHeap world_unused !! 3%positive) as [qc|] eqn:Hc;
    [|by vm_compute in Hc].
  destruct (C4_eviction_timer demo_hash world_unused 3 qc
              reachable_world_unused Hc)
    as (_ & _ & _ & (qc' & Hc' & Hn & _) & Hclear & Hstay).
  assert (timers world_unused !! 5%positive = Some (TOnClear 3 1000)) as Ht
    by reflexivity.
  destruct (Hclear 5%positive 1000 Ht) as (_ & _ & Hgone).
  split; [exact Ht|]. split; [exact Hgone|]. split.
  - unfold usedCount_of. rewrite Hc', Hn. clear -Hc.
    vm_compute in Hc. by injection Hc as <-.
  - apply Hstay.
    + clear -Hc. vm_compute in Hc. injection Hc as <-.
      exists (mkQuery "users" 100 (Num 1000) {[ "a" := 3%positive ]}).
      by vm_compute.
    + intros t c' d Htc _.
      assert (timers world_unused = {[ 5%positive := TOnClear 3 1000 ]}) as Et
        by reflexivity.
      rewrite Et in Htc. apply lookup_singleton_Some in Htc as [_ Htc].
      by injection Htc as <- _.
    + cbn [key_never_unused unuses]. repeat split; by intros ? ? [].
Defined.

(** C5, as it is stated, fails: the second [createQuery] for ["users"]
    returns a new query, object [2], and not the query [1] that was there. *)
Lemma C5_second_registration_replaces : ¬ first_registration_wins.
Proof.
  intros H.
  destruct (H world_registered users_props_again 1%positive) as [Hq _].
  - by vm_compute.
  - by vm_compute in Hq.
Qed.

Lemma C5_witness :
  QueryClient_findQuery "users"
    (QueryClient_createQuery users_props_again world_registered).2
  = Some 2%positive
  ∧ queries (QueryClient_createQuery users_props_again world_registered).2
      !! 2%positive
    = Some (Query_new users_props_again).
Proof.
  destruct (C5_createQuery_replaces demo_hash world_registered users_props_again
              reachable_world_registered)
    as (_ & Hq & Hfind & _).
  split; [exact Hfind | exact Hq].
Defined.

Lemma C6_witness : usedCount_of 3 (QueryCache_unuse 3 world_loading) = 0.
Proof.
  destruct (cacheHeap world_loading !! 3%positive) as [qc|] eqn:Hc;
    [|by vm_compute in Hc].
  destruct (C6_unuse_decrements_unchecked world_loading 3 qc Hc) as [H _].
  rewrite H. vm_compute in Hc. by injection Hc as <-.
Defined.

Lemma C7_witness :
  promises (fetcher_settled 4 (FResolved None) world_loading) !! 4%positive
  = Some (Rejected (Some (undefinedDataError 4))).
Proof.
  destruct (C7_undefined_data_is_an_error demo_hash world_loading 4 3
              reachable_world_loading)
    as (qc & qc' & Hc & _ & Hp & He & _).
  - by vm_compute.
  - rewrite Hp, He; done.
Defined.



(** C9, as it is stated, fails: two observers use the entry [3]; the
    observer [2] is destroyed twice, and the second call takes the count
    from [1] to [0] and arms the eviction timer, while the observer [5] is
    still there. *)
Lemma C9_second_destroy_unuses_again : ¬ destroy_idempotent demo_hash.
Proof.
  intros H.
  destruct (observers world_shared !! 2%positive) as [ob|] eqn:Ho;
    [|by vm_compute in Ho].
  destruct (H world_shared 2%positive ob reachable_world_shared Ho) as [Hn _].
  vm_compute in Ho. injection Ho as <-. by vm_compute in Hn.
Qed.

Lemma C9_witness :
  usedCount_of 3 (QueryObserver_destroy 2 world_shared) = 1
  ∧ usedCount_of 3 (QueryObserver_destroy 2 (QueryObserver_destroy 2 world_shared))
    = 0.
Proof.
  destruct (observers world_shared !! 2%positive) as [ob|] eqn:Ho;
    [|by vm_compute in Ho].
  destruct (cacheHeap world_shared !! cache ob) as [qc|] eqn:Hc;
    [|vm_compute in Ho; injection Ho as <-; by vm_compute in Hc].
  destruct (C9_destroy_unuses_at_each_call world_shared 2 ob qc Ho Hc)
    as (qc1 & qc2 & ob1 & Hc1 & Hc2 & _ & Hn1 & _ & _ & _ & Hn2 & _).
  vm_compute in Ho. injection Ho as <-.
  vm_compute in Hc. injection Hc as <-.
  unfold usedCount_of. cbn [cache] in Hc1, Hc2. rewrite Hc1, Hc2, Hn1, Hn2.
  clear. split; reflexivity.
Defined.

(** A new observer of the entry [3], which has the data ["alice"]. *)
Lemma C10_witness :
  ∃ ob, observers (QueryObserver_new demo_hash (observer_a false) world_success).2
          !! 5%positive = Some ob
        ∧ o_data (ostate ob) = None
        ∧ isSuccess (ostate ob) = false
        ∧ originalData (ostate ob) = Some (VStr "alice").
Proof.
  destruct (C10_initial_state_not_transformed demo_hash (observer_a false)
              world_success
              (mkQuery "users" 100 (Num 1000) {[ "a" := 3%positive ]})
              reachable_world_success)
    as (ob & qc & Ho & Hc & Hd & Hs & Ho' & _).
  - by vm_compute.
  - exists ob. split; [exact Ho|]. split; [done|]. split; [done|].
    rewrite Ho'. clear Hd Hs Ho'.
    vm_compute in Ho. injection Ho as <-.
    vm_compute in Hc. by injection Hc as <-.
Defined.

(** * Runs of the examples *)

(** The sole observer of an entry is destroyed twice: the count is [-1]. *)
Example destroy_twice_count :
  usedCount_of 3 (run demo_hash world_loading [EvDestroy 2; EvDestroy 2]) = -1.
Proof. reflexivity. Qed.

(** Of the two observers of the entry [3] one is destroyed twice: the
    eviction timer [7] is armed, and when it fires the entry leaves the table
    of its query while the other observer still listens to it. *)
Example destroy_twice_evicts :
  timers (run demo_hash world_shared [EvDestroy 2; EvDestroy 2]) !! 7%positive
  = Some (TOnClear 3 1000)
  ∧ Query_findCache demo_hash 1 (VStr "a")
      (run demo_hash world_shared [EvDestroy 2; EvDestroy 2; EvTimer 7])
    = None
  ∧ (listeners ∘ store
     <$> cacheHeap
           (run demo_hash world_shared [EvDestroy 2; EvDestroy 2; EvTimer 7])
         !! 3%positive)
    = Some [LWaiter 6; LObserver 5].
Proof. repeat split. Qed.

(** The name ["users"] registered twice: the registry holds the second
    query, with the fetcher and the default clear time of the second call. *)
Example second_registration :
  QueryClient_findQuery "users"
    (run demo_hash initialWorld
       [EvCreateQuery users_props; EvCreateQuery users_props_again])
  = Some 2%positive
  ∧ queries
      (run demo_hash initialWorld
         [EvCreateQuery users_props; EvCreateQuery users_props_again])
    !! 2%positive
    = Some (Query_new users_props_again).
Proof. split; reflexivity. Qed.

(** The fetcher throws when it is called: the promise of the call is
    rejected with what it throws, and the entry stays ['loading'] with no
    fetcher call pending; a later [fetch] calls no fetcher and waits. *)
Example fetcher_throws_entry_stays_loading :
  let w := run demo_hash world_registered
             [EvFetcher 100 (Some (Some (VError (Given 3) "sync"))); EvClock 5;
              EvNewObserver (observer_a false); EvFetcher 100 None;
              EvFetch 3 (VStr "a") None] in
  status ∘ state <$> cacheHeap w !! 3%positive = Some StLoading
  ∧ inflight w = ∅
  ∧ promises w !! 4%positive = Some (Rejected (Some (VError (Given 3) "sync")))
  ∧ promises w !! 5%positive = Some Pending
  ∧ fetcherCalls w = [mkFetcherCall 4 3 100 (VStr "a")].
Proof. repeat split. Qed.

(** Data that are [NaN] are transformed again at every broadcast: here at
    the one of [startFetching]. *)
Example nan_transformed_at_every_broadcast :
  selectLog <$> observers world_nan !! 2%positive = Some [VNaN]
  ∧ selectLog
    <$> observers (run demo_hash world_nan [EvRefetch 3 (VStr "a")]) !! 2%positive
    = Some [VNaN; VNaN].
Proof. split; reflexivity. Qed.

(** A listener of the observer [2] throws at every state: when the fetcher
    resolves, [setData] and then [setError] throw, the promise [4] of the
    caller is rejected with what the listener throws, the entry has status
    ['error'], and the promise [5], which waits after the observer, stays
    pending. *)
Example listener_of_observer_throws :
  let w := run demo_hash world_loading
             [EvFetch 3 (VStr "a") None;
              EvSubscribe 2
                (mkSubscriber 50
                   (λ _ _, Abrupt (Some (VError (Given 2) "render"))));
              EvSettled 4 (FResolved (Some (VStr "alice")))] in
  promises w !! 4%positive = Some (Rejected (Some (VError (Given 2) "render")))
  ∧ promises w !! 5%positive = Some Pending
  ∧ state <$> cacheHeap w !! 3%positive
    = Some {| data := Some (VStr "alice");
              error := Some (VError (Given 2) "render");
              dataUpdatedAt := 5; errorUpdatedAt := 5; updatedAt := 5;
              status := StError; variables := VStr "a" |}.
Proof. repeat split. Qed.

(** A fetch that fails after a success: the entry keeps the data. *)
Example error_keeps_data :
  state
  <$> cacheHeap
        (run demo_hash world_success
           [EvRefetch 3 (VStr "a");
            EvSettled 5 (FRejected (Some (VError (Given 1) "boom")))])
      !! 3%positive
  = Some {| data := Some (VStr "alice"); error := Some (VError (Given 1) "boom");
            dataUpdatedAt := 5; errorUpdatedAt := 5; updatedAt := 5;
            status := StError; variables := VStr "a" |}.
Proof. reflexivity. Qed.
